(** * Verification of the rate-limiting control-plane daemon

    Shallow embedding of [ratelimiting_user.c]: the user-space loader of an
    XDP rate limiter.  The daemon links itself into a chain of XDP programs,
    pushes its configuration into BPF maps, periodically sweeps stale keys
    out of the sliding-window map and unlinks itself on a signal.

    The C functions are embedded as computations in a small state monad
    over the process state (globals, kernel tables, output trace).  The
    kernel side of the BPF system calls is an explicit model, kept in
    module [Bpf]. *)

From Stdlib Require Import ZArith Ascii String Lia.
From stdpp Require Import gmap strings list fin_maps.

Local Open Scope string_scope.
Local Open Scope list_scope.
Local Open Scope Z_scope.

(** ** C integer conversions *)

Module CInt.

(** [__u64] arithmetic wraps modulo 2^64. *)
Definition u64 (z : Z) : Z := z mod 2 ^ 64.

(** [(uint16_t) x]. *)
Definition u16 (z : Z) : Z := z mod 2 ^ 16.

(** [(int) x] for a [long] x: the low 32 bits, read as two's complement
    (the conversion gcc and clang implement). *)
Definition int (z : Z) : Z :=
  let r := z mod 2 ^ 32 in if r <? 2 ^ 31 then r else r - 2 ^ 32.

(** LP64: [long] has 64 bits. *)
Definition LONG_MAX : Z := 2 ^ 63 - 1.
Definition LONG_MIN : Z := - 2 ^ 63.

Definition EXIT_SUCCESS : Z := 0.
Definition EXIT_FAILURE : Z := 1.

(** The status a parent process observes for [exit(r)] or for
    [return r] from [main]: the low eight bits. *)
Definition wait_status (r : Z) : Z := r mod 256.

End CInt.

(** ** The kernel side of the BPF system calls *)

Module Bpf.

(** The elements of a map in the order in which the kernel iterates over
    them.  For a hash map, which is what the window map is, this order is
    the bucket order; it is not related to the numeric order of the keys,
    and the keys are distinct. *)
Abbreviation entries := (list (Z * Z)) (only parsing).

Record map : Type := Map { max_entries : nat; elems : entries }.

Definition keys (l : entries) : list Z := l.*1.

Fixpoint lookup (k : Z) (l : entries) : option Z :=
  match l with
  | [] => None
  | (k', v) :: r => if k' =? k then Some v else lookup k r
  end.

(** The keys that follow the first occurrence of [k]. *)
Fixpoint after (k : Z) (ks : list Z) : option (list Z) :=
  match ks with
  | [] => None
  | x :: r => if x =? k then Some r else after k r
  end.

(** [BPF_MAP_GET_NEXT_KEY], as bpf(2) has it: the key that follows [k];
    the first key of the map when [k] is not found; [None] ([ENOENT]) when
    [k] is the last key or the map is empty. *)
Definition next_key (l : entries) (k : Z) : option Z :=
  match after k (keys l) with
  | None => head (keys l)
  | Some r => head r
  end.

Definition remove (k : Z) (l : entries) : entries :=
  filter (fun e => e.1 <> k) l.

(** [BPF_MAP_DELETE_ELEM]: [None] ([ENOENT]) when the key is absent. *)
Definition delete (k : Z) (l : entries) : option entries :=
  match lookup k l with
  | Some _ => Some (remove k l)
  | None => None
  end.

Fixpoint replace (k v : Z) (l : entries) : entries :=
  match l with
  | [] => []
  | (k', v') :: r => if k' =? k then (k, v) :: r else (k', v') :: replace k v r
  end.

(** [BPF_MAP_UPDATE_ELEM] with flags [BPF_ANY] on a hash or array map:
    overwrite an existing key, add a new one while there is room, fail
    ([E2BIG]) otherwise.  A new key is put first in the iteration order
    here; in the kernel its place is that of its bucket.  No map this
    program writes to with this call is walked by it: the window map is
    written by the XDP program only, through [insert_at]. *)
Definition update (k v : Z) (m : map) : option map :=
  match lookup k (elems m) with
  | Some _ => Some (Map (max_entries m) (replace k v (elems m)))
  | None =>
      if bool_decide (length (elems m) < max_entries m)%nat
      then Some (Map (max_entries m) ((k, v) :: elems m))
      else None
  end.

(** An insertion by the XDP program: a new element lands at some position
    of the iteration order; an existing key is left alone. *)
Record insertion : Type := Ins { ins_pos : nat; ins_key : Z; ins_val : Z }.

Definition insert_at (i : insertion) (l : entries) : entries :=
  match lookup (ins_key i) l with
  | Some _ => l
  | None => take (ins_pos i) l ++ (ins_key i, ins_val i) :: drop (ins_pos i) l
  end.

Definition insert_all (b : list insertion) (l : entries) : entries :=
  foldl (fun acc i => insert_at i acc) l b.

(** The tables of the kernel this process can reach, with the objects by
    identity: the hash and array maps, the descriptors open in this
    process, the objects pinned in the BPF file system, the program arrays
    ([BPF_MAP_TYPE_PROG_ARRAY]) and the loaded programs.

    A program array is kept as its occupied slots, each with the id of the
    program in it, which is what user space reads from the slot; a program
    is kept as its id.  An identity is that of one object: it is looked for
    among the maps first, then among the program arrays, then among the
    programs. *)
Record kernel : Type := Kernel {
  objs : gmap nat map;
  fds : gmap Z nat;
  bpffs : gmap string nat;
  prog_arrays : gmap nat map;
  progs : gmap nat Z
}.

Definition resolve (k : kernel) (fd : Z) : option map :=
  fds k !! fd ≫= fun id => objs k !! id.

(** The map or program array with identity [id]. *)
Definition table (k : kernel) (id : nat) : option map :=
  match objs k !! id with
  | Some m => Some m
  | None => prog_arrays k !! id
  end.

(** The id of the program that descriptor [fd] is open on. *)
Definition prog_id (k : kernel) (fd : Z) : option Z :=
  fds k !! fd ≫= fun id =>
    match table k id with
    | Some _ => None
    | None => progs k !! id
    end.

(** [BPF_MAP_UPDATE_ELEM] on a program array: the key is a slot of the
    array and the value a descriptor, which has to be open on a program
    ([EBADF], [EINVAL] otherwise).  The slot then refers to the program,
    not to the descriptor.  The program is taken to be of the type the
    array accepts. *)
Definition set_prog (k : kernel) (key fd : Z) (a : map) : option map :=
  if bool_decide (0 <= key < Z.of_nat (max_entries a)) then
    match prog_id k fd with
    | Some pid =>
        Some (Map (max_entries a)
                  (match lookup key (elems a) with
                   | Some _ => replace key pid (elems a)
                   | None => (key, pid) :: elems a
                   end))
    | None => None
    end
  else None.

(** What [BPF_MAP_UPDATE_ELEM] makes of the object [id]: a hash or array
    map stores the value as it is, a program array the program behind
    it. *)
Definition written (k : kernel) (id : nat) (key value : Z) : option map :=
  match objs k !! id with
  | Some m => update key value m
  | None => prog_arrays k !! id ≫= set_prog k key value
  end.

(** The lowest descriptor that is not open. *)
Definition fresh_fd (t : gmap Z nat) : Z :=
  default 0 (List.find (fun n => bool_decide (t !! n = None))
                       (seqZ 0 (Z.of_nat (size t) + 1))).

End Bpf.

(** ** Process state and the monad of the embedding *)

Inductive level : Type := LOG_ERR | LOG_WARN | LOG_INFO | LOG_DEBUG.

Inductive arg : Type := AInt (z : Z) | AStr (s : string).

(** What the process emits: calls of the logging macros, writes to the
    standard streams, and a record of each [BPF_MAP_GET_NEXT_KEY] call
    (cursor passed, key returned), as [strace] would show it. *)
Inductive event : Type :=
| Log (l : level) (fmt : string) (args : list arg)
| Stderr (msg : string)
| Stdout (msg : string)
| NextKey (fd cursor : Z) (found : option Z).

(** Outcomes of the calls this program makes into libc, libbpf's loader and
    the rest of the system; fixed for one run. *)
Record host : Type := Host {
  setrlimit_ret : Z;
  load_ret : Z;
  load_prog_fd : list Z;
  load_map_fd : list Z;
  fopen_ok : bool;
  fclose_ret : Z;
  ifaces : gmap string Z;
  dp_window : nat               (* the map the XDP program uses as window map *)
}.

Record state : Type := State {
  sys : host;
  kern : Bpf.kernel;
  clock : Z * Z;                              (* CLOCK_MONOTONIC: tv_sec, tv_nsec *)
  dataplane : list (list Bpf.insertion);      (* pending work of the XDP program *)
  ifindex : Z;
  info : bool;                                (* [info != NULL] *)
  prev_prog_map : string;
  verbosity : Z;
  prog_fd : list Z;
  map_fd : list Z;
  out : list event
}.

Definition set_kern (k : Bpf.kernel) (s : state) : state :=
  State (sys s) k (clock s) (dataplane s) (ifindex s) (info s)
        (prev_prog_map s) (verbosity s) (prog_fd s) (map_fd s) (out s).
Definition set_clock (c : Z * Z) (s : state) : state :=
  State (sys s) (kern s) c (dataplane s) (ifindex s) (info s)
        (prev_prog_map s) (verbosity s) (prog_fd s) (map_fd s) (out s).
Definition set_dataplane (d : list (list Bpf.insertion)) (s : state) : state :=
  State (sys s) (kern s) (clock s) d (ifindex s) (info s)
        (prev_prog_map s) (verbosity s) (prog_fd s) (map_fd s) (out s).
Definition set_ifindex (i : Z) (s : state) : state :=
  State (sys s) (kern s) (clock s) (dataplane s) i (info s)
        (prev_prog_map s) (verbosity s) (prog_fd s) (map_fd s) (out s).
Definition set_info (b : bool) (s : state) : state :=
  State (sys s) (kern s) (clock s) (dataplane s) (ifindex s) b
        (prev_prog_map s) (verbosity s) (prog_fd s) (map_fd s) (out s).
Definition set_prev_prog_map (p : string) (s : state) : state :=
  State (sys s) (kern s) (clock s) (dataplane s) (ifindex s) (info s)
        p (verbosity s) (prog_fd s) (map_fd s) (out s).
Definition set_verbosity (v : Z) (s : state) : state :=
  State (sys s) (kern s) (clock s) (dataplane s) (ifindex s) (info s)
        (prev_prog_map s) v (prog_fd s) (map_fd s) (out s).
Definition set_loaded (p m : list Z) (s : state) : state :=
  State (sys s) (kern s) (clock s) (dataplane s) (ifindex s) (info s)
        (prev_prog_map s) (verbosity s) p m (out s).
Definition set_out (o : list event) (s : state) : state :=
  State (sys s) (kern s) (clock s) (dataplane s) (ifindex s) (info s)
        (prev_prog_map s) (verbosity s) (prog_fd s) (map_fd s) o.

(** A computation returns, terminates the process with a status, or is
    stuck (undefined behaviour of the C program, or a loop that ran out of
    the fuel it was given). *)
Inductive result (A : Type) : Type :=
| Ret (a : A) (s : state)
| Exit (status : Z) (s : state)
| Stuck (s : state).
Arguments Ret {A} a s.
Arguments Exit {A} status s.
Arguments Stuck {A} s.

Definition M (A : Type) : Type := state -> result A.

#[global] Instance M_ret : MRet M := fun A a s => Ret a s.
#[global] Instance M_bind : MBind M := fun A B f c s =>
  match c s with
  | Ret a s' => f a s'
  | Exit r s' => Exit r s'
  | Stuck s' => Stuck s'
  end.

Definition gets {A} (f : state -> A) : M A := fun s => Ret (f s) s.
Definition modify (f : state -> state) : M unit := fun s => Ret () (f s).
Definition exit {A} (status : Z) : M A := fun s => Exit status s.
Definition stuck {A} : M A := fun s => Stuck s.
Definition emit (e : event) : M unit := modify (fun s => set_out (out s ++ [e]) s).
Definition when (b : bool) (c : M unit) : M unit := if b then c else mret ().

(** The final state of a computation, whatever its outcome. *)
Definition final {A} (r : result A) : state :=
  match r with Ret _ s | Exit _ s | Stuck s => s end.

(** ** System calls and library calls, as this process sees them *)

Definition bpf_obj_get (path : string) : M Z := fun s =>
  let k := kern s in
  match Bpf.bpffs k !! path with
  | Some id =>
      let fd := Bpf.fresh_fd (Bpf.fds k) in
      Ret fd (set_kern (Bpf.Kernel (Bpf.objs k) (<[fd := id]> (Bpf.fds k)) (Bpf.bpffs k)
                                   (Bpf.prog_arrays k) (Bpf.progs k)) s)
  | None => Ret (-1) s
  end.

Definition bpf_obj_pin (fd : Z) (path : string) : M Z := fun s =>
  let k := kern s in
  match Bpf.fds k !! fd, Bpf.bpffs k !! path with
  | Some id, None =>
      Ret 0 (set_kern (Bpf.Kernel (Bpf.objs k) (Bpf.fds k) (<[path := id]> (Bpf.bpffs k))
                                  (Bpf.prog_arrays k) (Bpf.progs k)) s)
  | _, _ => Ret (-1) s
  end.

Definition put_obj (id : nat) (m : Bpf.map) (s : state) : state :=
  let k := kern s in
  set_kern (Bpf.Kernel (<[id := m]> (Bpf.objs k)) (Bpf.fds k) (Bpf.bpffs k)
                       (Bpf.prog_arrays k) (Bpf.progs k)) s.

Definition put_prog_array (id : nat) (a : Bpf.map) (s : state) : state :=
  let k := kern s in
  set_kern (Bpf.Kernel (Bpf.objs k) (Bpf.fds k) (Bpf.bpffs k)
                       (<[id := a]> (Bpf.prog_arrays k)) (Bpf.progs k)) s.

(** The kernel dispatches on the type of the map behind [fd]. *)
Definition bpf_map_update_elem (fd key value : Z) : M Z := fun s =>
  let k := kern s in
  match Bpf.fds k !! fd with
  | Some id =>
      match Bpf.objs k !! id with
      | Some m =>
          match Bpf.update key value m with
          | Some m' => Ret 0 (put_obj id m' s)
          | None => Ret (-1) s
          end
      | None =>
          match Bpf.prog_arrays k !! id ≫= Bpf.set_prog k key value with
          | Some a' => Ret 0 (put_prog_array id a' s)
          | None => Ret (-1) s
          end
      end
  | None => Ret (-1) s
  end.

(** On a program array the call empties the slot; [ENOENT] when the slot
    is empty already. *)
Definition bpf_map_delete_elem (fd key : Z) : M Z := fun s =>
  let k := kern s in
  match Bpf.fds k !! fd with
  | Some id =>
      match Bpf.objs k !! id with
      | Some m =>
          match Bpf.delete key (Bpf.elems m) with
          | Some l => Ret 0 (put_obj id (Bpf.Map (Bpf.max_entries m) l) s)
          | None => Ret (-1) s
          end
      | None =>
          match Bpf.prog_arrays k !! id with
          | Some a =>
              match Bpf.delete key (Bpf.elems a) with
              | Some l => Ret 0 (put_prog_array id (Bpf.Map (Bpf.max_entries a) l) s)
              | None => Ret (-1) s
              end
          | None => Ret (-1) s
          end
      end
  | None => Ret (-1) s
  end.

(** Returns [Some next_key] where the C call returns 0 and stores the key,
    [None] where it returns an error and leaves [next_key] alone.  The
    call is modelled on hash maps, the type of the one map this program
    walks. *)
Definition bpf_map_get_next_key (fd key : Z) : M (option Z) := fun s =>
  let r := Bpf.resolve (kern s) fd ≫= fun m => Bpf.next_key (Bpf.elems m) key in
  Ret r (set_out (out s ++ [NextKey fd key r]) s).

Definition close (fd : Z) : M Z := fun s =>
  let k := kern s in
  match Bpf.fds k !! fd with
  | Some _ => Ret 0 (set_kern (Bpf.Kernel (Bpf.objs k) (delete fd (Bpf.fds k)) (Bpf.bpffs k)
                                         (Bpf.prog_arrays k) (Bpf.progs k)) s)
  | None => Ret (-1) s
  end.

(** [remove] of a pinned object's file. *)
Definition remove (path : string) : M Z := fun s =>
  let k := kern s in
  match Bpf.bpffs k !! path with
  | Some _ => Ret 0 (set_kern (Bpf.Kernel (Bpf.objs k) (Bpf.fds k) (delete path (Bpf.bpffs k))
                                         (Bpf.prog_arrays k) (Bpf.progs k)) s)
  | None => Ret (-1) s
  end.

Definition setrlimit : M Z := gets (fun s => setrlimit_ret (sys s)).

(** [load_bpf_file] fills the globals [prog_fd] and [map_fd]; the maps and
    descriptors behind them are already in the kernel tables. *)
Definition load_bpf_file (file : string) : M Z := fun s =>
  Ret (load_ret (sys s)) (set_loaded (load_prog_fd (sys s)) (load_map_fd (sys s)) s).

Definition fopen (file : string) : M bool := gets (fun s => fopen_ok (sys s)).
Definition fclose : M Z := fun s => Ret (fclose_ret (sys s)) (set_info false s).
Definition fflush : M unit := mret ().

Definition if_nametoindex (name : string) : M Z :=
  gets (fun s => default 0 (ifaces (sys s) !! name)).

Definition clock_gettime : M (Z * Z) := gets clock.

Definition sleep (seconds : Z) : M unit :=
  modify (fun s => set_clock ((clock s).1 + seconds, (clock s).2) s).

(** One scheduling point: the XDP program performs its next batch of
    insertions into the window map. *)
Definition dataplane_tick : M unit := fun s =>
  match dataplane s with
  | [] => Ret () s
  | b :: rest =>
      let id := dp_window (sys s) in
      let s' := set_dataplane rest s in
      match Bpf.objs (kern s) !! id with
      | Some m => Ret () (put_obj id (Bpf.Map (Bpf.max_entries m) (Bpf.insert_all b (Bpf.elems m))) s')
      | None => Ret () s'
      end
  end.

(** ** libc string functions *)

(** [isspace] in the C locale: space, and the control characters 9 to 13. *)
Definition isspace (c : ascii) : bool :=
  let n := nat_of_ascii c in
  bool_decide (n = 32)%nat || (bool_decide (9 <= n)%nat && bool_decide (n <= 13)%nat).

Definition isdigit (c : ascii) : bool :=
  let n := nat_of_ascii c in bool_decide (48 <= n)%nat && bool_decide (n <= 57)%nat.

Definition digit_value (c : ascii) : Z := Z.of_nat (nat_of_ascii c) - 48.

Fixpoint skip_space (s : string) : string :=
  match s with
  | String c r => if isspace c then skip_space r else s
  | EmptyString => s
  end.

(** The longest run of decimal digits at the head of [s], as a number, and
    what follows it. *)
Fixpoint read_digits (s : string) (acc : Z) : Z * string :=
  match s with
  | String c r => if isdigit c then read_digits r (10 * acc + digit_value c) else (acc, s)
  | EmptyString => (acc, s)
  end.

Record strtol_result : Type := Strtol {
  value : Z;            (* the return value *)
  endptr : string;      (* what [*endptr] points at *)
  erange : bool;        (* [errno == ERANGE] *)
  noconv : bool         (* [endptr == str]: no digits were consumed *)
}.

(** [strtol(str, &endptr, 10)]. *)
Definition strtol (str : string) : strtol_result :=
  let s1 := skip_space str in
  let '(neg, s2) :=
    match s1 with
    | String "-" r => (true, r)
    | String "+" r => (false, r)
    | _ => (false, s1)
    end in
  match s2 with
  | String c _ =>
      if isdigit c then
        let '(n, rest) := read_digits s2 0 in
        let v := if neg : bool then - n else n in
        if CInt.LONG_MAX <? v then Strtol CInt.LONG_MAX rest true false
        else if v <? CInt.LONG_MIN then Strtol CInt.LONG_MIN rest true false
        else Strtol v rest false false
      else Strtol 0 str false true
  | EmptyString => Strtol 0 str false true
  end.

Definition is_delim (delim : string) (c : ascii) : bool :=
  bool_decide (c ∈ list_ascii_of_string delim).

(** One call [strsep(&tmp, delim)] with [tmp] pointing at [s]: the token
    returned, and what [tmp] points at afterwards ([None] for [NULL]). *)
Fixpoint strsep (delim : string) (s : string) : string * option string :=
  match s with
  | EmptyString => (EmptyString, None)
  | String c r =>
      if is_delim delim c then (EmptyString, Some r)
      else let '(t, rest) := strsep delim r in (String c t, rest)
  end.

(** The tokens successive [strsep] calls return until [tmp] is [NULL]. *)
Fixpoint tokens (delim : string) (s : string) : list string :=
  match s with
  | EmptyString => [EmptyString]
  | String c r =>
      if is_delim delim c then EmptyString :: tokens delim r
      else match tokens delim r with
           | t :: ts => String c t :: ts
           | [] => [String c EmptyString]
           end
  end.

(** ** The program *)

(** [constants.h] and [log.h] are not among the sources; the constants the
    program takes from them are parameters of the development. *)
Record constants : Type := Constants {
  buffer_time : Z;
  delim : string;
  MAP_COUNT : nat;
  xdp_rl_ingress_next_prog : string;
  DEFAULT_LOGFILE : string;
  LOG_INFO_level : Z
}.

(** Modelled from the spec: the logging macros [log_err], [log_warn],
    [log_info] and [log_debug] of [log.h], which is not among the sources.
    The specification has failures "logged" to the log sink; a call is
    recorded here as an event with its level and format string, whatever
    the verbosity. *)
Definition log_err (fmt : string) (a : list arg) : M unit := emit (Log LOG_ERR fmt a).
Definition log_warn (fmt : string) (a : list arg) : M unit := emit (Log LOG_WARN fmt a).
Definition log_info (fmt : string) (a : list arg) : M unit := emit (Log LOG_INFO fmt a).
Definition log_debug (fmt : string) (a : list arg) : M unit := emit (Log LOG_DEBUG fmt a).
Definition fprintf_stderr (msg : string) : M unit := emit (Stderr msg).
Definition perror (msg : string) : M unit := emit (Stderr msg).

Fixpoint get_length (str : string) : Z :=
  match str with
  | EmptyString => 0
  | String _ r => get_length r + 1
  end.

(** Removes the white space at the end of [s]. *)
Fixpoint drop_trailing_space (s : string) : string :=
  match s with
  | EmptyString => EmptyString
  | String c r =>
      match drop_trailing_space r with
      | EmptyString => if isspace c then EmptyString else String c EmptyString
      | r' => String c r'
      end
  end.

(** [trim_space]: the second loop stops at [end == str], so the first
    character left after the leading white space always stays. *)
Definition trim_space (str : string) : string :=
  match skip_space str with
  | EmptyString => EmptyString
  | String c r => String c (drop_trailing_space r)
  end.

Definition strtoi (str : string) : M Z :=
  let r := strtol str in
  when (erange r || negb (bool_decide (endptr r = EmptyString)) || noconv r)
       (fprintf_stderr "out of range");;
  mret (CInt.int (value r)).

Section Program.

Variable K : constants.

Definition set_logfile : M unit :=
  opened ← gets info;
  if opened : bool then mret ()
  else
    ok ← fopen (DEFAULT_LOGFILE K);
    if ok : bool then
      modify (set_info true);;
      fprintf_stderr "writing errors/warnings/info/debug output to %s \n"
    else fprintf_stderr "could not open log file ".

Definition xdp_unlink_bpf_chain (map_filename : string) : M Z :=
  let key := 0 in
  map_fd ← bpf_obj_get map_filename;
  ret ← (if 0 <? map_fd then
           ret ← bpf_map_delete_elem map_fd key;
           when (negb (ret =? 0)) (log_err "xdp chain remove program failed" []);;
           mret ret
         else
           log_err "Previous program's map is not found %s" [AStr map_filename];;
           mret 0);
  r ← remove (xdp_rl_ingress_next_prog K);
  when (r <? 0) (log_warn "Failed to remove map file - xdp_rl_ingress_next_prog" []);;
  mret ret.

Fixpoint close_maps (i n : nat) : M unit :=
  match n with
  | O => mret ()
  | S n' => fd ← gets (fun s => nth i (map_fd s) 0); close fd;; close_maps (S i) n'
  end.

Definition signal_handler (signal : Z) : M Empty_set :=
  log_info "Received signal %d" [AInt signal];;
  path ← gets prev_prog_map;
  xdp_unlink_bpf_chain path;;
  close_maps 0 (MAP_COUNT K);;
  opened ← gets info;
  when opened (fclose;; mret ());;
  exit CInt.EXIT_SUCCESS.

Definition time_get_ns : M Z :=
  ts ← clock_gettime;
  mret (CInt.u64 (CInt.u64 ts.1 * 1000000000 + ts.2)).

(** The [while] loop of [delete_stale_entries].  Each BPF call is
    followed by a scheduling point of the XDP program. *)
Fixpoint sweep (fuel : nat) (fd curr_time first_key : Z) : M unit :=
  match fuel with
  | O => stuck
  | S fuel' =>
      r ← bpf_map_get_next_key fd first_key;
      dataplane_tick;;
      match r with
      | None => mret ()
      | Some next_key =>
          when (next_key <? CInt.u64 (curr_time - buffer_time K))
               (log_debug "Deleting stale map entry %llu" [AInt next_key];;
                d ← bpf_map_delete_elem fd next_key;
                dataplane_tick;;
                when (negb (d =? 0)) (log_info "Map element not found" []));;
          sweep fuel' fd curr_time next_key
      end
  end.

Definition delete_stale_entries (fuel : nat) : M unit :=
  log_debug "Deleting stale map entries periodically" [];;
  fd ← gets (fun s => nth 1 (map_fd s) 0);
  if fd <? 0 then
    log_info "Window map fd not found" [];;
    exit CInt.EXIT_FAILURE
  else
    curr_time ← time_get_ns;
    log_debug "Current time is %llu" [AInt curr_time];;
    sweep fuel fd curr_time 0.

Fixpoint update_ports_loop (toks : list string) : M unit :=
  match toks with
  | [] => mret ()
  | ptr :: rest =>
      let ptr := trim_space ptr in
      n ← strtoi ptr;
      let port := CInt.u16 n in
      let pval := 1 in
      fd ← gets (fun s => nth 4 (map_fd s) 0);
      bpf_map_update_elem fd port pval;;
      update_ports_loop rest
  end.

Definition update_ports (ports : string) : M unit :=
  update_ports_loop (tokens (delim K) ports).

End Program.

Section Main.

Variable K : constants.

(** [usage] prints the documentation string and the option table. *)
Definition usage : M unit := emit (Stdout "DOCUMENTATION").

(** The option loop of [main]: [opts] lists what successive calls of
    [getopt_long] return, with [optarg].  The result is [rate] and the
    contents of the buffer [ports]. *)
Fixpoint parse_args (opts : list (ascii * option string)) (rate : Z) (ports : string)
  : M (Z * string) :=
  match opts with
  | [] => mret (rate, ports)
  | (opt, optarg) :: rest =>
      match opt, optarg with
      | "r"%char, Some a => rate ← strtoi a; parse_args rest rate ports
      | "i"%char, Some a =>
          i ← if_nametoindex a; modify (set_ifindex i);; parse_args rest rate ports
      | "r"%char, None | "i"%char, None => stuck
      | "v"%char, Some a =>
          v ← strtoi a; modify (set_verbosity v);; parse_args rest rate ports
      | "m"%char, Some a =>
          if get_length a <? 1024
          then modify (set_prev_prog_map a);; parse_args rest rate ports
          else stuck
      | "p"%char, Some a =>
          if get_length a <? 2048 then parse_args rest rate a else stuck
      | "v"%char, None | "m"%char, None | "p"%char, None | "d"%char, _ =>
          parse_args rest rate ports
      | _, _ => usage;; exit CInt.EXIT_FAILURE
      end
  end.

(** Lines 299 to 312: link this program behind the previous one. *)
Definition chain_link : M unit :=
  let pkey := 0 in
  path ← gets prev_prog_map;
  prev_prog_map_fd ← bpf_obj_get path;
  if prev_prog_map_fd <? 0 then
    log_err "Failed to fetch previous xdp function in the chain" [];;
    exit CInt.EXIT_FAILURE
  else
    prog ← gets (fun s => nth 0 (prog_fd s) 0);
    r ← bpf_map_update_elem prev_prog_map_fd pkey prog;
    if negb (r =? 0) then
      log_err "Failed to update prog fd in the chain" [];;
      exit CInt.EXIT_FAILURE
    else
      close prev_prog_map_fd;; mret ().

(** Lines 314 to 321: publish the map a next program links itself into. *)
Definition publish_next : M unit :=
  next_prog_map_fd ← bpf_obj_get (xdp_rl_ingress_next_prog K);
  when (next_prog_map_fd <? 0)
    (log_info "Failed to fetch next prog map fd, creating one" [];;
     fd ← gets (fun s => nth 5 (map_fd s) 0);
     r ← bpf_obj_pin fd (xdp_rl_ingress_next_prog K);
     when (negb (r =? 0))
       (log_info "Failed to pin next prog fd map" [];;
        exit CInt.EXIT_FAILURE)).

(** One of the three blocks of lines 329 to 357. *)
Definition init_map (i : nat) (missing : string) (value : Z) : M unit :=
  fd ← gets (fun s => nth i (map_fd s) 0);
  if fd =? 0 then
    log_err missing [];;
    exit (-1)
  else
    ret ← bpf_map_update_elem fd 0 value;
    if negb (ret =? 0) then
      perror "bpf_update_elem";;
      exit 1
    else mret ().

Definition configure (rate : Z) : M unit :=
  let recv_count := 0 in
  let drop_count := 0 in
  init_map 0 "ERROR: rl_config_map not found" rate;;
  init_map 2 "ERROR: rl_recv_count_map not found" recv_count;;
  init_map 3 "ERROR: rl_drop_count_map not found" drop_count.

(** Lines 232 to 297 of [main]: options, resource limit, log file, loading
    of the BPF object.  The result is [rate] and the contents of the
    buffer [ports].  A [return r] of [main] is [exit r]. *)
Definition startup (argv0 : string) (opts : list (ascii * option string))
  : M (Z * string) :=
  modify (set_verbosity (LOG_INFO_level K));;
  let bpf_obj_file := substring 0 255 (argv0 +:+ "_kern.o") in
  '(rate, ports) ← parse_args opts 0 EmptyString;
  r ← setrlimit;
  (if negb (r =? 0) then
     perror "setrlimit(RLIMIT_MEMLOCK)";;
     exit CInt.EXIT_FAILURE
   else mret ());;
  set_logfile K;;
  l ← load_bpf_file bpf_obj_file;
  (if negb (l =? 0) then
     log_err "Failed to load bpf program" [];;
     exit 1
   else mret ());;
  prog ← gets (fun s => nth 0 (prog_fd s) 0);
  (if prog =? 0 then
     log_err "Failed to get bpf program fd" [];;
     exit 1
   else mret ());;
  mret (rate, ports).

(** [main] up to the [while(1)] loop; a normal return of this computation
    is the entry into the loop.  The three calls of [signal] before the loop
    have no effect on the state modelled here: [signal_handler] is a
    computation of its own, to be run on the state a signal finds. *)
Definition main (argv0 : string) (opts : list (ascii * option string)) : M unit :=
  '(rate, ports) ← startup argv0 opts;
  chain_link;;
  publish_next;;
  configure rate;;
  when (negb (get_length ports =? 0))
    (log_info "port list is %s\n" [AStr ports];;
     update_ports K ports).

(** One round of the [while(1)] loop. *)
Definition steady_round (fuel : nat) : M unit :=
  sleep 60;;
  delete_stale_entries K fuel;;
  fflush.

End Main.

(** ** The sweep as a function of the window map alone

    [psweep] is the loop of [delete_stale_entries] projected on what it
    reads and writes: the elements of the window map, the pending batches
    of the XDP program and the events emitted.  [sweep_psweep] below shows
    that the embedded loop computes exactly this. *)

Definition tick (l : Bpf.entries) (d : list (list Bpf.insertion))
  : Bpf.entries * list (list Bpf.insertion) :=
  match d with
  | [] => (l, [])
  | b :: rest => (Bpf.insert_all b l, rest)
  end.

Definition pdelete (k : Z) (l : Bpf.entries) : Bpf.entries * list event :=
  match Bpf.delete k l with
  | Some l' => (l', [])
  | None => (l, [Log LOG_INFO "Map element not found" []])
  end.

Fixpoint psweep (fuel : nat) (fd thr cursor : Z) (l : Bpf.entries)
    (d : list (list Bpf.insertion))
  : option (Bpf.entries * list (list Bpf.insertion) * list event) :=
  match fuel with
  | O => None
  | S fuel' =>
      let r := Bpf.next_key l cursor in
      let '(l1, d1) := tick l d in
      match r with
      | None => Some (l1, d1, [NextKey fd cursor None])
      | Some k =>
          if k <? thr then
            let '(l2, miss) := pdelete k l1 in
            let '(l3, d3) := tick l2 d1 in
            '(l', d', ev) ← psweep fuel' fd thr k l3 d3;
            Some (l', d',
                  NextKey fd cursor (Some k)
                  :: Log LOG_DEBUG "Deleting stale map entry %llu" [AInt k]
                  :: miss ++ ev)
          else
            '(l', d', ev) ← psweep fuel' fd thr k l1 d1;
            Some (l', d', NextKey fd cursor (Some k) :: ev)
      end
  end.

(** The window map of the process: descriptor [fd] is open on map [id],
    which holds [l] and is the map the XDP program inserts into. *)
Definition window_at (s : state) (fd : Z) (id cap : nat) (l : Bpf.entries) : Prop :=
  Bpf.fds (kern s) !! fd = Some id /\
  Bpf.objs (kern s) !! id = Some (Bpf.Map cap l) /\
  dp_window (sys s) = id.

(** Every key the XDP program inserts during the sweep is at or above the
    staleness threshold. *)
Definition inserts_fresh (thr : Z) (d : list (list Bpf.insertion)) : Prop :=
  Forall (Forall (fun i => thr <= Bpf.ins_key i)) d.

(** The keys the XDP program inserts during the sweep, in the order of
    their insertion. *)
Definition inserted (d : list (list Bpf.insertion)) : list Z :=
  Bpf.ins_key <$> concat d.

(** The keys the XDP program inserts during the sweep are new: none of
    them is in the map [l] the sweep starts from, and none is inserted
    twice. *)
Definition inserts_new (l : list (Z * Z)) (d : list (list Bpf.insertion)) : Prop :=
  NoDup (inserted d) /\ Forall (fun k => k ∉ Bpf.keys l) (inserted d).

(** The invariant of the sweep under such insertions: the keys of the map
    and the keys still to be inserted are all different. *)
Definition distinct (l : list (Z * Z)) (d : list (list Bpf.insertion)) : Prop :=
  NoDup (Bpf.keys l) /\ NoDup (inserted d) /\
  forall x, x ∈ Bpf.keys l -> x ∉ inserted d.

(** * Vocabulary of the statements *)

(** ** The sweep *)

(** The value [time_get_ns] returns in state [s]. *)
Definition now (s : state) : Z :=
  CInt.u64 (CInt.u64 (clock s).1 * 1000000000 + (clock s).2).

(** The bound below which [delete_stale_entries] deletes a key. *)
Definition threshold (K : constants) (s : state) : Z :=
  CInt.u64 (now s - buffer_time K).

(** The state in which the sweep of a round of the loop of [main] starts:
    the [sleep(60)] of the round is over. *)
Definition woken (s : state) : state :=
  set_clock ((clock s).1 + 60, (clock s).2) s.

(** The events of one sweep that ends normally. *)
Definition sweep_events (s : state) (ev : list event) : list event :=
  [Log LOG_DEBUG "Deleting stale map entries periodically" [];
   Log LOG_DEBUG "Current time is %llu" [AInt (now s)]] ++ ev.

(** [x] is still ahead of the cursor [c]: it is a key of the map and, when
    the cursor is a key too, [x] comes later in the iteration order. *)
Definition ahead (c : Z) (ks : list Z) (x : Z) : Prop :=
  x ∈ ks /\ forall r, Bpf.after c ks = Some r -> x ∈ r.

Definition visited (fd : Z) (ev : list event) (x : Z) : Prop :=
  exists c, NextKey fd c (Some x) ∈ ev.

(** The cursor of each [BPF_MAP_GET_NEXT_KEY] call is the key the call
    before it returned. *)
Fixpoint cursor_chain (fd c : Z) (ev : list event) : Prop :=
  match ev with
  | [] => True
  | NextKey fd' c' r :: rest =>
      fd' = fd /\ c' = c /\
      match r with
      | Some k => cursor_chain fd k rest
      | None => rest = []
      end
  | _ :: rest => cursor_chain fd c rest
  end.

Definition stale_count (thr : Z) (l : list (Z * Z)) : nat :=
  length (filter (fun e => e.1 < thr) l).

(** Keys left to walk before the traversal reaches the end of the map. *)
Definition remaining (c : Z) (l : list (Z * Z)) : nat :=
  match Bpf.after c (Bpf.keys l) with
  | Some r => length r
  | None => length l
  end.

(** ** Maps behind descriptors and paths *)

(** Descriptor [fd] is open on map [id], which is [m]. *)
Definition map_at (s : state) (fd : Z) (id : nat) (m : Bpf.map) : Prop :=
  Bpf.fds (kern s) !! fd = Some id /\ Bpf.objs (kern s) !! id = Some m.

(** The elements of the map behind descriptor [fd]. *)
Definition contents (s : state) (fd : Z) : option (list (Z * Z)) :=
  Bpf.elems <$> Bpf.resolve (kern s) fd.

(** The elements of the window map, read through descriptor 5. *)
Definition window (s : state) : option (list (Z * Z)) :=
  Bpf.elems <$> Bpf.resolve (kern s) 5.


(** The program array pinned at [path]. *)
Definition pinned_prog_array (s : state) (path : string) : option Bpf.map :=
  Bpf.bpffs (kern s) !! path ≫= fun id => Bpf.prog_arrays (kern s) !! id.

(** ** The port list *)

(** The key [update_ports] derives from one token. *)
Definition port_of (tok : string) : Z :=
  CInt.u16 (CInt.int (value (strtol (trim_space tok)))).

(** The condition under which [strtoi] writes its warning. *)
Definition malformed (tok : string) : bool :=
  let r := strtol (trim_space tok) in
  erange r || negb (bool_decide (endptr r = EmptyString)) || noconv r.

(** The updates of [update_ports_loop] on the port map, and its warnings. *)
Definition put_port (m : Bpf.map) (tok : string) : Bpf.map :=
  default m (Bpf.update (port_of tok) 1 m).

Definition port_warnings (toks : list string) : list event :=
  flat_map (fun tok => if malformed tok then [Stderr "out of range"] else []) toks.

(** ** Errors of the set-up *)

Inductive setup_error : Type :=
| RlimitFailure
| LoadFailure
| MissingEntryPoint
| PrevUnreachable
| ChainUpdateFailure
| MissingStoreHandle.

(** The status [main] passes to [exit], or returns, on each of them. *)
Definition setup_status (e : setup_error) : Z :=
  match e with
  | MissingStoreHandle => -1
  | _ => 1
  end.

Section SetupErrors.

Variables (K : constants) (argv0 : string) (opts : list (ascii * option string)).

(** What [main] has done when it calls [setrlimit]. *)
Definition parsed (s : state) : result (Z * string) :=
  parse_args opts 0 EmptyString (set_verbosity (LOG_INFO_level K) s).

(** [occurs s e]: started in [s], the run gets to the check of [e], and
    the check fails. *)
Inductive occurs (s : state) : setup_error -> Prop :=
| occurs_rlimit r s1 :
    parsed s = Ret r s1 ->
    setrlimit_ret (sys s1) <> 0 ->
    occurs s RlimitFailure
| occurs_load r s1 :
    parsed s = Ret r s1 ->
    setrlimit_ret (sys s1) = 0 -> load_ret (sys s1) <> 0 ->
    occurs s LoadFailure
| occurs_entry r s1 :
    parsed s = Ret r s1 ->
    setrlimit_ret (sys s1) = 0 -> load_ret (sys s1) = 0 ->
    nth 0 (load_prog_fd (sys s1)) 0 = 0 ->
    occurs s MissingEntryPoint
| occurs_prev r s2 :
    startup K argv0 opts s = Ret r s2 ->
    Bpf.bpffs (kern s2) !! prev_prog_map s2 = None ->
    occurs s PrevUnreachable
| occurs_chain r s2 id :
    startup K argv0 opts s = Ret r s2 ->
    Bpf.bpffs (kern s2) !! prev_prog_map s2 = Some id ->
    Bpf.written (kern s2) id 0 (nth 0 (prog_fd s2) 0) = None ->
    occurs s ChainUpdateFailure
| occurs_config r s2 s3 s4 :
    startup K argv0 opts s = Ret r s2 ->
    chain_link s2 = Ret () s3 ->
    publish_next K s3 = Ret () s4 ->
    nth 0 (map_fd s4) 0 = 0 ->
    occurs s MissingStoreHandle
| occurs_recv r s2 s3 s4 s5 :
    startup K argv0 opts s = Ret r s2 ->
    chain_link s2 = Ret () s3 ->
    publish_next K s3 = Ret () s4 ->
    init_map 0 "ERROR: rl_config_map not found" r.1 s4 = Ret () s5 ->
    nth 2 (map_fd s5) 0 = 0 ->
    occurs s MissingStoreHandle
| occurs_drop r s2 s3 s4 s5 s6 :
    startup K argv0 opts s = Ret r s2 ->
    chain_link s2 = Ret () s3 ->
    publish_next K s3 = Ret () s4 ->
    init_map 0 "ERROR: rl_config_map not found" r.1 s4 = Ret () s5 ->
    init_map 2 "ERROR: rl_recv_count_map not found" 0 s5 = Ret () s6 ->
    nth 3 (map_fd s6) 0 = 0 ->
    occurs s MissingStoreHandle.

End SetupErrors.

(** ** Teardown *)

(** What [xdp_unlink_bpf_chain] logs: an error when the previous
    program's map cannot be opened or the entry cannot be deleted from it,
    a warning when the pinned file of the own map cannot be removed. *)
Definition unlink_events (K : constants) (path : string) (s : state) : list event :=
  let k := kern s in
  match Bpf.bpffs k !! path with
  | Some id =>
      if 0 <? Bpf.fresh_fd (Bpf.fds k) then
        match Bpf.table k id ≫= fun m => Bpf.delete 0 (Bpf.elems m) with
        | Some _ => []
        | None => [Log LOG_ERR "xdp chain remove program failed" []]
        end
      else [Log LOG_ERR "Previous program's map is not found %s" [AStr path]]
  | None => [Log LOG_ERR "Previous program's map is not found %s" [AStr path]]
  end
  ++ match Bpf.bpffs k !! xdp_rl_ingress_next_prog K with
     | Some _ => []
     | None => [Log LOG_WARN "Failed to remove map file - xdp_rl_ingress_next_prog" []]
     end.

(** ** Example configurations *)

Definition K0 : constants :=
  Constants 2000000000 "," 6 "/sys/fs/bpf/xdp_rl_ingress_next_prog"
            "/var/log/l3af/ratelimiting.log" 2.

Definition host0 : host := Host 0 0 [3] [4; 5; 6; 7; 8; 9] true 0 ∅ 1%nat.

(** The program, with id 164, behind descriptor 3; six maps behind the
    descriptors 4 to 9, the window map holding [w] and the last one a
    program array; and the previous program's program array pinned at
    [/sys/fs/bpf/prev]. *)
Definition kern0 (w : list (Z * Z)) : Bpf.kernel :=
  Bpf.Kernel
    (list_to_map [(0%nat, Bpf.Map 1 []); (1%nat, Bpf.Map 100 w); (2%nat, Bpf.Map 1 []);
                  (3%nat, Bpf.Map 1 []); (4%nat, Bpf.Map 50 [])])
    (list_to_map [(3, 20%nat); (4, 0%nat); (5, 1%nat); (6, 2%nat); (7, 3%nat);
                  (8, 4%nat); (9, 5%nat)])
    (list_to_map [("/sys/fs/bpf/prev", 10%nat)])
    (list_to_map [(5%nat, Bpf.Map 1 []); (10%nat, Bpf.Map 1 [])])
    (list_to_map [(20%nat, 164)]).

Definition state0 (w : list (Z * Z)) (t : Z * Z) (d : list (list Bpf.insertion)) : state :=
  State host0 (kern0 w) t d 0 true "/sys/fs/bpf/prev" 2 [3] [4; 5; 6; 7; 8; 9] [].

(** The process as [main] finds it: zeroed globals, nothing written yet. *)
Definition boot (h : host) (k : Bpf.kernel) : state :=
  State h k (0, 0) [] 0 false EmptyString 0 [] [] [].

Definition opts0 : list (ascii * option string) :=
  [("i"%char, Some "eth0"); ("r"%char, Some "100");
   ("p"%char, Some "80, 443 ,8080"); ("m"%char, Some "/sys/fs/bpf/prev")].

(** A loader that leaves [map_fd[0]] at 0. *)
Definition host_no_config_map : host := Host 0 0 [3] [0; 5; 6; 7; 8; 9] true 0 ∅ 1%nat.

(** A process whose previous program's map and pinned file are in place,
    whose map descriptors are not open any more, and whose [fclose]
    fails. *)
Definition state_closed : state :=
  State (Host 0 0 [3] [4; 5; 6; 7; 8; 9] true (-1) ∅ 1%nat)
        (Bpf.Kernel (list_to_map [(10%nat, Bpf.Map 1 [(0, 3)])])
                    (list_to_map [(0, 100%nat); (1, 101%nat); (2, 102%nat)])
                    (list_to_map [("/sys/fs/bpf/prev", 10%nat);
                                  ("/sys/fs/bpf/xdp_rl_ingress_next_prog", 5%nat)])
                    ∅ ∅)
        (100, 0) [] 0 true "/sys/fs/bpf/prev" 2 [3] [4; 5; 6; 7; 8; 9] [].

(** The same process in a chain of programs: the previous program's map is
    a program array, whose slot 0 holds the program with id 164. *)
Definition state_chained : state :=
  State (Host 0 0 [3] [4; 5; 6; 7; 8; 9] true (-1) ∅ 1%nat)
        (Bpf.Kernel ∅
                    (list_to_map [(0, 100%nat); (1, 101%nat); (2, 102%nat)])
                    (list_to_map [("/sys/fs/bpf/prev", 10%nat);
                                  ("/sys/fs/bpf/xdp_rl_ingress_next_prog", 5%nat)])
                    (list_to_map [(5%nat, Bpf.Map 1 []); (10%nat, Bpf.Map 4 [(2, 77); (0, 164)])])
                    (list_to_map [(20%nat, 164)]))
        (100, 0) [] 0 true "/sys/fs/bpf/prev" 2 [3] [4; 5; 6; 7; 8; 9] [].

(** ** Strings *)

(** [s] holds white space only. *)
Fixpoint only_space (s : string) : bool :=
  match s with
  | EmptyString => true
  | String c r => isspace c && only_space r
  end.

(** The first character of [s] is white space. *)
Definition head_space (s : string) : bool :=
  match s with
  | String c _ => isspace c
  | EmptyString => false
  end.

(** The last character of [s] is white space. *)
Fixpoint last_space (s : string) : bool :=
  match s with
  | EmptyString => false
  | String c EmptyString => isspace c
  | String _ r => last_space r
  end.

(** The character of the decimal digit [d]. *)
Definition digit_char (d : Z) : ascii := ascii_of_nat (48 + Z.to_nat d).

Fixpoint to_digits (fuel : nat) (n : Z) (acc : string) : string :=
  match fuel with
  | O => acc
  | S fuel' =>
      let acc' := String (digit_char (n mod 10)) acc in
      if n <? 10 then acc' else to_digits fuel' (n / 10) acc'
  end.

(** The decimal notation of [n >= 0], without leading zeros. *)
Definition decimal (n : Z) : string := to_digits (S (Z.to_nat n)) n EmptyString.

(** The number of delimiters in [s]. *)
Fixpoint count_delims (delim : string) (s : string) : nat :=
  match s with
  | EmptyString => O
  | String c r => (if is_delim delim c then 1 else 0) + count_delims delim r
  end.

(** The tokens [l], with [d] between each two of them. *)
Fixpoint join (d : ascii) (l : list string) : string :=
  match l with
  | [] => EmptyString
  | [t] => t
  | t :: r => t +:+ String d (join d r)
  end.

(** The decimal notation of an integer, with a minus sign when it is
    negative. *)
Definition signed_decimal (n : Z) : string :=
  if n <? 0 then String "-" (decimal (- n)) else decimal n.

(** [s] holds a delimiter. *)
Fixpoint has_delim (delim : string) (s : string) : bool :=
  match s with
  | EmptyString => false
  | String c r => is_delim delim c || has_delim delim r
  end.

(** ** More example configurations *)

(** A process whose port map, of two entries at most, holds [p]. *)
Definition state_ports (p : list (Z * Z)) : state :=
  State host0
        (Bpf.Kernel (list_to_map [(4%nat, Bpf.Map 2 p)])
                    (list_to_map [(0, 100%nat); (8, 4%nat)])
                    ∅ ∅ ∅)
        (100, 0) [] 0 true "/sys/fs/bpf/prev" 2 [3] [4; 5; 6; 7; 8; 9] [].

(** * Proofs *)

(** ** The monad *)

Lemma bind_ret {A B} (c : M A) (f : A -> M B) s a s1 :
  c s = Ret a s1 -> (c ≫= f) s = f a s1.
Proof. intros H. unfold mbind, M_bind. by rewrite H. Qed.

Lemma bind_exit {A B} (c : M A) (f : A -> M B) s r s1 :
  c s = Exit r s1 -> (c ≫= f) s = Exit r s1.
Proof. intros H. unfold mbind, M_bind. by rewrite H. Qed.

Lemma emit_ret e s : emit e s = Ret () (set_out (out s ++ [e]) s).
Proof. reflexivity. Qed.

Lemma window_at_set_out s fd id cap l o :
  window_at s fd id cap l -> window_at (set_out o s) fd id cap l.
Proof. by destruct s. Qed.

Lemma window_at_put s fd id cap l l' :
  window_at s fd id cap l -> window_at (put_obj id (Bpf.Map cap l') s) fd id cap l'.
Proof.
  destruct s as [h k]; intros (Hfd & Hobj & Hdp); repeat split; simpl in *; try done.
  by rewrite lookup_insert_eq.
Qed.

(** ** Specifications of the primitives on the window map *)

Lemma get_next_key_spec s fd id cap l c :
  window_at s fd id cap l ->
  bpf_map_get_next_key fd c s
  = Ret (Bpf.next_key l c) (set_out (out s ++ [NextKey fd c (Bpf.next_key l c)]) s).
Proof.
  intros (Hfd & Hobj & _). unfold bpf_map_get_next_key, Bpf.resolve.
  by rewrite Hfd; simpl; rewrite Hobj.
Qed.

Lemma delete_elem_spec s fd id cap l k :
  window_at s fd id cap l ->
  bpf_map_delete_elem fd k s
  = match Bpf.delete k l with
    | Some l' => Ret 0 (put_obj id (Bpf.Map cap l') s)
    | None => Ret (-1) s
    end.
Proof.
  intros (Hfd & Hobj & _). unfold bpf_map_delete_elem.
  by rewrite Hfd, Hobj.
Qed.

Lemma tick_spec s fd id cap l :
  window_at s fd id cap l ->
  exists s', dataplane_tick s = Ret () s' /\
             window_at s' fd id cap (tick l (dataplane s)).1 /\
             dataplane s' = (tick l (dataplane s)).2 /\
             out s' = out s.
Proof.
  intros Hw. unfold dataplane_tick, tick.
  destruct (dataplane s) as [|b rest] eqn:Hd.
  - exists s. by rewrite Hd.
  - destruct Hw as (Hfd & Hobj & Hdp). rewrite Hdp, Hobj.
    eexists; split; [reflexivity|].
    destruct s as [h k]; simpl in *. repeat split; simpl; try done.
    by rewrite lookup_insert_eq.
Qed.

Lemma dataplane_set_out o s : dataplane (set_out o s) = dataplane s.
Proof. by destruct s. Qed.
Lemma out_set_out o s : out (set_out o s) = o.
Proof. by destruct s. Qed.
Lemma dataplane_put id m s : dataplane (put_obj id m s) = dataplane s.
Proof. by destruct s. Qed.
Lemma out_put id m s : out (put_obj id m s) = out s.
Proof. by destruct s. Qed.

Lemma sweep_psweep K fd id cap curr fuel : forall c s l l' d' ev,
  window_at s fd id cap l ->
  psweep fuel fd (CInt.u64 (curr - buffer_time K)) c l (dataplane s) = Some (l', d', ev) ->
  exists s', sweep K fuel fd curr c s = Ret () s' /\
             window_at s' fd id cap l' /\ dataplane s' = d' /\ out s' = out s ++ ev.
Proof.
  induction fuel as [|fuel IH]; intros c s l l' d' ev Hw Hp; [done|].
  cbn [psweep sweep] in *.
  erewrite bind_ret by (by eapply get_next_key_spec).
  set (r := Bpf.next_key l c) in *.
  set (s1 := set_out _ s).
  assert (Hw1 : window_at s1 fd id cap l) by by apply window_at_set_out.
  destruct (tick_spec _ _ _ _ _ Hw1) as (s2 & Ht & Hw2 & Hd2 & Ho2).
  erewrite bind_ret by exact Ht.
  unfold s1 in Hd2, Ho2, Hw2. rewrite dataplane_set_out in Hd2, Hw2. rewrite out_set_out in Ho2.
  destruct (tick l (dataplane s)) as [l1 d1] eqn:Htick. simpl in Hw2, Hd2.
  destruct r as [k|].
  2:{ inversion Hp; subst. by exists s2. }
  destruct (k <? CInt.u64 (curr - buffer_time K)) eqn:Hk.
  - cbn [when].
    set (s3 := set_out (out s2 ++ [Log LOG_DEBUG "Deleting stale map entry %llu" [AInt k]]) s2).
    assert (Hw3 : window_at s3 fd id cap l1) by by apply window_at_set_out.
    unfold pdelete in Hp.
    destruct (Bpf.delete k l1) as [ld|] eqn:Hdel.
    + set (s4 := put_obj id (Bpf.Map cap ld) s3).
      assert (Hw4 : window_at s4 fd id cap ld) by by eapply window_at_put.
      destruct (tick_spec _ _ _ _ _ Hw4) as (s5 & Ht5 & Hw5 & Hd5 & Ho5).
      unfold s4 in Hd5, Ho5, Hw5. rewrite dataplane_put in Hd5, Hw5. rewrite out_put in Ho5.
      unfold s3 in Hd5, Ho5, Hw5. rewrite dataplane_set_out in Hd5, Hw5. rewrite out_set_out in Ho5.
      rewrite Hd2 in Hd5, Hw5.
      destruct (tick ld d1) as [l3 d3] eqn:Htick3. simpl in Hw5, Hd5.
      destruct (psweep fuel fd _ k l3 d3) as [[[l'' d''] ev'']|] eqn:Hrec; [|done].
      simpl in Hp. inversion Hp; subst l'' d'' ev; clear Hp.
      rewrite <- Hd5 in Hrec.
      destruct (IH _ _ _ _ _ _ Hw5 Hrec) as (s' & Hrun & Hw' & Hd' & Ho').
      exists s'. split; [|split; [done|split; [done|]]].
      * erewrite bind_ret; [exact Hrun|].
        erewrite bind_ret by apply emit_ret. fold s3.
        erewrite bind_ret by (erewrite delete_elem_spec by exact Hw3; rewrite Hdel; reflexivity).
        fold s4. erewrite bind_ret by exact Ht5. reflexivity.
      * rewrite Ho', Ho5, Ho2. by rewrite <- !app_assoc.
    + destruct (tick_spec _ _ _ _ _ Hw3) as (s5 & Ht5 & Hw5 & Hd5 & Ho5).
      unfold s3 in Hd5, Ho5, Hw5. rewrite dataplane_set_out in Hd5, Hw5. rewrite out_set_out in Ho5.
      rewrite Hd2 in Hd5, Hw5.
      destruct (tick l1 d1) as [l3 d3] eqn:Htick3. simpl in Hw5, Hd5.
      destruct (psweep fuel fd _ k l3 d3) as [[[l'' d''] ev'']|] eqn:Hrec; [|done].
      simpl in Hp. inversion Hp; subst l'' d'' ev; clear Hp.
      set (s6 := set_out (out s5 ++ [Log LOG_INFO "Map element not found" []]) s5).
      assert (Hw6 : window_at s6 fd id cap l3) by by apply window_at_set_out.
      assert (Hd6 : dataplane s6 = d3) by (unfold s6; by rewrite dataplane_set_out).
      rewrite <- Hd6 in Hrec.
      destruct (IH _ _ _ _ _ _ Hw6 Hrec) as (s' & Hrun & Hw' & Hd' & Ho').
      exists s'. split; [|split; [done|split; [done|]]].
      * erewrite bind_ret; [exact Hrun|].
        erewrite bind_ret by apply emit_ret. fold s3.
        erewrite bind_ret by (erewrite delete_elem_spec by exact Hw3; rewrite Hdel; reflexivity).
        erewrite bind_ret by exact Ht5. reflexivity.
      * rewrite Ho'. unfold s6. rewrite out_set_out, Ho5, Ho2. by rewrite <- !app_assoc.
  - cbn [when].
    destruct (psweep fuel fd _ k l1 d1) as [[[l'' d''] ev'']|] eqn:Hrec; [|done].
    simpl in Hp. inversion Hp; subst l'' d'' ev; clear Hp.
    rewrite <- Hd2 in Hrec.
    destruct (IH _ _ _ _ _ _ Hw2 Hrec) as (s' & Hrun & Hw' & Hd' & Ho').
    exists s'. split; [|split; [done|split; [done|]]].
    * erewrite bind_ret; [exact Hrun|]. reflexivity.
    * rewrite Ho', Ho2. by rewrite <- !app_assoc.
Qed.

(** ** Keys of the window map under deletion and insertion *)

Lemma lookup_None_keys k l : Bpf.lookup k l = None <-> k ∉ Bpf.keys l.
Proof.
  unfold Bpf.keys. induction l as [|[k' v] l IH]; simpl.
  - split; [intros _; apply not_elem_of_nil|done].
  - rewrite not_elem_of_cons. destruct (Z.eqb_spec k' k); [|intuition congruence].
    split; [done|]. intros [? _]. congruence.
Qed.

Lemma elem_of_remove k e l : e ∈ Bpf.remove k l <-> e.1 <> k /\ e ∈ l.
Proof. unfold Bpf.remove. by rewrite list_elem_of_filter. Qed.

Lemma keys_remove k x l : x ∈ Bpf.keys (Bpf.remove k l) <-> x <> k /\ x ∈ Bpf.keys l.
Proof.
  unfold Bpf.keys. rewrite !list_elem_of_fmap. split.
  - intros (e & -> & He). apply elem_of_remove in He as [? ?]. eauto.
  - intros (Hx & e & -> & He). exists e. split; [done|]. by apply elem_of_remove.
Qed.

Lemma NoDup_keys_remove k l : NoDup (Bpf.keys l) -> NoDup (Bpf.keys (Bpf.remove k l)).
Proof.
  unfold Bpf.keys, Bpf.remove. induction l as [|[k' v] l IH]; [done|].
  rewrite fmap_cons, NoDup_cons, filter_cons. intros [Hk' Hl].
  case_decide; [|by apply IH]. rewrite fmap_cons. apply NoDup_cons. split; [|by apply IH].
  intros Hin. apply Hk'. by apply (keys_remove k k' l) in Hin as [_ ?].
Qed.

Lemma length_remove k l : k ∈ Bpf.keys l -> (length (Bpf.remove k l) < length l)%nat.
Proof.
  unfold Bpf.keys, Bpf.remove. induction l as [|[k' v] l IH].
  - by intros ?%elem_of_nil.
  - rewrite fmap_cons, filter_cons. intros Hin. case_decide as Hne.
    + cbn [length]. apply elem_of_cons in Hin as [->|Hin]; [done|]. specialize (IH Hin). lia.
    + pose proof (length_filter (fun e : Z * Z => e.1 <> k) l). cbn [length]. lia.
Qed.

Lemma keys_insert_at i l x :
  x ∈ Bpf.keys (Bpf.insert_at i l) <-> x ∈ Bpf.keys l \/ x = Bpf.ins_key i.
Proof.
  unfold Bpf.insert_at. destruct (Bpf.lookup (Bpf.ins_key i) l) eqn:Hl.
  - split; [tauto|]. intros [?| ->]; [done|].
    destruct (decide (Bpf.ins_key i ∈ Bpf.keys l)) as [|Hn]; [done|].
    apply lookup_None_keys in Hn. congruence.
  - unfold Bpf.keys. rewrite fmap_app, fmap_cons, elem_of_app, elem_of_cons. simpl.
    rewrite <- (take_drop (Bpf.ins_pos i) l) at 3. rewrite fmap_app, elem_of_app. tauto.
Qed.

Lemma elem_of_insert_at i l e : e ∈ l -> e ∈ Bpf.insert_at i l.
Proof.
  unfold Bpf.insert_at. destruct (Bpf.lookup _ l); [done|].
  rewrite <- (take_drop (Bpf.ins_pos i) l) at 1. rewrite !elem_of_app, elem_of_cons. tauto.
Qed.

Lemma NoDup_keys_insert_at i l : NoDup (Bpf.keys l) -> NoDup (Bpf.keys (Bpf.insert_at i l)).
Proof.
  unfold Bpf.insert_at. destruct (Bpf.lookup _ l) eqn:Hl; [done|].
  apply lookup_None_keys in Hl. unfold Bpf.keys in *.
  rewrite <- (take_drop (Bpf.ins_pos i) l) in Hl at 1.
  rewrite <- (take_drop (Bpf.ins_pos i) l) at 1.
  rewrite !fmap_app, fmap_cons in *. simpl.
  rewrite !NoDup_app, NoDup_cons. intros (H1 & H2 & H3).
  rewrite not_elem_of_app in Hl. destruct Hl as [Hl1 Hl2].
  split; [done|]. split; [|done].
  intros x Hx. rewrite not_elem_of_cons. split; [|by apply H2]. by intros ->.
Qed.

Lemma NoDup_keys_insert_all b : forall l,
  NoDup (Bpf.keys l) -> NoDup (Bpf.keys (Bpf.insert_all b l)).
Proof.
  unfold Bpf.insert_all. induction b as [|i b IH]; intros l Hl; [done|].
  simpl. by apply IH, NoDup_keys_insert_at.
Qed.

Lemma elem_of_insert_all b : forall l e, e ∈ l -> e ∈ Bpf.insert_all b l.
Proof.
  unfold Bpf.insert_all. induction b as [|i b IH]; intros l e He; [done|].
  simpl. by apply IH, elem_of_insert_at.
Qed.

Lemma keys_insert_all (P : Z -> Prop) b : forall l x,
  Forall (fun i => P (Bpf.ins_key i)) b ->
  x ∈ Bpf.keys (Bpf.insert_all b l) -> x ∈ Bpf.keys l \/ P x.
Proof.
  unfold Bpf.insert_all. induction b as [|i b IH]; intros l x Hb Hx; [by left|].
  apply Forall_cons in Hb as [Hi Hb]. simpl in Hx.
  destruct (IH _ _ Hb Hx) as [Hin|?]; [|by right].
  apply keys_insert_at in Hin as [?| ->]; [by left|by right].
Qed.

(** ** The cursor *)

Lemma after_None c ks : Bpf.after c ks = None <-> c ∉ ks.
Proof.
  induction ks as [|a ks IH]; simpl.
  - split; [intros _; apply not_elem_of_nil|done].
  - rewrite not_elem_of_cons. destruct (Z.eqb_spec a c); [|intuition congruence].
    split; [done|]. intros [? _]. congruence.
Qed.

Lemma after_elem_of c ks r x : Bpf.after c ks = Some r -> x ∈ r -> x ∈ ks.
Proof.
  revert r. induction ks as [|a ks IH]; simpl; intros r Hr Hx; [done|].
  destruct (a =? c); [|by eapply list_elem_of_further, IH].
  inversion Hr; subst. by apply list_elem_of_further.
Qed.

Lemma after_next c k ks r :
  NoDup ks -> Bpf.after c ks = Some (k :: r) -> Bpf.after k ks = Some r.
Proof.
  induction ks as [|a ks IH]; simpl; [done|].
  rewrite NoDup_cons. intros [Ha Hks] Hc.
  destruct (Z.eqb_spec a c) as [->|Hac].
  - inversion Hc; subst ks. apply not_elem_of_cons in Ha as [Hck _].
    destruct (Z.eqb_spec c k); [done|]. simpl. by rewrite Z.eqb_refl.
  - assert (k ∈ ks) by (eapply after_elem_of; [done|apply list_elem_of_here]).
    destruct (Z.eqb_spec a k) as [->|_]; [done|]. by apply IH.
Qed.

Lemma after_insert c y p : forall ks,
  y <> c ->
  match Bpf.after c ks with
  | Some r => exists r', Bpf.after c (take p ks ++ y :: drop p ks) = Some r' /\
                         forall x, x ∈ r -> x ∈ r'
  | None => Bpf.after c (take p ks ++ y :: drop p ks) = None
  end.
Proof.
  intros ks Hy. revert p. induction ks as [|a ks IH]; intros p.
  - rewrite take_nil, drop_nil. simpl. by destruct (Z.eqb_spec y c).
  - destruct p as [|p].
    + rewrite take_0, drop_0. generalize (a :: ks) as t. intros t.
      cbn [app Bpf.after]. destruct (Z.eqb_spec y c); [done|].
      destruct (Bpf.after c t); eauto.
    + cbn [take drop app Bpf.after]. destruct (Z.eqb_spec a c).
      * eexists; split; [done|]. intros x Hx.
        rewrite <- (take_drop p ks) in Hx. rewrite elem_of_app in *.
        rewrite elem_of_cons. tauto.
      * apply IH.
Qed.

Lemma next_key_None l c x : Bpf.next_key l c = None -> ~ ahead c (Bpf.keys l) x.
Proof.
  unfold Bpf.next_key. intros Hn [Hin Haft].
  destruct (Bpf.after c (Bpf.keys l)) as [r|] eqn:Hr.
  - specialize (Haft _ eq_refl). destruct r; [by apply elem_of_nil in Haft|done].
  - destruct (Bpf.keys l); [by apply elem_of_nil in Hin|done].
Qed.

Lemma next_key_elem_of l c k : Bpf.next_key l c = Some k -> k ∈ Bpf.keys l.
Proof.
  unfold Bpf.next_key. destruct (Bpf.after c (Bpf.keys l)) as [r|] eqn:Hr.
  - destruct r as [|k' r]; [done|]. intros [= ->].
    eapply after_elem_of; [done|apply list_elem_of_here].
  - destruct (Bpf.keys l); [done|]. intros [= ->]. apply list_elem_of_here.
Qed.

Lemma ahead_next l c k x :
  NoDup (Bpf.keys l) -> Bpf.next_key l c = Some k ->
  ahead c (Bpf.keys l) x -> x <> k -> ahead k (Bpf.keys l) x.
Proof.
  unfold Bpf.next_key. intros Hnd Hn [Hin Haft] Hxk. split; [done|].
  destruct (Bpf.after c (Bpf.keys l)) as [r|] eqn:Hr.
  - destruct r as [|k' r]; [done|]. injection Hn as ->.
    rewrite (after_next _ _ _ _ Hnd Hr). intros ? [= <-].
    specialize (Haft _ eq_refl). by apply elem_of_cons in Haft as [?|?].
  - destruct (Bpf.keys l) as [|k' ks]; [done|]. injection Hn as ->.
    simpl. rewrite Z.eqb_refl. intros ? [= <-].
    by apply elem_of_cons in Hin as [?|?].
Qed.

Lemma ahead_insert_at c i l x :
  Bpf.ins_key i <> c -> ahead c (Bpf.keys l) x -> ahead c (Bpf.keys (Bpf.insert_at i l)) x.
Proof.
  intros Hic [Hin Haft]. split; [apply keys_insert_at; by left|].
  unfold Bpf.insert_at. destruct (Bpf.lookup _ l); [done|].
  unfold Bpf.keys in *. rewrite fmap_app, fmap_cons, fmap_take, fmap_drop. simpl.
  pose proof (after_insert c (Bpf.ins_key i) (Bpf.ins_pos i) (l.*1) Hic) as Hai.
  destruct (Bpf.after c (l.*1)) as [r|].
  - destruct Hai as (r' & -> & Hsub). intros ? [= <-]. by apply Hsub, Haft.
  - by rewrite Hai.
Qed.

Lemma ahead_insert_all c b : forall l x,
  Forall (fun i => Bpf.ins_key i <> c) b ->
  ahead c (Bpf.keys l) x -> ahead c (Bpf.keys (Bpf.insert_all b l)) x.
Proof.
  unfold Bpf.insert_all. induction b as [|i b IH]; intros l x Hb Hx; [done|].
  apply Forall_cons in Hb as [Hi Hb]. simpl. by apply IH, ahead_insert_at.
Qed.

Lemma ahead_remove k l x :
  x ∈ Bpf.keys l -> x <> k -> ahead k (Bpf.keys (Bpf.remove k l)) x.
Proof.
  intros Hin Hxk. split; [by apply keys_remove|].
  assert (Bpf.after k (Bpf.keys (Bpf.remove k l)) = None) as ->; [|done].
  apply after_None. rewrite keys_remove. tauto.
Qed.

Lemma ahead_insert_all_cursor c b l x :
  c ∈ Bpf.keys l \/ Forall (fun i => Bpf.ins_key i <> c) b ->
  ahead c (Bpf.keys l) x -> ahead c (Bpf.keys (Bpf.insert_all b l)) x.
Proof.
  intros [Hc|Hb]; [|by apply ahead_insert_all].
  revert l Hc. unfold Bpf.insert_all. induction b as [|i b IH]; intros l Hc Hx; [done|].
  simpl. apply IH; [apply keys_insert_at; by left|].
  destruct (decide (Bpf.ins_key i = c)) as [Heq|Hne]; [|by apply ahead_insert_at].
  unfold Bpf.insert_at. destruct (Bpf.lookup _ l) eqn:Hl; [done|].
  apply lookup_None_keys in Hl. by rewrite Heq in Hl.
Qed.

(** ** One scheduling point of the XDP program *)

Section Tick.

Variable thr : Z.
Variables (l : list (Z * Z)) (d : list (list Bpf.insertion)).

Lemma tick_NoDup : NoDup (Bpf.keys l) -> NoDup (Bpf.keys (tick l d).1).
Proof. destruct d; simpl; [done|]. apply NoDup_keys_insert_all. Qed.

Lemma tick_elem_of e : e ∈ l -> e ∈ (tick l d).1.
Proof. destruct d; simpl; [done|]. apply elem_of_insert_all. Qed.

Lemma tick_keys_mono x : x ∈ Bpf.keys l -> x ∈ Bpf.keys (tick l d).1.
Proof.
  unfold Bpf.keys. rewrite !list_elem_of_fmap.
  intros (e & -> & He). exists e. split; [done|by apply tick_elem_of].
Qed.

Lemma tick_fresh : inserts_fresh thr d -> inserts_fresh thr (tick l d).2.
Proof. unfold inserts_fresh. destruct d; simpl; [done|]. by intros [_ ?]%Forall_cons. Qed.

Lemma tick_keys x :
  inserts_fresh thr d -> x ∈ Bpf.keys (tick l d).1 -> x ∈ Bpf.keys l \/ thr <= x.
Proof.
  unfold inserts_fresh. destruct d as [|b rest]; simpl; [by left|].
  intros [Hb _]%Forall_cons. by apply (keys_insert_all (fun k => thr <= k)).
Qed.

Lemma tick_ahead c x :
  inserts_fresh thr d -> c ∈ Bpf.keys l \/ c < thr ->
  ahead c (Bpf.keys l) x -> ahead c (Bpf.keys (tick l d).1) x.
Proof.
  unfold inserts_fresh. destruct d as [|b rest]; simpl; [done|].
  intros [Hb _]%Forall_cons Hc. apply ahead_insert_all_cursor.
  destruct Hc as [?|Hc]; [by left|right].
  eapply Forall_impl; [exact Hb|]. simpl. lia.
Qed.

Lemma tick_length : (length (tick l d).2 <= pred (length d))%nat.
Proof. destruct d; simpl; lia. Qed.

End Tick.

(** ** What a sweep keeps, what it visits, what it removes *)

Section Sweep.

Variables fd thr : Z.

Lemma delete_present k (l : list (Z * Z)) :
  k ∈ Bpf.keys l -> Bpf.delete k l = Some (Bpf.remove k l).
Proof.
  intros Hk. unfold Bpf.delete. destruct (Bpf.lookup k l) eqn:Hl; [done|].
  by apply lookup_None_keys in Hl.
Qed.

Lemma psweep_keeps fuel : forall c l d l' d' ev,
  psweep fuel fd thr c l d = Some (l', d', ev) ->
  forall e, e ∈ l -> thr <= e.1 -> e ∈ l'.
Proof.
  induction fuel as [|fuel IH]; intros c l d l' d' ev Hp e He Hfresh; [done|].
  cbn [psweep] in Hp.
  pose proof (tick_elem_of l d e He) as He1.
  destruct (tick l d) as [l1 d1]. simpl in He1.
  destruct (Bpf.next_key l c) as [k|]; [|by inversion Hp; subst].
  destruct (Z.ltb_spec k thr) as [Hk|Hk].
  - assert (He2 : e ∈ (pdelete k l1).1).
    { unfold pdelete, Bpf.delete. destruct (Bpf.lookup k l1); simpl; [|done].
      apply elem_of_remove. split; [lia|done]. }
    destruct (pdelete k l1) as [l2 miss]. simpl in He2.
    pose proof (tick_elem_of l2 d1 e He2) as He3.
    destruct (tick l2 d1) as [l3 d3]. simpl in He3.
    destruct (psweep fuel fd thr k l3 d3) as [[[l'' d''] ev'']|] eqn:Hrec; [|done].
    simpl in Hp. inversion Hp; subst. by eapply IH.
  - destruct (psweep fuel fd thr k l1 d1) as [[[l'' d''] ev'']|] eqn:Hrec; [|done].
    simpl in Hp. inversion Hp; subst. by eapply IH.
Qed.

Lemma pdelete_present k (l : list (Z * Z)) :
  k ∈ Bpf.keys l -> pdelete k l = (Bpf.remove k l, []).
Proof. intros Hk. unfold pdelete. by rewrite delete_present. Qed.

(** Every key that is ahead of the cursor when the loop is entered is
    returned by a later [BPF_MAP_GET_NEXT_KEY]. *)
Lemma psweep_visits fuel : forall c l d l' d' ev,
  NoDup (Bpf.keys l) -> inserts_fresh thr d ->
  psweep fuel fd thr c l d = Some (l', d', ev) ->
  forall x, ahead c (Bpf.keys l) x -> visited fd ev x.
Proof.
  induction fuel as [|fuel IH]; intros c l d l' d' ev Hnd Hd Hp x Hx; [done|].
  cbn [psweep] in Hp.
  pose proof (tick_NoDup l d Hnd) as Hnd1.
  pose proof (tick_fresh thr l d Hd) as Hd1.
  pose proof (fun k => tick_keys_mono l d k) as Hmono.
  pose proof (fun k => tick_ahead thr l d k x Hd) as Hah.
  destruct (tick l d) as [l1 d1]. simpl in Hnd1, Hd1, Hmono, Hah.
  destruct (Bpf.next_key l c) as [k|] eqn:Hk; [|by apply next_key_None with (x:=x) in Hk].
  pose proof (next_key_elem_of _ _ _ Hk) as Hkin.
  destruct (decide (x = k)) as [->|Hxk].
  { exists c. destruct (k <? thr).
    - destruct (pdelete k l1) as [l2 miss]. destruct (tick l2 d1) as [l3 d3].
      destruct (psweep fuel fd thr k l3 d3) as [[[l'' d''] ev'']|]; [|done].
      simpl in Hp. inversion Hp. apply list_elem_of_here.
    - destruct (psweep fuel fd thr k l1 d1) as [[[l'' d''] ev'']|]; [|done].
      simpl in Hp. inversion Hp. apply list_elem_of_here. }
  assert (Hx1 : ahead k (Bpf.keys l1) x).
  { apply Hah; [by left|]. by eapply ahead_next. }
  destruct (Z.ltb_spec k thr) as [Hst|Hst].
  - rewrite (pdelete_present k l1 (Hmono _ Hkin)) in Hp.
    assert (Hx2 : ahead k (Bpf.keys (Bpf.remove k l1)) x).
    { apply ahead_remove; [by destruct Hx1|done]. }
    pose proof (tick_NoDup _ d1 (NoDup_keys_remove k l1 Hnd1)) as Hnd3.
    pose proof (tick_fresh thr (Bpf.remove k l1) d1 Hd1) as Hd3.
    pose proof (tick_ahead thr (Bpf.remove k l1) d1 k x Hd1 (or_intror Hst) Hx2) as Hx3.
    destruct (tick (Bpf.remove k l1) d1) as [l3 d3]. simpl in Hnd3, Hd3, Hx3.
    destruct (psweep fuel fd thr k l3 d3) as [[[l'' d''] ev'']|] eqn:Hrec; [|done].
    simpl in Hp. inversion Hp; subst.
    destruct (IH _ _ _ _ _ _ Hnd3 Hd3 Hrec x Hx3) as [c' Hc'].
    exists c'. by do 2 apply list_elem_of_further.
  - destruct (psweep fuel fd thr k l1 d1) as [[[l'' d''] ev'']|] eqn:Hrec; [|done].
    simpl in Hp. inversion Hp; subst.
    destruct (IH _ _ _ _ _ _ Hnd1 Hd1 Hrec x Hx1) as [c' Hc'].
    exists c'. by apply list_elem_of_further.
Qed.

(** A stale key that is left after the sweep was not ahead of the cursor
    when the loop was entered. *)
Lemma psweep_clean fuel : forall c l d l' d' ev,
  NoDup (Bpf.keys l) -> inserts_fresh thr d ->
  psweep fuel fd thr c l d = Some (l', d', ev) ->
  forall x, x ∈ Bpf.keys l' -> x < thr -> x ∈ Bpf.keys l /\ ~ ahead c (Bpf.keys l) x.
Proof.
  induction fuel as [|fuel IH]; intros c l d l' d' ev Hnd Hd Hp x Hx Hst; [done|].
  cbn [psweep] in Hp.
  pose proof (tick_NoDup l d Hnd) as Hnd1.
  pose proof (tick_fresh thr l d Hd) as Hd1.
  pose proof (fun k => tick_keys_mono l d k) as Hmono.
  pose proof (fun k => tick_keys thr l d k Hd) as Hkeys.
  pose proof (fun k => tick_ahead thr l d k x Hd) as Hah.
  destruct (tick l d) as [l1 d1]. simpl in Hnd1, Hd1, Hmono, Hkeys, Hah.
  destruct (Bpf.next_key l c) as [k|] eqn:Hk.
  2:{ inversion Hp; subst. split; [|by eapply next_key_None].
      destruct (Hkeys _ Hx); [done|lia]. }
  pose proof (next_key_elem_of _ _ _ Hk) as Hkin.
  destruct (Z.ltb_spec k thr) as [Hkst|Hkst].
  - exfalso.
    rewrite (pdelete_present k l1 (Hmono _ Hkin)) in Hp.
    pose proof (tick_NoDup _ d1 (NoDup_keys_remove k l1 Hnd1)) as Hnd3.
    pose proof (tick_fresh thr (Bpf.remove k l1) d1 Hd1) as Hd3.
    pose proof (tick_keys thr (Bpf.remove k l1) d1 k Hd1) as Hk3.
    destruct (tick (Bpf.remove k l1) d1) as [l3 d3]. simpl in Hnd3, Hd3, Hk3.
    destruct (psweep fuel fd thr k l3 d3) as [[[l'' d''] ev'']|] eqn:Hrec; [|done].
    simpl in Hp. inversion Hp; subst.
    destruct (IH _ _ _ _ _ _ Hnd3 Hd3 Hrec x Hx Hst) as [Hx3 Hna].
    apply Hna. split; [done|].
    assert (Bpf.after k (Bpf.keys l3) = None) as ->; [|done].
    apply after_None. intros Hin. destruct (Hk3 Hin) as [Hr|?]; [|lia].
    apply keys_remove in Hr. tauto.
  - destruct (psweep fuel fd thr k l1 d1) as [[[l'' d''] ev'']|] eqn:Hrec; [|done].
    simpl in Hp. inversion Hp; subst.
    destruct (IH _ _ _ _ _ _ Hnd1 Hd1 Hrec x Hx Hst) as [Hx1 Hna].
    assert (x ∈ Bpf.keys l) by (destruct (Hkeys _ Hx1); [done|lia]).
    split; [done|]. intros Hxa. apply Hna, Hah; [by left|].
    eapply ahead_next; [done..|lia].
Qed.

(** *** Insertions of new keys *)

Lemma inserted_cons b d : inserted (b :: d) = (Bpf.ins_key <$> b) ++ inserted d.
Proof. unfold inserted. simpl. by rewrite fmap_app. Qed.

Lemma distinct_start l d : NoDup (Bpf.keys l) -> inserts_new l d -> distinct l d.
Proof.
  intros Hnd [Hd Hnew]. split; [done|]. split; [done|].
  intros x Hx Hin. rewrite Forall_forall in Hnew. by apply (Hnew x).
Qed.

Lemma distinct_tick l d : distinct l d -> distinct (tick l d).1 (tick l d).2.
Proof.
  destruct d as [|b rest]; [done|]. cbn [tick fst snd].
  intros (Hl & Hd & Hdis). rewrite inserted_cons in Hd, Hdis.
  apply NoDup_app in Hd as (Hb & Hbr & Hrest).
  split; [by apply NoDup_keys_insert_all|]. split; [done|].
  intros x Hx.
  apply (keys_insert_all (fun k => k ∈ Bpf.ins_key <$> b)) in Hx as [Hx|Hx].
  - specialize (Hdis x Hx). rewrite not_elem_of_app in Hdis. tauto.
  - by apply Hbr.
  - apply Forall_forall. intros i Hi. by apply list_elem_of_fmap_2.
Qed.

Lemma distinct_remove k l d : distinct l d -> distinct (Bpf.remove k l) d.
Proof.
  intros (Hl & Hd & Hdis). split; [by apply NoDup_keys_remove|]. split; [done|].
  intros x [_ Hx]%keys_remove. by apply Hdis.
Qed.

Lemma inserted_tick l d x : x ∉ inserted d -> x ∉ inserted (tick l d).2.
Proof.
  destruct d as [|b rest]; [done|]. cbn [tick snd]. rewrite inserted_cons, not_elem_of_app. tauto.
Qed.

Lemma tick_keys_inserted l d x :
  x ∈ Bpf.keys (tick l d).1 -> x ∈ Bpf.keys l \/ x ∈ inserted d.
Proof.
  destruct d as [|b rest]; [by left|]. cbn [tick fst]. intros Hx.
  apply (keys_insert_all (fun k => k ∈ Bpf.ins_key <$> b)) in Hx as [Hx|Hx]; [by left| |].
  - right. rewrite inserted_cons, elem_of_app. by left.
  - apply Forall_forall. intros i Hi. by apply list_elem_of_fmap_2.
Qed.

(** A key that is in the map after the sweep was there at its start, or
    was inserted meanwhile. *)
Lemma psweep_keys_inserted fuel : forall c l d l' d' ev,
  psweep fuel fd thr c l d = Some (l', d', ev) ->
  forall x, x ∈ Bpf.keys l' -> x ∈ Bpf.keys l \/ x ∈ inserted d.
Proof.
  induction fuel as [|fuel IH]; intros c l d l' d' ev Hp x Hx; [done|].
  cbn [psweep] in Hp.
  pose proof (tick_keys_inserted l d) as Hk1.
  pose proof (fun y => inserted_tick l d y) as Hi1.
  destruct (tick l d) as [l1 d1]. simpl in Hk1, Hi1.
  assert (Hback : x ∈ Bpf.keys l1 \/ x ∈ inserted d1 -> x ∈ Bpf.keys l \/ x ∈ inserted d).
  { intros [H1|H1]; [by apply Hk1|]. right.
    destruct (decide (x ∈ inserted d)) as [|Hn]; [done|]. by apply Hi1 in Hn. }
  destruct (Bpf.next_key l c) as [k|].
  2:{ inversion Hp; subst. apply Hback. by left. }
  destruct (k <? thr).
  - assert (Hsub : forall y, y ∈ Bpf.keys (pdelete k l1).1 -> y ∈ Bpf.keys l1).
    { intros y. unfold pdelete. destruct (Bpf.delete k l1) as [ld|] eqn:Hdel; simpl; [|done].
      unfold Bpf.delete in Hdel. destruct (Bpf.lookup k l1); [|done]. injection Hdel as <-.
      by intros [_ ?]%keys_remove. }
    destruct (pdelete k l1) as [l2 miss]. simpl in Hsub.
    pose proof (tick_keys_inserted l2 d1) as Hk3.
    pose proof (fun y => inserted_tick l2 d1 y) as Hi3.
    destruct (tick l2 d1) as [l3 d3]. simpl in Hk3, Hi3.
    destruct (psweep fuel fd thr k l3 d3) as [[[l'' d''] ev'']|] eqn:Hrec; [|done].
    simpl in Hp. inversion Hp; subst. apply Hback.
    destruct (IH _ _ _ _ _ _ Hrec x Hx) as [H3|H3].
    + destruct (Hk3 _ H3) as [?|?]; [left; by apply Hsub|by right].
    + right. destruct (decide (x ∈ inserted d1)) as [|Hn]; [done|]. by apply Hi3 in Hn.
  - destruct (psweep fuel fd thr k l1 d1) as [[[l'' d''] ev'']|] eqn:Hrec; [|done].
    simpl in Hp. inversion Hp; subst. apply Hback. by eapply IH.
Qed.

(** When the keys inserted during the sweep are new, a stale key that is
    ahead of the cursor is gone when the sweep ends, stale or not the keys
    that are inserted. *)
Lemma psweep_removes fuel : forall c l d l' d' ev,
  distinct l d ->
  psweep fuel fd thr c l d = Some (l', d', ev) ->
  forall x, ahead c (Bpf.keys l) x -> x < thr -> x ∉ Bpf.keys l'.
Proof.
  induction fuel as [|fuel IH]; intros c l d l' d' ev Hdis Hp x Hx Hst; [done|].
  cbn [psweep] in Hp.
  pose proof (distinct_tick l d Hdis) as Hdis1.
  pose proof (fun k => tick_keys_mono l d k) as Hmono.
  assert (Hah : forall k, k ∈ Bpf.keys l -> ahead k (Bpf.keys l) x ->
                          ahead k (Bpf.keys (tick l d).1) x).
  { intros k Hk Hxk. destruct d as [|b rest]; [done|]. cbn [tick fst].
    apply ahead_insert_all_cursor; [by left|done]. }
  destruct (tick l d) as [l1 d1]. simpl in Hdis1, Hmono, Hah.
  destruct (Bpf.next_key l c) as [k|] eqn:Hk; [|by apply next_key_None with (x:=x) in Hk].
  pose proof (next_key_elem_of _ _ _ Hk) as Hkin.
  destruct Hdis as (Hnd & _ & _).
  assert (Hgone : forall y l3 d3, y ∉ Bpf.keys (Bpf.remove k l1) -> y ∈ Bpf.keys l1 ->
            tick (Bpf.remove k l1) d1 = (l3, d3) -> (y ∉ Bpf.keys l3) /\ (y ∉ inserted d3)).
  { intros y l3 d3 Hy2 Hy1 Ht.
    destruct Hdis1 as (_ & _ & Hd1). specialize (Hd1 y Hy1).
    pose proof (tick_keys_inserted (Bpf.remove k l1) d1 y) as Hk3.
    pose proof (inserted_tick (Bpf.remove k l1) d1 y Hd1) as Hi3.
    rewrite Ht in Hk3, Hi3. simpl in Hk3, Hi3. split; [|done].
    intros Hin. destruct (Hk3 Hin); done. }
  destruct (decide (x = k)) as [->|Hxk].
  - destruct (Z.ltb_spec k thr) as [_|?]; [|lia].
    rewrite (pdelete_present k l1 (Hmono _ Hkin)) in Hp.
    destruct (tick (Bpf.remove k l1) d1) as [l3 d3] eqn:Ht3.
    destruct (psweep fuel fd thr k l3 d3) as [[[l'' d''] ev'']|] eqn:Hrec; [|done].
    simpl in Hp. inversion Hp; subst.
    destruct (Hgone k l3 d3) as [Hk3 Hi3]; [rewrite keys_remove; tauto|by apply Hmono|done|].
    intros Hin. destruct (psweep_keys_inserted _ _ _ _ _ _ _ Hrec k Hin); done.
  - assert (Hx1 : ahead k (Bpf.keys l1) x).
    { apply Hah; [done|]. by eapply ahead_next. }
    destruct (Z.ltb_spec k thr) as [Hkst|Hkst].
    + rewrite (pdelete_present k l1 (Hmono _ Hkin)) in Hp.
      pose proof (distinct_tick _ _ (distinct_remove k l1 d1 Hdis1)) as Hdis3.
      assert (Hx2 : ahead k (Bpf.keys (Bpf.remove k l1)) x).
      { apply ahead_remove; [by destruct Hx1|done]. }
      assert (Hx3 : ahead k (Bpf.keys (tick (Bpf.remove k l1) d1).1) x).
      { destruct d1 as [|b rest]; [done|]. cbn [tick fst].
        apply ahead_insert_all_cursor; [|done]. right.
        destruct Hdis1 as (_ & _ & Hd1). specialize (Hd1 k (Hmono _ Hkin)).
        rewrite inserted_cons, not_elem_of_app in Hd1. destruct Hd1 as [Hb _].
        apply Forall_forall. intros i Hi Heq. apply Hb. rewrite <- Heq.
        by apply list_elem_of_fmap_2. }
      destruct (tick (Bpf.remove k l1) d1) as [l3 d3]. simpl in Hdis3, Hx3.
      destruct (psweep fuel fd thr k l3 d3) as [[[l'' d''] ev'']|] eqn:Hrec; [|done].
      simpl in Hp. inversion Hp; subst. by eapply IH.
    + destruct (psweep fuel fd thr k l1 d1) as [[[l'' d''] ev'']|] eqn:Hrec; [|done].
      simpl in Hp. inversion Hp; subst. by eapply IH.
Qed.

(** *** Termination *)

Lemma stale_count_filter (Q : Z * Z -> Prop) `{!forall e, Decision (Q e)} l :
  (stale_count thr (filter Q l) <= stale_count thr l)%nat.
Proof.
  unfold stale_count. induction l as [|e l IH]; [done|].
  rewrite !filter_cons. repeat case_decide; rewrite ?filter_cons; repeat case_decide;
    cbn [length]; try lia; tauto.
Qed.

Lemma stale_count_remove k l :
  k ∈ Bpf.keys l -> k < thr -> (stale_count thr (Bpf.remove k l) < stale_count thr l)%nat.
Proof.
  unfold stale_count, Bpf.remove, Bpf.keys. induction l as [|[k' v] l IH].
  - by intros ?%elem_of_nil.
  - rewrite fmap_cons, elem_of_cons. simpl. intros Hin Hk.
    rewrite !filter_cons. simpl.
    destruct (decide (k' = k)) as [->|Hne].
    + rewrite decide_False by tauto. rewrite (decide_True _ _ Hk). cbn [length].
      pose proof (stale_count_filter (fun e : Z * Z => e.1 <> k) l) as Hle.
      unfold stale_count in Hle. lia.
    + rewrite (decide_True _ _ Hne). destruct Hin as [?|Hin]; [congruence|].
      specialize (IH Hin Hk). rewrite filter_cons. simpl. case_decide; cbn [length]; lia.
Qed.

Lemma remaining_next c k l :
  NoDup (Bpf.keys l) -> Bpf.next_key l c = Some k ->
  (remaining k l < remaining c l)%nat.
Proof.
  unfold remaining, Bpf.next_key. intros Hnd Hn.
  destruct (Bpf.after c (Bpf.keys l)) as [r|] eqn:Hr.
  - destruct r as [|k' r]; [done|]. injection Hn as ->.
    rewrite (after_next _ _ _ _ Hnd Hr). simpl. lia.
  - unfold Bpf.keys in *. destruct l as [|[k' v] l]; [done|]. injection Hn as ->.
    simpl. rewrite Z.eqb_refl. rewrite length_fmap. lia.
Qed.

Lemma remaining_le c l : (remaining c l <= length l)%nat.
Proof.
  unfold remaining. destruct (Bpf.after c (Bpf.keys l)) as [r|] eqn:Hr; [|done].
  unfold Bpf.keys in Hr. rewrite <- (length_fmap fst l).
  revert r Hr. generalize (l.*1) as ks. induction ks as [|a ks IH]; simpl; [done|].
  intros r. destruct (a =? c); [intros [= ->]; lia|]. intros Hr. specialize (IH _ Hr). lia.
Qed.

(** Without interference the loop ends within a number of rounds that is
    quadratic in the size of the map: each deletion restarts the
    traversal at the first key. *)
Lemma psweep_alone_terminates fuel : forall c l,
  NoDup (Bpf.keys l) ->
  (stale_count thr l * S (length l) + remaining c l < fuel)%nat ->
  is_Some (psweep fuel fd thr c l []).
Proof.
  induction fuel as [|fuel IH]; intros c l Hnd Hfuel; [lia|].
  cbn [psweep tick].
  destruct (Bpf.next_key l c) as [k|] eqn:Hk; [|done].
  pose proof (next_key_elem_of _ _ _ Hk) as Hkin.
  destruct (Z.ltb_spec k thr) as [Hst|Hst].
  - rewrite (pdelete_present k l Hkin). cbn [tick].
    destruct (IH k (Bpf.remove k l)) as [[[l' d'] ev'] ->]; [by apply NoDup_keys_remove| |done].
    pose proof (stale_count_remove k l Hkin Hst).
    pose proof (length_remove k l Hkin).
    pose proof (remaining_le k (Bpf.remove k l)).
    nia.
  - destruct (IH k l) as [[[l' d'] ev'] ->]; [done| |done].
    pose proof (remaining_next c k l Hnd Hk). lia.
Qed.

Lemma psweep_terminates n : forall d c l,
  (length d <= n)%nat -> NoDup (Bpf.keys l) ->
  exists N, forall fuel, (N <= fuel)%nat -> is_Some (psweep fuel fd thr c l d).
Proof.
  induction n as [|n IH]; intros d c l Hlen Hnd.
  - destruct d; [|simpl in Hlen; lia].
    exists (S (stale_count thr l * S (length l) + remaining c l)).
    intros fuel Hf. apply psweep_alone_terminates; [done|lia].
  - destruct d as [|b d1].
    { exists (S (stale_count thr l * S (length l) + remaining c l)).
      intros fuel Hf. apply psweep_alone_terminates; [done|lia]. }
    simpl in Hlen.
    pose proof (tick_NoDup l (b :: d1) Hnd) as Hnd1. cbn [tick fst] in Hnd1.
    set (l1 := Bpf.insert_all b l) in *.
    destruct (Bpf.next_key l c) as [k|] eqn:Hk.
    2:{ exists 1%nat. intros [|fuel] Hf; [lia|]. cbn [psweep tick]. by rewrite Hk. }
    destruct (Z.ltb_spec k thr) as [Hst|Hst].
    + destruct (pdelete k l1) as [l2 miss] eqn:Hdel.
      assert (Hnd2 : NoDup (Bpf.keys l2)).
      { unfold pdelete, Bpf.delete in Hdel. destruct (Bpf.lookup k l1); inversion Hdel; subst; [|done].
        by apply NoDup_keys_remove. }
      pose proof (tick_NoDup l2 d1 Hnd2) as Hnd3.
      pose proof (tick_length l2 d1) as Hlen3.
      destruct (tick l2 d1) as [l3 d3] eqn:Ht3. simpl in Hnd3, Hlen3.
      destruct (IH d3 k l3) as [N HN]; [lia|done|].
      exists (S N). intros [|fuel] Hf; [lia|]. cbn [psweep tick]. rewrite Hk.
      destruct (Z.ltb_spec k thr); [|lia]. fold l1. rewrite Hdel, Ht3.
      destruct (HN fuel) as [[[l' d'] ev'] ->]; [lia|done].
    + destruct (IH d1 k l1) as [N HN]; [lia|done|].
      exists (S N). intros [|fuel] Hf; [lia|]. cbn [psweep tick]. rewrite Hk.
      destruct (Z.ltb_spec k thr); [lia|]. fold l1.
      destruct (HN fuel) as [[[l' d'] ev'] ->]; [lia|done].
Qed.

End Sweep.

(** ** [delete_stale_entries] *)

Lemma delete_stale_entries_psweep K s fd id cap l fuel l' d' ev :
  nth 1 (map_fd s) 0 = fd -> 0 <= fd ->
  window_at s fd id cap l ->
  psweep fuel fd (threshold K s) 0 l (dataplane s) = Some (l', d', ev) ->
  exists s', delete_stale_entries K fuel s = Ret () s' /\
             window_at s' fd id cap l' /\
             out s' = out s ++ sweep_events s ev.
Proof.
  intros Hfd Hpos Hw Hp. unfold delete_stale_entries.
  erewrite bind_ret by apply emit_ret.
  set (s1 := set_out _ s).
  erewrite (bind_ret (gets _)) by reflexivity.
  replace (nth 1 (map_fd s1) 0) with fd by (by destruct s).
  destruct (Z.ltb_spec fd 0); [lia|].
  erewrite (bind_ret time_get_ns) with (a := now s) by (by destruct s).
  erewrite bind_ret by apply emit_ret.
  set (s2 := set_out _ s1).
  assert (Hw2 : window_at s2 fd id cap l) by by do 2 apply window_at_set_out.
  assert (Hd2 : dataplane s2 = dataplane s) by by destruct s.
  rewrite <- Hd2 in Hp.
  destruct (sweep_psweep K fd id cap (now s) fuel 0 s2 l l' d' ev Hw2 Hp)
    as (s' & Hrun & Hw' & _ & Ho').
  exists s'. split; [done|]. split; [done|].
  rewrite Ho'. unfold s2, s1, sweep_events. rewrite !out_set_out.
  by rewrite <- !app_assoc.
Qed.

(** A sweep of a window map with distinct keys ends, whatever the XDP
    program inserts meanwhile, and its effect on the map is that of
    [psweep]. *)
Lemma delete_stale_entries_ends K s fd id cap l :
  nth 1 (map_fd s) 0 = fd -> 0 <= fd ->
  window_at s fd id cap l -> NoDup (Bpf.keys l) ->
  exists N, forall fuel, (N <= fuel)%nat ->
    exists s' l' d' ev,
      delete_stale_entries K fuel s = Ret () s' /\
      window_at s' fd id cap l' /\
      out s' = out s ++ sweep_events s ev /\
      psweep fuel fd (threshold K s) 0 l (dataplane s) = Some (l', d', ev).
Proof.
  intros Hfd Hpos Hw Hnd.
  destruct (psweep_terminates fd (threshold K s) _ (dataplane s) 0 l (le_n _) Hnd) as [N HN].
  exists N. intros fuel Hf. destruct (HN fuel Hf) as [[[l' d'] ev] Hp].
  destruct (delete_stale_entries_psweep K s fd id cap l fuel l' d' ev Hfd Hpos Hw Hp)
    as (s' & Hrun & Hw' & Ho').
  by exists s', l', d', ev.
Qed.

Lemma psweep_cursor_chain fd thr fuel : forall c l d l' d' ev,
  psweep fuel fd thr c l d = Some (l', d', ev) -> cursor_chain fd c ev.
Proof.
  induction fuel as [|fuel IH]; intros c l d l' d' ev Hp; [done|].
  cbn [psweep] in Hp. destruct (tick l d) as [l1 d1].
  destruct (Bpf.next_key l c) as [k|]; [|by inversion Hp].
  destruct (k <? thr).
  - destruct (pdelete k l1) as [l2 miss] eqn:Hdel. destruct (tick l2 d1) as [l3 d3].
    destruct (psweep fuel fd thr k l3 d3) as [[[l'' d''] ev'']|] eqn:Hrec; [|done].
    simpl in Hp. inversion Hp; subst. simpl. do 2 (split; [done|]).
    apply IH in Hrec. unfold pdelete in Hdel.
    destruct (Bpf.delete k l1); inversion Hdel; subst; done.
  - destruct (psweep fuel fd thr k l1 d1) as [[[l'' d''] ev'']|] eqn:Hrec; [|done].
    simpl in Hp. inversion Hp; subst. simpl. do 2 (split; [done|]). by eapply IH.
Qed.

Lemma now_range s : 0 <= now s < 2 ^ 64.
Proof. unfold now, CInt.u64. apply Z.mod_pos_bound. lia. Qed.

Lemma threshold_no_wrap K s :
  0 <= buffer_time K <= now s -> threshold K s = now s - buffer_time K.
Proof.
  intros H. pose proof (now_range s). unfold threshold, CInt.u64.
  apply Z.mod_small. lia.
Qed.

Lemma threshold_wrap K s :
  now s < buffer_time K < 2 ^ 64 -> threshold K s = 2 ^ 64 + now s - buffer_time K.
Proof.
  intros H. pose proof (now_range s). unfold threshold, CInt.u64.
  symmetry. apply (Z.mod_unique_pos _ _ (-1)); lia.
Qed.

(** ** Claims on the sweep *)

Lemma now_woken s :
  0 <= (clock s).1 -> 0 <= (clock s).2 ->
  ((clock s).1 + 60) * 1000000000 + (clock s).2 < 2 ^ 64 ->
  now (woken s) = ((clock s).1 + 60) * 1000000000 + (clock s).2.
Proof.
  intros Hs Hn Hlt. unfold now, woken, CInt.u64. destruct s as [h k [sec nsec]]; simpl in *.
  rewrite (Z.mod_small (sec + 60)) by lia. apply Z.mod_small. lia.
Qed.

(** C1: no round of the loop of [main] removes an entry before its buffer
    time has elapsed.  The timestamp of an entry is its key: that is what
    the sweep compares (the value is not read).  In a round the sweep runs
    after [sleep(60)], at the clock reading [now (woken s)]; an entry whose
    key [t] satisfies [now - t <= buffer_time] is still in the window map
    when the sweep returns, and the sweep does return, whatever the XDP
    program inserts meanwhile.  [buffer_time] is a constant of
    [constants.h]; it is taken not to exceed the sixty seconds of the
    sleep, so that the clock is never below it when a sweep runs.  The
    clock is below 2^64 ns. *)
Theorem sweep_keeps_fresh_entries K s fd id cap l e :
  nth 1 (map_fd s) 0 = fd -> 0 <= fd ->
  window_at s fd id cap l -> NoDup (Bpf.keys l) ->
  0 <= (clock s).1 -> 0 <= (clock s).2 ->
  ((clock s).1 + 60) * 1000000000 + (clock s).2 < 2 ^ 64 ->
  0 <= buffer_time K <= 60 * 1000000000 ->
  e ∈ l -> now (woken s) - e.1 <= buffer_time K ->
  exists N, forall fuel, (N <= fuel)%nat ->
    exists s' l', steady_round K fuel s = Ret () s' /\
                  window_at s' fd id cap l' /\ e ∈ l'.
Proof.
  intros Hfd Hpos Hw Hnd Hsec Hnsec Hclk Hbuf He Hage.
  pose proof (now_woken s Hsec Hnsec Hclk) as Hnow.
  assert (Hfd1 : nth 1 (map_fd (woken s)) 0 = fd) by (by destruct s).
  assert (Hw1 : window_at (woken s) fd id cap l) by (by destruct s).
  destruct (delete_stale_entries_ends K (woken s) fd id cap l Hfd1 Hpos Hw1 Hnd) as [N HN].
  exists N. intros fuel Hf.
  destruct (HN fuel Hf) as (s' & l' & d' & ev & Hrun & Hw' & _ & Hp).
  exists s', l'. split; [|split; [done|]].
  - unfold steady_round. erewrite bind_ret by reflexivity.
    fold (woken s). by erewrite bind_ret by exact Hrun.
  - eapply psweep_keeps; [exact Hp|done|].
    rewrite threshold_no_wrap by lia. lia.
Qed.

Lemma sweep_keeps_fresh_entries_witness :
  exists N, forall fuel, (N <= fuel)%nat ->
    exists s' l',
      steady_round K0 fuel
        (state0 [(1000000000, 1); (158500000000, 2)] (100, 0) [[Bpf.Ins 0 159000000000 1]])
      = Ret () s' /\
      window_at s' 5 1 100 l' /\ (158500000000, 2) ∈ l'.
Proof.
  apply (sweep_keeps_fresh_entries K0 _ 5 1%nat 100%nat
           [(1000000000, 1); (158500000000, 2)] (158500000000, 2)).
  - reflexivity.
  - lia.
  - by vm_compute.
  - compute_done.
  - simpl. lia.
  - simpl. lia.
  - simpl. lia.
  - by vm_compute.
  - compute_done.
  - by vm_compute.
Defined.

Lemma ahead_of_absent_cursor c ks x : c ∉ ks -> x ∈ ks -> ahead c ks x.
Proof. intros Hc Hx. split; [done|]. apply after_None in Hc. by rewrite Hc. Qed.

(** C2, as amended: in a window map that does not hold the key 0 (the
    value the cursor starts from), an entry with key [t] is deleted by a
    sweep at [now > t + buffer_time].  Staleness is judged on the key of
    the entry: of the entries present at the start exactly those with a key
    at or above [now - buffer_time] (modulo 2^64) are left; and each call
    for the next key passes the key the call before it returned, deleted or
    not.  Keys the XDP program inserts during the sweep are assumed not to
    be stale. *)
Theorem sweep_removes_stale_entries K s fd id cap l e :
  nth 1 (map_fd s) 0 = fd -> 0 <= fd ->
  window_at s fd id cap l -> NoDup (Bpf.keys l) ->
  0 ∉ Bpf.keys l ->
  inserts_fresh (threshold K s) (dataplane s) ->
  0 <= buffer_time K ->
  e ∈ l -> 0 <= e.1 -> now s > e.1 + buffer_time K ->
  exists N, forall fuel, (N <= fuel)%nat ->
    exists s' l' ev,
      delete_stale_entries K fuel s = Ret () s' /\
      window_at s' fd id cap l' /\
      out s' = out s ++ sweep_events s ev /\
      (e.1 ∉ Bpf.keys l') /\
      (forall e', e' ∈ l -> (e' ∈ l' <-> threshold K s <= e'.1)) /\
      cursor_chain fd 0 ev.
Proof.
  intros Hfd Hpos Hw Hnd H0 Hd Hbuf He Hkey Hage.
  destruct (delete_stale_entries_ends K s fd id cap l Hfd Hpos Hw Hnd) as [N HN].
  exists N. intros fuel Hf.
  destruct (HN fuel Hf) as (s' & l' & d' & ev & Hrun & Hw' & Ho' & Hp).
  exists s', l', ev. do 3 (split; [done|]).
  assert (Hclean : forall x, x ∈ Bpf.keys l -> x ∈ Bpf.keys l' -> threshold K s <= x).
  { intros x Hx Hx'. destruct (Z.le_gt_cases (threshold K s) x) as [|Hst]; [done|].
    destruct (psweep_clean _ _ _ _ _ _ _ _ _ Hnd Hd Hp x Hx' Hst) as [_ Hna].
    destruct Hna. by apply ahead_of_absent_cursor. }
  assert (Hin : forall e' : Z * Z, e' ∈ l -> e'.1 ∈ Bpf.keys l).
  { intros e' He'. unfold Bpf.keys. by apply list_elem_of_fmap_2. }
  split; [|split].
  - intros He'. specialize (Hclean _ (Hin _ He) He').
    rewrite threshold_no_wrap in Hclean by lia. lia.
  - intros e' He'. split.
    + intros He''. apply Hclean; [by apply Hin|].
      unfold Bpf.keys. by apply list_elem_of_fmap_2.
    + intros Hfresh. by eapply psweep_keeps.
  - by eapply psweep_cursor_chain.
Qed.

Lemma sweep_removes_stale_entries_witness :
  exists N, forall fuel, (N <= fuel)%nat ->
    exists s' l' ev,
      let s := state0 [(1000000000, 1); (98500000000, 2)] (100, 0)
                      [[Bpf.Ins 0 99000000000 1]] in
      delete_stale_entries K0 fuel s = Ret () s' /\
      window_at s' 5 1 100 l' /\
      out s' = out s ++ sweep_events s ev /\
      (1000000000 ∉ Bpf.keys l') /\
      (forall e', e' ∈ [(1000000000, 1); (98500000000, 2)] ->
                  (e' ∈ l' <-> threshold K0 s <= e'.1)) /\
      cursor_chain 5 0 ev.
Proof.
  apply (sweep_removes_stale_entries K0 _ 5 1%nat 100%nat
           [(1000000000, 1); (98500000000, 2)] (1000000000, 1)).
  - reflexivity.
  - lia.
  - by vm_compute.
  - compute_done.
  - compute_done.
  - compute_done.
  - by vm_compute.
  - compute_done.
  - by vm_compute.
  - by vm_compute.
Defined.

(** The claim C2 as stated fails for an entry with key 0, the value the
    cursor starts from: the first call for the next key finds the cursor in
    the map and returns what follows it, here nothing. *)
Lemma sweep_skips_key_zero :
  let s := state0 [(0, 0)] (100, 0) [] in
  now s > 0 + buffer_time K0 /\
  exists s', delete_stale_entries K0 2 s = Ret () s' /\ window s' = Some [(0, 0)].
Proof.
  split; [by vm_compute|]. eexists. split; by vm_compute.
Qed.

(** C3, as amended: a sweep of a window map that does not hold the key 0
    ends, and every key that is in the map when it starts is returned by
    one of its [BPF_MAP_GET_NEXT_KEY] calls, whatever finite sequence of
    keys that are not stale the XDP program inserts between the calls. *)
Theorem sweep_visits_all_keys K s fd id cap l :
  nth 1 (map_fd s) 0 = fd -> 0 <= fd ->
  window_at s fd id cap l -> NoDup (Bpf.keys l) ->
  0 ∉ Bpf.keys l ->
  inserts_fresh (threshold K s) (dataplane s) ->
  exists N, forall fuel, (N <= fuel)%nat ->
    exists s' ev,
      delete_stale_entries K fuel s = Ret () s' /\
      out s' = out s ++ sweep_events s ev /\
      forall x, x ∈ Bpf.keys l -> visited fd ev x.
Proof.
  intros Hfd Hpos Hw Hnd H0 Hd.
  destruct (delete_stale_entries_ends K s fd id cap l Hfd Hpos Hw Hnd) as [N HN].
  exists N. intros fuel Hf.
  destruct (HN fuel Hf) as (s' & l' & d' & ev & Hrun & Hw' & Ho' & Hp).
  exists s', ev. do 2 (split; [done|]).
  intros x Hx. eapply psweep_visits; [done..|]. by apply ahead_of_absent_cursor.
Qed.

Lemma sweep_visits_all_keys_witness :
  exists N, forall fuel, (N <= fuel)%nat ->
    exists s' ev,
      let s := state0 [(1000000000, 1); (98500000000, 2); (5000000000, 3)] (100, 0)
                      [[Bpf.Ins 1 99000000000 1]; []; [Bpf.Ins 0 99500000000 1]] in
      delete_stale_entries K0 fuel s = Ret () s' /\
      out s' = out s ++ sweep_events s ev /\
      forall x, x ∈ Bpf.keys [(1000000000, 1); (98500000000, 2); (5000000000, 3)] ->
                visited 5 ev x.
Proof.
  apply (sweep_visits_all_keys K0 _ 5 1%nat 100%nat
           [(1000000000, 1); (98500000000, 2); (5000000000, 3)]).
  - reflexivity.
  - lia.
  - by vm_compute.
  - compute_done.
  - compute_done.
  - compute_done.
Defined.

(** The claim C3 as stated fails when the map holds the key 0: the only
    call the sweep makes returns no key, and the sweep ends without having
    visited the one key of the map. *)
Lemma sweep_visits_nothing_behind_key_zero :
  let s := state0 [(0, 7)] (100, 0) [] in
  window s = Some [(0, 7)] /\
  exists s', delete_stale_entries K0 2 s = Ret () s' /\
             out s' = sweep_events s [NextKey 5 0 None].
Proof.
  split; [by vm_compute|]. eexists. split; by vm_compute.
Qed.

(** C9, as amended: when the clock is below [buffer_time] the subtraction
    wraps to [2^64 + now - buffer_time], and the sweep of a map that does
    not hold the key 0 deletes every entry that is in the map at its start
    and whose key is below that value, whatever its age; the entries with a
    key from there up to [2^64 - 1] stay.  The XDP program may insert keys
    during the sweep, stale ones too, as long as they are new: no key that
    is in the map when the sweep starts, and no key twice. *)
Theorem sweep_wraps_below_buffer_time K s fd id cap l :
  nth 1 (map_fd s) 0 = fd -> 0 <= fd ->
  window_at s fd id cap l -> NoDup (Bpf.keys l) ->
  0 ∉ Bpf.keys l ->
  inserts_new l (dataplane s) ->
  now s < buffer_time K < 2 ^ 64 ->
  threshold K s = 2 ^ 64 + now s - buffer_time K /\
  exists N, forall fuel, (N <= fuel)%nat ->
    exists s' l',
      delete_stale_entries K fuel s = Ret () s' /\
      window_at s' fd id cap l' /\
      forall e, e ∈ l -> (e ∈ l' <-> 2 ^ 64 + now s - buffer_time K <= e.1).
Proof.
  intros Hfd Hpos Hw Hnd H0 Hd Hwrap.
  pose proof (threshold_wrap K s Hwrap) as Hthr. split; [done|].
  destruct (delete_stale_entries_ends K s fd id cap l Hfd Hpos Hw Hnd) as [N HN].
  exists N. intros fuel Hf.
  destruct (HN fuel Hf) as (s' & l' & d' & ev & Hrun & Hw' & Ho' & Hp).
  exists s', l'. do 2 (split; [done|]).
  intros e He. rewrite <- Hthr. split.
  - intros He'. destruct (Z.le_gt_cases (threshold K s) e.1) as [|Hst]; [done|].
    assert (He1 : e.1 ∈ Bpf.keys l') by (unfold Bpf.keys; by apply list_elem_of_fmap_2).
    exfalso. revert He1.
    eapply psweep_removes; [by apply distinct_start|exact Hp| |lia].
    apply ahead_of_absent_cursor; [done|].
    unfold Bpf.keys. by apply list_elem_of_fmap_2.
  - intros Hfresh. by eapply psweep_keeps.
Qed.

Lemma sweep_wraps_below_buffer_time_witness :
  let s := state0 [(500000000, 1); (18446744073709551615, 2)] (1, 0)
                  [[Bpf.Ins 0 600000000 1]; []; [Bpf.Ins 2 700000000 1]] in
  threshold K0 s = 2 ^ 64 + now s - buffer_time K0 /\
  exists N, forall fuel, (N <= fuel)%nat ->
    exists s' l',
      delete_stale_entries K0 fuel s = Ret () s' /\
      window_at s' 5 1 100 l' /\
      forall e, e ∈ [(500000000, 1); (18446744073709551615, 2)] ->
                (e ∈ l' <-> 2 ^ 64 + now s - buffer_time K0 <= e.1).
Proof.
  apply (sweep_wraps_below_buffer_time K0 _ 5 1%nat 100%nat
           [(500000000, 1); (18446744073709551615, 2)]).
  - reflexivity.
  - lia.
  - by vm_compute.
  - compute_done.
  - compute_done.
  - split; compute_done.
  - by vm_compute.
Defined.

(** The claim C9 as stated fails on three kinds of entries.  One second
    after boot, with a buffer of two seconds, the sweep leaves the entry
    with key 0 where it is; it leaves an entry whose key is above the
    wrapped bound; and a key that the XDP program inserts again, right
    after the sweep has deleted it, is in the map when the sweep ends. *)
Lemma sweep_on_wrap_keeps_some_entries :
  (let s := state0 [(0, 7)] (1, 0) [] in
   now s < buffer_time K0 /\
   exists s', delete_stale_entries K0 2 s = Ret () s' /\ window s' = Some [(0, 7)]) /\
  (let s := state0 [(18446744073709551615, 7)] (1, 0) [] in
   now s < buffer_time K0 /\
   exists s', delete_stale_entries K0 3 s = Ret () s' /\
              window s' = Some [(18446744073709551615, 7)]) /\
  (let s := state0 [(500000000, 7)] (1, 0) [[]; [Bpf.Ins 0 500000000 1]] in
   now s < buffer_time K0 /\ 500000000 < threshold K0 s /\
   exists s', delete_stale_entries K0 3 s = Ret () s' /\
              out s' = sweep_events s
                         [NextKey 5 0 (Some 500000000);
                          Log LOG_DEBUG "Deleting stale map entry %llu" [AInt 500000000];
                          NextKey 5 500000000 None] /\
              window s' = Some [(500000000, 1)]).
Proof.
  split; [|split].
  - split; [by vm_compute|]. eexists. split; by vm_compute.
  - split; [by vm_compute|]. eexists. split; by vm_compute.
  - split; [by vm_compute|]. split; [by vm_compute|].
    eexists. split; [by vm_compute|]. split; by vm_compute.
Qed.

(** ** Chaining *)

Lemma lookup_replace k v l : Bpf.lookup k (Bpf.replace k v l) = (fun _ => v) <$> Bpf.lookup k l.
Proof.
  induction l as [|[k' v'] l IH]; simpl; [done|].
  destruct (Z.eqb_spec k' k) as [->|Hne]; simpl.
  - by rewrite Z.eqb_refl.
  - destruct (Z.eqb_spec k' k); [done|]. apply IH.
Qed.

Lemma lookup_replace_ne k k' v l : k <> k' -> Bpf.lookup k (Bpf.replace k' v l) = Bpf.lookup k l.
Proof.
  intros Hne. induction l as [|[k0 v0] l IH]; simpl; [done|].
  destruct (Z.eqb_spec k0 k') as [->|Hne']; simpl.
  - destruct (Z.eqb_spec k' k); [congruence|]. by destruct (Z.eqb_spec k' k).
  - destruct (Z.eqb_spec k0 k); [done|]. apply IH.
Qed.

Lemma update_lookup k v m m' :
  Bpf.update k v m = Some m' -> Bpf.lookup k (Bpf.elems m') = Some v.
Proof.
  unfold Bpf.update. destruct (Bpf.lookup k (Bpf.elems m)) eqn:Hl.
  - intros [= <-]. simpl. by rewrite lookup_replace, Hl.
  - case_bool_decide; [|done]. intros [= <-]. simpl. by rewrite Z.eqb_refl.
Qed.

Lemma update_lookup_ne k k' v m m' :
  Bpf.update k' v m = Some m' -> k <> k' ->
  Bpf.lookup k (Bpf.elems m') = Bpf.lookup k (Bpf.elems m).
Proof.
  unfold Bpf.update. intros Hu Hne. destruct (Bpf.lookup k' (Bpf.elems m)) eqn:Hl.
  - injection Hu as <-. simpl. by apply lookup_replace_ne.
  - case_bool_decide; [|done]. injection Hu as <-. simpl.
    destruct (Z.eqb_spec k' k); [congruence|done].
Qed.

Lemma fresh_fd_nonneg t : 0 <= Bpf.fresh_fd t.
Proof.
  unfold Bpf.fresh_fd.
  destruct (List.find _ _) as [n|] eqn:Hf; simpl; [|done].
  apply List.find_some in Hf as [Hin _].
  apply list_elem_of_In, elem_of_seqZ in Hin. lia.
Qed.

Lemma fresh_fd_free (t : gmap Z nat) : t !! Bpf.fresh_fd t = None.
Proof.
  unfold Bpf.fresh_fd.
  destruct (List.find _ _) as [n|] eqn:Hf; simpl.
  - apply List.find_some in Hf as [_ Hn]. by apply bool_decide_eq_true_1 in Hn.
  - exfalso.
    assert (Hsub : (list_to_set (seqZ 0 (Z.of_nat (size t) + 1)) : gset Z) ⊆ dom t).
    { intros x Hx. apply elem_of_list_to_set in Hx. apply elem_of_dom.
      apply list_elem_of_In in Hx. apply (List.find_none _ _ Hf) in Hx.
      apply bool_decide_eq_false_1 in Hx. by destruct (t !! x). }
    apply subseteq_size in Hsub.
    rewrite size_list_to_set in Hsub by apply NoDup_seqZ.
    rewrite length_seqZ, size_dom in Hsub. lia.
Qed.

(** A slot of a program array reads as the id of the program that was
    written into it; the other slots are left alone. *)
Lemma set_prog_lookup k key fd a a' :
  Bpf.set_prog k key fd a = Some a' ->
  exists pid, Bpf.prog_id k fd = Some pid /\ Bpf.lookup key (Bpf.elems a') = Some pid.
Proof.
  unfold Bpf.set_prog. case_bool_decide; [|done].
  destruct (Bpf.prog_id k fd) as [pid|]; [|done]. intros [= <-]. exists pid. split; [done|].
  simpl. destruct (Bpf.lookup key (Bpf.elems a)) eqn:Hl.
  - by rewrite lookup_replace, Hl.
  - simpl. by rewrite Z.eqb_refl.
Qed.


(** The descriptor [bpf_obj_get] has just opened on a map or a program
    array is not a descriptor of a program; the other descriptors are what
    they were. *)
Lemma prog_id_obj_get objs fds fs pas prs fd id v :
  is_Some (Bpf.table (Bpf.Kernel objs fds fs pas prs) id) ->
  Bpf.prog_id (Bpf.Kernel objs (<[fd := id]> fds) fs pas prs) v
  = if decide (v = fd) then None else Bpf.prog_id (Bpf.Kernel objs fds fs pas prs) v.
Proof.
  intros [m Hm]. unfold Bpf.prog_id. simpl. case_decide as Hv.
  - subst v. rewrite lookup_insert_eq. simpl.
    unfold Bpf.table in *. simpl in *. by rewrite Hm.
  - by rewrite lookup_insert_ne.
Qed.

(** The state in which the chaining step returns: the object pinned at
    [prev_prog_map] has taken the entry, as a map or as a program array,
    and the descriptor opened on it is closed again. *)
Lemma chain_link_ret s s' :
  chain_link s = Ret () s' ->
  exists id,
    Bpf.bpffs (kern s) !! prev_prog_map s = Some id /\
    ((exists m m',
        Bpf.objs (kern s) !! id = Some m /\
        Bpf.update 0 (nth 0 (prog_fd s) 0) m = Some m' /\
        s' = put_obj id m' s) \/
     (exists a a',
        Bpf.objs (kern s) !! id = None /\
        Bpf.prog_arrays (kern s) !! id = Some a /\
        Bpf.set_prog (kern s) 0 (nth 0 (prog_fd s) 0) a = Some a' /\
        s' = put_prog_array id a' s)).
Proof.
  unfold chain_link.
  erewrite (bind_ret (gets _)) by reflexivity.
  unfold mbind at 1, M_bind at 1, bpf_obj_get.
  destruct (Bpf.bpffs (kern s) !! prev_prog_map s) as [id|] eqn:Hpin; [|done].
  pose proof (fresh_fd_free (Bpf.fds (kern s))) as Hfree.
  set (fd := Bpf.fresh_fd _) in *. destruct (fd <? 0); [done|].
  erewrite (bind_ret (gets _)) by reflexivity.
  unfold mbind at 1, M_bind at 1, bpf_map_update_elem.
  destruct s as [h [objs fds fs pas prs] clk dp ifx inf prev vb pfd mfd o]; simpl in *.
  rewrite lookup_insert_eq.
  destruct (objs !! id) as [m|] eqn:Hobj; simpl.
  - destruct (Bpf.update 0 (nth 0 pfd 0) m) as [m'|] eqn:Hup; simpl; [|done].
    unfold mbind, M_bind, close, put_obj; simpl. rewrite lookup_insert_eq. simpl.
    intros [= <-]. exists id. split; [done|]. left. exists m, m'. do 2 (split; [done|]).
    by rewrite delete_insert_eq, delete_id.
  - destruct (pas !! id) as [a|] eqn:Hpa; simpl; [|done].
    destruct (Bpf.set_prog _ 0 (nth 0 pfd 0) a) as [a'|] eqn:Hset; simpl; [|done].
    unfold mbind, M_bind, close, put_prog_array; simpl. rewrite lookup_insert_eq. simpl.
    intros [= <-]. exists id. split; [done|]. right. exists a, a'. do 2 (split; [done|]).
    split; [|by rewrite delete_insert_eq, delete_id].
    unfold Bpf.set_prog in *. case_bool_decide; [|done].
    rewrite prog_id_obj_get in Hset by (unfold Bpf.table; simpl; rewrite Hobj; eauto).
    by case_decide.
Qed.

(** What the chaining step leaves at key 0 of the object pinned at
    [prev_prog_map]. *)
Lemma chain_link_entry s s' :
  chain_link s = Ret () s' ->
  prev_prog_map s' = prev_prog_map s /\ prog_fd s' = prog_fd s /\
  exists id,
    Bpf.bpffs (kern s') !! prev_prog_map s = Some id /\
    match Bpf.objs (kern s') !! id with
    | Some m => Bpf.lookup 0 (Bpf.elems m) = Some (nth 0 (prog_fd s) 0)
    | None =>
        exists a pid,
          Bpf.prog_arrays (kern s') !! id = Some a /\
          Bpf.prog_id (kern s) (nth 0 (prog_fd s) 0) = Some pid /\
          Bpf.lookup 0 (Bpf.elems a) = Some pid
    end.
Proof.
  intros (id & Hpin & [(m & m' & Hobj & Hup & ->)|(a & a' & Hobj & Hpa & Hset & ->)])%chain_link_ret.
  - destruct s as [h [objs fds fs pas prs] clk dp ifx inf prev vb pfd mfd o]; simpl in *.
    do 2 (split; [done|]). exists id. split; [done|].
    rewrite lookup_insert_eq. by eapply update_lookup.
  - destruct (set_prog_lookup _ _ _ _ _ Hset) as (pid & Hpid & Hl).
    destruct s as [h [objs fds fs pas prs] clk dp ifx inf prev vb pfd mfd o]; simpl in *.
    do 2 (split; [done|]). exists id. split; [done|].
    rewrite Hobj. exists a', pid. by rewrite lookup_insert_eq.
Qed.

(** C4, as amended: when the chaining step returns, key 0 of the object
    pinned at [prev_prog_map] holds this program in the form the object
    keeps it.  A program array, which is what programs are chained through,
    holds the program that [prog_fd[0]] is open on, and user space reads
    the id of that program from the slot, not the number of the
    descriptor; a hash or array map holds the number as it was written. *)
Theorem chain_link_publishes_prog_fd s s' :
  chain_link s = Ret () s' ->
  prev_prog_map s' = prev_prog_map s /\ prog_fd s' = prog_fd s /\
  exists id,
    Bpf.bpffs (kern s') !! prev_prog_map s = Some id /\
    match Bpf.objs (kern s') !! id with
    | Some m => Bpf.lookup 0 (Bpf.elems m) = Some (nth 0 (prog_fd s) 0)
    | None =>
        exists a pid,
          Bpf.prog_arrays (kern s') !! id = Some a /\
          Bpf.prog_id (kern s) (nth 0 (prog_fd s) 0) = Some pid /\
          Bpf.lookup 0 (Bpf.elems a) = Some pid
    end.
Proof.
  intros Hrun. apply chain_link_ret in Hrun as (id & Hpin & Hcase).
  destruct Hcase as [(m & m' & Hobj & Hup & ->)|(a & a' & Hobj & Hpa & Hset & ->)].
  - assert (Hnew : Bpf.objs (kern (put_obj id m' s)) !! id = Some m').
    { destruct s as [h [objs fds fs pas prs]]; simpl. apply lookup_insert_eq. }
    split; [by destruct s|]. split; [by destruct s|].
    exists id. split; [by destruct s|]. rewrite Hnew. by eapply update_lookup.
  - destruct (set_prog_lookup _ _ _ _ _ Hset) as (pid & Hpid & Hl).
    assert (Hold : Bpf.objs (kern (put_prog_array id a' s)) !! id = None) by (by destruct s).
    assert (Hnew : Bpf.prog_arrays (kern (put_prog_array id a' s)) !! id = Some a').
    { destruct s as [h [objs fds fs pas prs]]; simpl. apply lookup_insert_eq. }
    split; [by destruct s|]. split; [by destruct s|].
    exists id. split; [by destruct s|]. rewrite Hold. by exists a', pid.
Qed.

Lemma chain_link_publishes_prog_fd_witness :
  let s := state0 [] (100, 0) [] in
  let s' := final (chain_link s) in
  prev_prog_map s' = prev_prog_map s /\ prog_fd s' = prog_fd s /\
  exists id,
    Bpf.bpffs (kern s') !! prev_prog_map s = Some id /\
    match Bpf.objs (kern s') !! id with
    | Some m => Bpf.lookup 0 (Bpf.elems m) = Some (nth 0 (prog_fd s) 0)
    | None =>
        exists a pid,
          Bpf.prog_arrays (kern s') !! id = Some a /\
          Bpf.prog_id (kern s) (nth 0 (prog_fd s) 0) = Some pid /\
          Bpf.lookup 0 (Bpf.elems a) = Some pid
    end.
Proof.
  apply (chain_link_publishes_prog_fd (state0 [] (100, 0) [])
           (final (chain_link (state0 [] (100, 0) [])))).
  by vm_compute.
Defined.

(** The claim C4 as stated fails on a program array: the handle of this
    program is the descriptor 3, the chaining step writes it to key 0 of
    the previous program's array and returns, and what is read from key 0
    afterwards is 164, the id of the program. *)
Lemma chain_link_reads_back_program_id :
  let s := state0 [] (100, 0) [] in
  nth 0 (prog_fd s) 0 = 3 /\
  exists s', chain_link s = Ret () s' /\
             Bpf.elems <$> pinned_prog_array s' (prev_prog_map s') = Some [(0, 164)] /\
             Bpf.elems <$> pinned_prog_array s' (prev_prog_map s') <> Some [(0, 3)].
Proof. split; [done|]. eexists. split; [by vm_compute|]. by vm_compute. Qed.

(** The chaining step does return when the path is pinned and the object
    behind it takes the entry. *)
Lemma chain_link_returns s id :
  Bpf.bpffs (kern s) !! prev_prog_map s = Some id ->
  is_Some (Bpf.written (kern s) id 0 (nth 0 (prog_fd s) 0)) ->
  exists s', chain_link s = Ret () s'.
Proof.
  intros Hpin [m' Hup]. unfold chain_link.
  erewrite (bind_ret (gets _)) by reflexivity.
  unfold mbind at 1, M_bind at 1, bpf_obj_get. rewrite Hpin.
  pose proof (fresh_fd_nonneg (Bpf.fds (kern s))) as Hfd.
  pose proof (fresh_fd_free (Bpf.fds (kern s))) as Hfree.
  set (fd := Bpf.fresh_fd _) in *. destruct (Z.ltb_spec fd 0); [lia|].
  erewrite (bind_ret (gets _)) by reflexivity.
  unfold mbind at 1, M_bind at 1, bpf_map_update_elem.
  destruct s as [h [objs fds fs pas prs] clk dp ifx inf prev vb pfd mfd o].
  unfold Bpf.written in Hup. simpl in *.
  rewrite lookup_insert_eq. destruct (objs !! id) as [m|] eqn:Hobj.
  - rewrite Hup. unfold mbind, M_bind, close, put_obj; simpl. rewrite lookup_insert_eq. eauto.
  - destruct (pas !! id) as [a|] eqn:Hpa; [|done]. simpl in *.
    assert (Hset : Bpf.set_prog (Bpf.Kernel objs (<[fd := id]> fds) fs pas prs)
                     0 (nth 0 pfd 0) a = Some m').
    { unfold Bpf.set_prog in *. case_bool_decide; [|done].
      rewrite prog_id_obj_get by (unfold Bpf.table; simpl; rewrite Hobj; eauto).
      case_decide as Hv; [|done]. exfalso.
      unfold Bpf.prog_id in Hup. simpl in Hup. rewrite Hv, Hfree in Hup. done. }
    rewrite Hset. unfold mbind, M_bind, close, put_prog_array; simpl.
    rewrite lookup_insert_eq. eauto.
Qed.

(** ** Fatal errors of the set-up *)

Ltac mstep :=
  first [ erewrite bind_ret by reflexivity
        | erewrite bind_exit by reflexivity ].

Lemma set_logfile_ret K s :
  exists s', set_logfile K s = Ret () s' /\ sys s' = sys s /\ kern s' = kern s.
Proof.
  unfold set_logfile. mstep. destruct (info s) eqn:Hi; [by exists s|].
  mstep. destruct (fopen_ok (sys s)); eexists; (split; [reflexivity|]); by destruct s.
Qed.

Section SetupProofs.

Variables (K : constants) (argv0 : string) (opts : list (ascii * option string)).

Lemma startup_exits s r s1 :
  parsed K opts s = Ret r s1 ->
  setrlimit_ret (sys s1) <> 0 \/ load_ret (sys s1) <> 0 \/ nth 0 (load_prog_fd (sys s1)) 0 = 0 ->
  exists s', startup K argv0 opts s = Exit 1 s'.
Proof.
  unfold parsed. intros Hp Hc. unfold startup. mstep.
  erewrite bind_ret by exact Hp. destruct r as [rate ports]. mstep.
  destruct (Z.eqb_spec (setrlimit_ret (sys s1)) 0) as [Hr|Hr]; simpl.
  2:{ eexists. reflexivity. }
  mstep. destruct (set_logfile_ret K s1) as (s2 & Hlog & Hsys & _).
  erewrite bind_ret by exact Hlog. mstep. rewrite Hsys.
  destruct (Z.eqb_spec (load_ret (sys s1)) 0) as [Hl|Hl]; simpl.
  2:{ eexists. reflexivity. }
  mstep. mstep.
  replace (nth 0 (prog_fd (set_loaded (load_prog_fd (sys s1)) (load_map_fd (sys s1)) s2)) 0)
    with (nth 0 (load_prog_fd (sys s1)) 0) by (by destruct s2).
  destruct (Z.eqb_spec (nth 0 (load_prog_fd (sys s1)) 0) 0) as [He|He]; simpl.
  - eexists. reflexivity.
  - tauto.
Qed.

Lemma chain_link_exits s :
  Bpf.bpffs (kern s) !! prev_prog_map s = None \/
  (exists id, Bpf.bpffs (kern s) !! prev_prog_map s = Some id /\
              Bpf.written (kern s) id 0 (nth 0 (prog_fd s) 0) = None) ->
  exists s', chain_link s = Exit 1 s'.
Proof.
  intros Hc. unfold chain_link. mstep.
  unfold mbind at 1, M_bind at 1, bpf_obj_get.
  destruct Hc as [Hpin|(id & Hpin & Hup)]; rewrite Hpin.
  - eexists. reflexivity.
  - pose proof (fresh_fd_nonneg (Bpf.fds (kern s))) as Hfd.
    set (fd := Bpf.fresh_fd _) in *. destruct (Z.ltb_spec fd 0); [lia|].
    mstep. unfold mbind at 1, M_bind at 1, bpf_map_update_elem.
    destruct s as [h [objs fds fs pas prs] clk dp ifx inf prev vb pfd mfd o].
    unfold Bpf.written in Hup. simpl in *.
    rewrite lookup_insert_eq. destruct (objs !! id) as [m|] eqn:Hobj.
    + rewrite Hup. eexists. reflexivity.
    + destruct (pas !! id) as [a|] eqn:Hpa; simpl in *; [|eexists; reflexivity].
      assert (Bpf.set_prog (Bpf.Kernel objs (<[fd := id]> fds) fs pas prs)
                0 (nth 0 pfd 0) a = None) as ->; [|eexists; reflexivity].
      unfold Bpf.set_prog in *. case_bool_decide; [|done].
      rewrite prog_id_obj_get by (unfold Bpf.table; simpl; rewrite Hobj; eauto).
      case_decide; [done|]. by destruct (Bpf.prog_id _ (nth 0 pfd 0)).
Qed.

Lemma init_map_missing i msg v s :
  nth i (map_fd s) 0 = 0 -> exists s', init_map i msg v s = Exit (-1) s'.
Proof.
  intros Hfd. unfold init_map. mstep. rewrite Hfd. simpl. eexists. reflexivity.
Qed.

(** C5, as amended: a failure to raise the resource limit, to load the
    BPF object, to find its program, to reach the previous program's map
    or to update it ends the process with status 1 before the loop is
    entered; a config, receive-count or drop-count map whose descriptor is
    0 makes [main] return -1, which the parent sees as status 255. *)
Theorem main_fatal_setup_errors s e :
  occurs K argv0 opts s e ->
  exists s', main K argv0 opts s = Exit (setup_status e) s' /\
             CInt.wait_status (setup_status e)
             = match e with MissingStoreHandle => 255 | _ => 1 end.
Proof.
  intros Hocc. unfold main.
  destruct Hocc as [r s1 Hp Hc|r s1 Hp Hr Hc|r s1 Hp Hr Hl Hc|r s2 Hs Hc|r s2 id Hs Hpin Hc
                   |r s2 s3 s4 Hs Hch Hpub Hc|r s2 s3 s4 s5 Hs Hch Hpub Hi0 Hc
                   |r s2 s3 s4 s5 s6 Hs Hch Hpub Hi0 Hi2 Hc]; simpl.
  1-3: destruct (startup_exits s r s1 Hp) as [s' Hs']; [tauto|];
       exists s'; split; [by erewrite bind_exit by exact Hs'|done].
  1-2: destruct (chain_link_exits s2) as [s' Hs']; [eauto|];
       exists s'; split; [|done];
       erewrite bind_ret by exact Hs; destruct r as [rate ports];
       by erewrite bind_exit by exact Hs'.
  all: erewrite bind_ret by exact Hs; destruct r as [rate ports];
       erewrite bind_ret by exact Hch; erewrite bind_ret by exact Hpub;
       simpl in *; unfold configure.
  - destruct (init_map_missing 0 "ERROR: rl_config_map not found" rate s4 Hc) as [s' Hs'].
    exists s'. split; [|done]. erewrite bind_exit; [done|]. by erewrite bind_exit by exact Hs'.
  - destruct (init_map_missing 2 "ERROR: rl_recv_count_map not found" 0 s5 Hc) as [s' Hs'].
    exists s'. split; [|done]. erewrite bind_exit; [done|]. erewrite bind_ret by exact Hi0.
    by erewrite bind_exit by exact Hs'.
  - destruct (init_map_missing 3 "ERROR: rl_drop_count_map not found" 0 s6 Hc) as [s' Hs'].
    exists s'. split; [|done]. erewrite bind_exit; [done|]. erewrite bind_ret by exact Hi0.
    erewrite bind_ret by exact Hi2. exact Hs'.
Qed.

End SetupProofs.

Lemma main_fatal_setup_errors_witness :
  exists s', main K0 "ratelimiting" opts0 (boot host_no_config_map (kern0 []))
             = Exit (-1) s' /\
             CInt.wait_status (-1) = 255.
Proof.
  apply (main_fatal_setup_errors K0 "ratelimiting" opts0
           (boot host_no_config_map (kern0 [])) MissingStoreHandle).
  eapply occurs_config; vm_compute; reflexivity.
Defined.

(** The claim C5 as stated fails for a missing store handle: [main]
    returns -1, and the exit status is 255, not 1. *)
Lemma main_missing_handle_status_255 :
  exists s', main K0 "ratelimiting" opts0 (boot host_no_config_map (kern0 []))
             = Exit (-1) s' /\
             last (out s') = Some (Log LOG_ERR "ERROR: rl_config_map not found" []) /\
             CInt.wait_status (-1) = 255 /\ CInt.wait_status (-1) <> 1.
Proof. eexists. split; [by vm_compute|]. by vm_compute. Qed.

(** ** The port list *)

Lemma tokens_strsep delim s :
  tokens delim s
  = let '(t, rest) := strsep delim s in
    t :: match rest with Some r => tokens delim r | None => [] end.
Proof.
  induction s as [|c s IH]; simpl; [done|].
  destruct (is_delim delim c); [done|].
  rewrite IH. by destruct (strsep delim s) as [t [r|]].
Qed.

Lemma update_ports_loop_spec toks : forall s fd id m,
  nth 4 (map_fd s) 0 = fd -> map_at s fd id m ->
  exists s', update_ports_loop toks s = Ret () s' /\
             map_at s' fd id (foldl put_port m toks) /\
             out s' = out s ++ port_warnings toks.
Proof.
  induction toks as [|tok toks IH]; intros s fd id m Hfd Hm.
  - exists s. simpl. by rewrite app_nil_r.
  - cbn [update_ports_loop foldl port_warnings flat_map].
    assert (exists s1, strtoi (trim_space tok) s
                       = Ret (CInt.int (value (strtol (trim_space tok)))) s1 /\
                       map_at s1 fd id m /\ nth 4 (map_fd s1) 0 = fd /\
                       out s1 = out s ++ (if malformed tok then [Stderr "out of range"] else []))
      as (s1 & Hs1 & Hm1 & Hfd1 & Ho1).
    { unfold strtoi, malformed.
      destruct (_ || _ || _); simpl.
      - mstep. eexists. split; [reflexivity|]. by destruct s.
      - mstep. exists s. by rewrite app_nil_r. }
    erewrite bind_ret by exact Hs1. mstep. rewrite Hfd1.
    fold (port_of tok).
    assert (exists s2 r, bpf_map_update_elem fd (port_of tok) 1 s1 = Ret r s2 /\
                         map_at s2 fd id (put_port m tok) /\ nth 4 (map_fd s2) 0 = fd /\
                         out s2 = out s1) as (s2 & r & Hs2 & Hm2 & Hfd2 & Ho2).
    { destruct Hm1 as [Hf Hobj]. unfold bpf_map_update_elem, put_port. rewrite Hf, Hobj. simpl.
      destruct (Bpf.update (port_of tok) 1 m) as [m'|]; simpl.
      - eexists _, _. split; [reflexivity|].
        destruct s1 as [h [objs fds fs pas prs]]; simpl in *. repeat split; simpl; try done.
        by rewrite lookup_insert_eq.
      - by exists s1, (-1). }
    erewrite bind_ret by exact Hs2.
    destruct (IH s2 fd id _ Hfd2 Hm2) as (s' & Hrun & Hm' & Ho').
    exists s'. split; [done|]. split; [done|].
    rewrite Ho', Ho2, Ho1. by rewrite <- app_assoc.
Qed.

(** With room for one new element per token, every update of the loop
    succeeds, and a key once written keeps the flag 1. *)
Lemma put_port_lookup toks : forall m tok,
  (length (Bpf.elems m) + length toks <= Bpf.max_entries m)%nat ->
  tok ∈ toks ->
  Bpf.lookup (port_of tok) (Bpf.elems (foldl put_port m toks)) = Some 1.
Proof.
  assert (Hkeep : forall toks m k,
    Bpf.lookup k (Bpf.elems m) = Some 1 ->
    Bpf.lookup k (Bpf.elems (foldl put_port m toks)) = Some 1).
  { clear. induction toks as [|t toks IH]; intros m k Hk; [done|].
    simpl. apply IH. unfold put_port.
    destruct (Bpf.update (port_of t) 1 m) as [m'|] eqn:Hu; simpl; [|done].
    destruct (decide (k = port_of t)) as [->|Hne]; [by eapply update_lookup|].
    by rewrite (update_lookup_ne _ _ _ _ _ Hu Hne). }
  induction toks as [|t toks IH]; intros m tok Hroom Hin; [by apply elem_of_nil in Hin|].
  simpl in *.
  assert (exists m', Bpf.update (port_of t) 1 m = Some m' /\
                     Bpf.max_entries m' = Bpf.max_entries m /\
                     (length (Bpf.elems m') <= S (length (Bpf.elems m)))%nat)
    as (m' & Hu & Hmax & Hlen).
  { unfold Bpf.update. destruct (Bpf.lookup (port_of t) (Bpf.elems m)).
    - eexists. split; [done|]. split; [done|]. simpl.
      clear. induction (Bpf.elems m) as [|[k v] l IHl]; simpl; [lia|].
      destruct (k =? port_of t); simpl; lia.
    - rewrite bool_decide_eq_true_2 by lia. eexists. split; [done|]. split; [done|]. simpl. lia. }
  unfold put_port at 2. rewrite Hu. simpl.
  apply elem_of_cons in Hin as [->|Hin].
  - apply Hkeep. by eapply update_lookup.
  - apply IH; [lia|done].
Qed.

Lemma port_warnings_malformed toks tok :
  tok ∈ toks -> malformed tok = true -> Stderr "out of range" ∈ port_warnings toks.
Proof.
  intros Hin Hm. unfold port_warnings. apply list_elem_of_In, in_flat_map.
  exists tok. split; [by apply list_elem_of_In|]. rewrite Hm. by left.
Qed.

Lemma u16_int z : CInt.u16 (CInt.int z) = z mod 2 ^ 16.
Proof.
  unfold CInt.u16, CInt.int.
  assert (Hdiv : (z mod 2 ^ 32) mod 2 ^ 16 = z mod 2 ^ 16).
  { apply Z.mod_mod_divide. exists (2 ^ 16). lia. }
  destruct (z mod 2 ^ 32 <? 2 ^ 31); [done|].
  rewrite <- Hdiv. replace (z mod 2 ^ 32 - 2 ^ 32) with (z mod 2 ^ 32 + (- 2 ^ 16) * 2 ^ 16) by lia.
  apply Z_mod_plus_full.
Qed.

Lemma update_ports_spec K ports s fd id m :
  nth 4 (map_fd s) 0 = fd -> map_at s fd id m ->
  exists s', update_ports K ports s = Ret () s' /\
             map_at s' fd id (foldl put_port m (tokens (delim K) ports)) /\
             out s' = out s ++ port_warnings (tokens (delim K) ports).
Proof. intros Hfd Hm. unfold update_ports. by apply update_ports_loop_spec. Qed.

(** C6, as amended: for a token on which [strtoi] warns (no digits, a
    value out of the range of [long], or characters after the digits) the
    warning is written to the error stream, the converted value is
    nevertheless written to the port map with flag 1, and so is the value
    of every other token of the list: the loop goes on.  This holds when
    the port map has room for the tokens of the list: the entries it holds
    and the tokens together do not exceed its capacity. *)
Theorem update_ports_inserts_malformed K s fd id m ports tok :
  nth 4 (map_fd s) 0 = fd -> map_at s fd id m ->
  (length (Bpf.elems m) + length (tokens (delim K) ports) <= Bpf.max_entries m)%nat ->
  tok ∈ tokens (delim K) ports -> malformed tok = true ->
  exists s' m',
    update_ports K ports s = Ret () s' /\ map_at s' fd id m' /\
    out s' = out s ++ port_warnings (tokens (delim K) ports) /\
    Stderr "out of range" ∈ port_warnings (tokens (delim K) ports) /\
    Bpf.lookup (port_of tok) (Bpf.elems m') = Some 1 /\
    forall tok', tok' ∈ tokens (delim K) ports ->
                 Bpf.lookup (port_of tok') (Bpf.elems m') = Some 1.
Proof.
  intros Hfd Hm Hroom Hin Hmal.
  destruct (update_ports_spec K ports s fd id m Hfd Hm) as (s' & Hrun & Hm' & Ho').
  exists s', (foldl put_port m (tokens (delim K) ports)).
  do 3 (split; [done|]). split; [by eapply port_warnings_malformed|].
  split; [by apply put_port_lookup|]. intros tok' Hin'. by apply put_port_lookup.
Qed.

Lemma update_ports_inserts_malformed_witness :
  exists s' m',
    let s := state0 [] (100, 0) [] in
    update_ports K0 "80x,abc, 99999999999999999999,443" s = Ret () s' /\
    map_at s' 8 4 m' /\
    out s' = out s ++ port_warnings (tokens "," "80x,abc, 99999999999999999999,443") /\
    Stderr "out of range" ∈ port_warnings (tokens "," "80x,abc, 99999999999999999999,443") /\
    Bpf.lookup (port_of "80x") (Bpf.elems m') = Some 1 /\
    forall tok', tok' ∈ tokens "," "80x,abc, 99999999999999999999,443" ->
                 Bpf.lookup (port_of tok') (Bpf.elems m') = Some 1.
Proof.
  apply (update_ports_inserts_malformed K0 (state0 [] (100, 0) []) 8 4%nat (Bpf.Map 50 [])
           "80x,abc, 99999999999999999999,443" "80x").
  - reflexivity.
  - by vm_compute.
  - vm_compute. lia.
  - compute_done.
  - by vm_compute.
Defined.

(** The claim C6 as stated fails when the port map is full.  Here the map
    takes two entries; the third token of the list is malformed, the
    warning is written, the update of the map fails, its result is not
    looked at, and the key 0 of the token is not in the map. *)
Lemma update_ports_drops_malformed_when_full :
  let s := state_ports [] in
  "abc" ∈ tokens (delim K0) "80,443,abc" /\
  malformed "abc" = true /\ port_of "abc" = 0 /\
  exists s', update_ports K0 "80,443,abc" s = Ret () s' /\
             out s' = [Stderr "out of range"] /\
             contents s' 8 = Some [(443, 1); (80, 1)] /\
             (contents s' 8 ≫= Bpf.lookup 0) = None.
Proof.
  split; [compute_done|]. do 2 (split; [by vm_compute|]).
  eexists. split; [by vm_compute|]. split; [by vm_compute|]. split; by vm_compute.
Qed.

(** What the tokens of that list are turned into. *)
Example malformed_tokens :
  map (fun t => (malformed t, port_of t))
      ["80x"; "abc"; " 99999999999999999999"; ""; "443"; "-5"; "70000"]
  = [(true, 80); (true, 0); (true, 65535); (true, 0); (false, 443);
     (false, 65531); (false, 4464)].
Proof. by vm_compute. Qed.

(** C10, as amended: a token whose value, as [strtol] returns it, is above
    65535 is not rejected: the value modulo 2^16 becomes a key of the port
    map, with flag 1.  This holds when the port map has room for the tokens
    of the list: the entries it holds and the tokens together do not exceed
    its capacity. *)
Theorem update_ports_truncates_large_ports K s fd id m ports tok :
  nth 4 (map_fd s) 0 = fd -> map_at s fd id m ->
  (length (Bpf.elems m) + length (tokens (delim K) ports) <= Bpf.max_entries m)%nat ->
  tok ∈ tokens (delim K) ports ->
  65535 < value (strtol (trim_space tok)) ->
  exists s' m',
    update_ports K ports s = Ret () s' /\ map_at s' fd id m' /\
    port_of tok = value (strtol (trim_space tok)) mod 2 ^ 16 /\
    Bpf.lookup (value (strtol (trim_space tok)) mod 2 ^ 16) (Bpf.elems m') = Some 1.
Proof.
  intros Hfd Hm Hroom Hin Hbig.
  destruct (update_ports_spec K ports s fd id m Hfd Hm) as (s' & Hrun & Hm' & Ho').
  exists s', (foldl put_port m (tokens (delim K) ports)).
  do 2 (split; [done|]).
  assert (Hport : port_of tok = value (strtol (trim_space tok)) mod 2 ^ 16)
    by apply u16_int.
  split; [done|]. rewrite <- Hport. by apply put_port_lookup.
Qed.

Lemma update_ports_truncates_large_ports_witness :
  exists s' m',
    update_ports K0 "22, 70000" (state0 [] (100, 0) []) = Ret () s' /\
    map_at s' 8 4 m' /\
    port_of " 70000" = value (strtol (trim_space " 70000")) mod 2 ^ 16 /\
    Bpf.lookup (value (strtol (trim_space " 70000")) mod 2 ^ 16) (Bpf.elems m') = Some 1.
Proof.
  apply (update_ports_truncates_large_ports K0 (state0 [] (100, 0) []) 8 4%nat (Bpf.Map 50 [])
           "22, 70000" " 70000").
  - reflexivity.
  - by vm_compute.
  - vm_compute. lia.
  - compute_done.
  - by vm_compute.
Defined.

(** The claim C10 as stated fails when the port map is full.  Here the map
    takes two entries; the third token of the list has the value 70000,
    nothing is written for it, not a warning either, and the key
    [70000 mod 2^16 = 4464] is not in the map. *)
Lemma update_ports_drops_large_port_when_full :
  let s := state_ports [] in
  "70000" ∈ tokens (delim K0) "80,443,70000" /\
  65535 < value (strtol (trim_space "70000")) /\
  value (strtol (trim_space "70000")) mod 2 ^ 16 = 4464 /\
  exists s', update_ports K0 "80,443,70000" s = Ret () s' /\
             out s' = [] /\
             contents s' 8 = Some [(443, 1); (80, 1)] /\
             (contents s' 8 ≫= Bpf.lookup 4464) = None.
Proof.
  split; [compute_done|]. do 2 (split; [by vm_compute|]).
  eexists. split; [by vm_compute|]. split; [by vm_compute|]. split; by vm_compute.
Qed.

Example large_port_key :
  value (strtol (trim_space " 70000")) = 70000 /\ port_of " 70000" = 4464.
Proof. by vm_compute. Qed.

(** C7: with the comma as delimiter, the list ["80, 443 ,8080"] leaves an
    empty port map with the three keys 80, 443 and 8080, each with flag 1,
    and nothing else; no warning is written. *)
Theorem update_ports_80_443_8080 K s fd id cap :
  delim K = "," ->
  nth 4 (map_fd s) 0 = fd -> map_at s fd id (Bpf.Map cap []) -> (3 <= cap)%nat ->
  exists s',
    update_ports K "80, 443 ,8080" s = Ret () s' /\
    map_at s' fd id (Bpf.Map cap [(8080, 1); (443, 1); (80, 1)]) /\
    out s' = out s.
Proof.
  intros Hdelim Hfd Hm Hcap.
  destruct (update_ports_spec K "80, 443 ,8080" s fd id _ Hfd Hm) as (s' & Hrun & Hm' & Ho').
  rewrite Hdelim in Hm', Ho'.
  replace (tokens "," "80, 443 ,8080") with ["80"; " 443 "; "8080"] in Hm', Ho'
    by (by vm_compute).
  exists s'. split; [done|]. split.
  - replace (Bpf.Map cap [(8080, 1); (443, 1); (80, 1)])
      with (foldl put_port (Bpf.Map cap []) ["80"; " 443 "; "8080"]); [done|].
    cbn [foldl]. unfold put_port.
    replace (port_of "80") with 80 by (by vm_compute).
    replace (port_of " 443 ") with 443 by (by vm_compute).
    replace (port_of "8080") with 8080 by (by vm_compute).
    unfold Bpf.update. simpl. rewrite bool_decide_eq_true_2 by lia. simpl.
    rewrite bool_decide_eq_true_2 by (simpl; lia). simpl.
    by rewrite bool_decide_eq_true_2 by (simpl; lia).
  - rewrite Ho'. replace (port_warnings _) with (@nil event) by (by vm_compute).
    by rewrite app_nil_r.
Qed.

Lemma update_ports_80_443_8080_witness :
  exists s',
    update_ports K0 "80, 443 ,8080" (state0 [] (100, 0) []) = Ret () s' /\
    map_at s' 8 4 (Bpf.Map 50 [(8080, 1); (443, 1); (80, 1)]) /\
    out s' = [].
Proof.
  apply (update_ports_80_443_8080 K0 (state0 [] (100, 0) []) 8 4%nat 50%nat).
  - reflexivity.
  - reflexivity.
  - by vm_compute.
  - lia.
Defined.

(** ** Teardown *)

Lemma xdp_unlink_bpf_chain_spec K path s :
  exists r s', xdp_unlink_bpf_chain K path s = Ret r s' /\
               out s' = out s ++ unlink_events K path s /\
               info s' = info s /\ sys s' = sys s.
Proof.
  unfold xdp_unlink_bpf_chain, unlink_events, mbind, M_bind, bpf_obj_get,
    bpf_map_delete_elem, remove, when, log_err, log_warn, emit, modify, mret, M_ret.
  destruct s as [h [objs fds fs pas prs] clk dp ifx inf prev vb pfd mfd o]; simpl.
  destruct (fs !! path) as [id|] eqn:Hpin; simpl.
  - destruct (0 <? Bpf.fresh_fd fds) eqn:Hfd; simpl.
    + rewrite lookup_insert_eq. unfold Bpf.table. simpl.
      destruct (objs !! id) as [m|] eqn:Hobj; simpl;
        [destruct (Bpf.delete 0 (Bpf.elems m)) as [l|] eqn:Hdel; simpl
        |destruct (pas !! id) as [a|] eqn:Hpa; simpl;
         [destruct (Bpf.delete 0 (Bpf.elems a)) as [l|] eqn:Hdel; simpl|]];
        destruct (fs !! xdp_rl_ingress_next_prog K); simpl;
        eexists _, _; (split; [reflexivity|]); simpl;
        by rewrite ?app_nil_r, <- ?app_assoc.
    + destruct (fs !! xdp_rl_ingress_next_prog K); simpl;
        eexists _, _; (split; [reflexivity|]); simpl;
        by rewrite ?app_nil_r, <- ?app_assoc.
  - destruct (fs !! xdp_rl_ingress_next_prog K); simpl;
      eexists _, _; (split; [reflexivity|]); simpl;
      by rewrite ?app_nil_r, <- ?app_assoc.
Qed.

Lemma close_maps_spec n : forall i s,
  exists s', close_maps i n s = Ret () s' /\
             out s' = out s /\ info s' = info s /\ sys s' = sys s.
Proof.
  induction n as [|n IH]; intros i s; [by exists s|].
  cbn [close_maps]. mstep.
  assert (exists r s1, close (nth i (map_fd s) 0) s = Ret r s1 /\
                       out s1 = out s /\ info s1 = info s /\ sys s1 = sys s)
    as (r & s1 & Hc & Ho & Hi & Hs).
  { unfold close. destruct (Bpf.fds (kern s) !! _); eexists _, _; (split; [reflexivity|]);
      by destruct s. }
  erewrite bind_ret by exact Hc.
  destruct (IH (S i) s1) as (s' & Hrun & Ho' & Hi' & Hs').
  exists s'. split; [done|]. by rewrite Ho', Hi', Hs'.
Qed.

(** The two failures [xdp_unlink_bpf_chain] looks at are logged. *)
Lemma unlink_events_failures K path s :
  (Bpf.bpffs (kern s) !! path = None ->
   Log LOG_ERR "Previous program's map is not found %s" [AStr path]
   ∈ unlink_events K path s) /\
  (Bpf.bpffs (kern s) !! xdp_rl_ingress_next_prog K = None ->
   Log LOG_WARN "Failed to remove map file - xdp_rl_ingress_next_prog" []
   ∈ unlink_events K path s).
Proof.
  unfold unlink_events. split; intros ->; rewrite elem_of_app.
  - left. apply list_elem_of_here.
  - right. apply list_elem_of_here.
Qed.

(** C8, as amended: whatever fails during teardown, the handler ends the
    process with status 0.  What it logs is the signal and, from
    [xdp_unlink_bpf_chain], the failure to unlink from the previous
    program's map and the failure to remove the pinned file; the results of
    [close] on the map descriptors and of [fclose] on the log file are not
    looked at, and nothing is logged for them. *)
Theorem signal_handler_exits_0 K signal s :
  exists s', signal_handler K signal s = Exit 0 s' /\
             out s' = out s ++ Log LOG_INFO "Received signal %d" [AInt signal]
                               :: unlink_events K (prev_prog_map s) s.
Proof.
  unfold signal_handler. mstep. mstep.
  set (s0 := set_out _ s).
  destruct (xdp_unlink_bpf_chain_spec K (prev_prog_map s0) s0) as (r & s1 & Hu & Ho1 & Hi1 & Hs1).
  erewrite bind_ret by exact Hu.
  destruct (close_maps_spec (MAP_COUNT K) 0%nat s1) as (s2 & Hc & Ho2 & Hi2 & Hs2).
  erewrite bind_ret by exact Hc. mstep.
  assert (Hev : out s2 = out s ++ Log LOG_INFO "Received signal %d" [AInt signal]
                                  :: unlink_events K (prev_prog_map s) s).
  { rewrite Ho2, Ho1. unfold s0. rewrite out_set_out, <- app_assoc. simpl.
    by destruct s. }
  destruct (info s2); simpl.
  - eexists. split; [reflexivity|]. simpl. by destruct s2.
  - eexists. split; [reflexivity|]. done.
Qed.

(** The claim C8 as stated fails in its last part: here each [close]
    fails and [fclose] fails, the process exits with status 0, and the log
    holds the line about the signal and nothing else. *)
Lemma teardown_close_failures_not_logged :
  Forall (fun fd => exists s', close fd state_closed = Ret (-1) s') (map_fd state_closed) /\
  (exists s', fclose state_closed = Ret (-1) s') /\
  exists s', signal_handler K0 15 state_closed = Exit 0 s' /\
             out s' = [Log LOG_INFO "Received signal %d" [AInt 15]].
Proof.
  split; [|split].
  - repeat constructor; eexists; by vm_compute.
  - eexists. by vm_compute.
  - eexists. split; by vm_compute.
Qed.

(** ** Whole runs of [main] *)

(** The scenario of the specification: rate 100 and a port list.  [main]
    gets to its loop; the config map holds the rate, both counters hold 0,
    the port map holds the ports and the previous program's array holds
    the program of [prog_fd[0]], whose id is 164. *)
Example main_reaches_loop :
  exists s', main K0 "ratelimiting" opts0 (boot host0 (kern0 [])) = Ret () s' /\
             contents s' 4 = Some [(0, 100)] /\
             contents s' 6 = Some [(0, 0)] /\
             contents s' 7 = Some [(0, 0)] /\
             contents s' 8 = Some [(8080, 1); (443, 1); (80, 1)] /\
             Bpf.elems <$> pinned_prog_array s' "/sys/fs/bpf/prev" = Some [(0, 164)].
Proof. eexists. split; [by vm_compute|]. by vm_compute. Qed.

(** Without [--map-name] the path of the previous map is empty, nothing is
    pinned there, and the process exits with status 1. *)
Example main_without_map_name :
  exists s', main K0 "ratelimiting" [("r"%char, Some "100")] (boot host0 (kern0 []))
             = Exit 1 s' /\
             last (out s')
             = Some (Log LOG_ERR "Failed to fetch previous xdp function in the chain" []).
Proof. eexists. split; by vm_compute. Qed.

Example main_rlimit_failure :
  exists s', main K0 "ratelimiting" opts0
               (boot (Host (-1) 0 [3] [4; 5; 6; 7; 8; 9] true 0 ∅ 1%nat) (kern0 []))
             = Exit 1 s' /\
             last (out s') = Some (Stderr "setrlimit(RLIMIT_MEMLOCK)").
Proof. eexists. split; by vm_compute. Qed.

Example main_load_failure :
  exists s', main K0 "ratelimiting" opts0
               (boot (Host 0 (-1) [] [] true 0 ∅ 1%nat) (kern0 []))
             = Exit 1 s' /\
             last (out s') = Some (Log LOG_ERR "Failed to load bpf program" []).
Proof. eexists. split; by vm_compute. Qed.

(** One round of the loop, one hundred seconds after boot: the entry of
    sixty seconds ago goes, the entry of one second ago stays. *)
Example steady_round_sweeps :
  exists s', steady_round K0 5 (state0 [(100000000000, 1); (159000000000, 1)] (100, 0) [])
             = Ret () s' /\
             window s' = Some [(159000000000, 1)].
Proof. eexists. split; by vm_compute. Qed.

(** The assumption of [sweep_visits_all_keys] and of its siblings on what
    the XDP program inserts is needed: when a key the sweep has just
    deleted is inserted again behind the other keys, the next call finds
    the cursor at the end of the map and the sweep ends; here the key
    [98500000000] is never returned. *)
Example sweep_misses_key_on_reinsertion :
  let s := state0 [(1000000000, 1); (98500000000, 2)] (100, 0)
                  [[]; [Bpf.Ins 1 1000000000 1]] in
  exists s', delete_stale_entries K0 3 s = Ret () s' /\
             out s' = sweep_events s
                        [NextKey 5 0 (Some 1000000000);
                         Log LOG_DEBUG "Deleting stale map entry %llu" [AInt 1000000000];
                         NextKey 5 1000000000 None] /\
             window s' = Some [(98500000000, 2); (1000000000, 1)].
Proof. eexists. split; [by vm_compute|]. by vm_compute. Qed.

(** * Further properties of the program *)

(** ** [get_length] and [trim_space] *)

(** X1: [get_length] counts the characters of the string; it is 0 for the
    empty string only, which is what [main] uses it for. *)
Theorem get_length_spec str :
  get_length str = Z.of_nat (String.length str) /\
  (get_length str = 0 <-> str = EmptyString).
Proof.
  assert (H : get_length str = Z.of_nat (String.length str)).
  { induction str as [|c r IH]; simpl; [done|]. rewrite IH. lia. }
  split; [done|]. rewrite H. destruct str; simpl; [done|]. split; [lia|done].
Qed.

Lemma append_cons c r s : String c r +:+ s = String c (r +:+ s).
Proof. reflexivity. Qed.

Lemma append_empty_l s : EmptyString +:+ s = s.
Proof. reflexivity. Qed.

Lemma append_empty_r s : s +:+ EmptyString = s.
Proof. induction s as [|c r IH]; [done|]. by rewrite append_cons, IH. Qed.

Lemma skip_space_only_space pre s :
  only_space pre = true -> skip_space (pre +:+ s) = skip_space s.
Proof.
  induction pre as [|c r IH]; [done|]. rewrite append_cons. simpl.
  intros [Hc Hr]%andb_prop. rewrite Hc. by apply IH.
Qed.

Lemma skip_space_all post : only_space post = true -> skip_space post = EmptyString.
Proof.
  induction post as [|c r IH]; simpl; [done|].
  intros [-> Hr]%andb_prop. by apply IH.
Qed.

Lemma skip_space_head s : head_space s = false -> skip_space s = s.
Proof. destruct s as [|c r]; simpl; [done|]. by intros ->. Qed.

Lemma head_space_skip_space s : head_space (skip_space s) = false.
Proof.
  induction s as [|c r IH]; simpl; [done|].
  destruct (isspace c) eqn:Hc; [done|]. simpl. by rewrite Hc.
Qed.

Lemma drop_trailing_only_space post :
  only_space post = true -> drop_trailing_space post = EmptyString.
Proof.
  induction post as [|c r IH]; simpl; [done|].
  intros [Hc Hr]%andb_prop. by rewrite IH, Hc.
Qed.

Lemma drop_trailing_space_app r post :
  only_space post = true -> drop_trailing_space (r +:+ post) = drop_trailing_space r.
Proof.
  intros Hp. induction r as [|c r IH].
  - by apply drop_trailing_only_space.
  - rewrite append_cons. simpl. by rewrite IH.
Qed.

Lemma drop_trailing_space_fixed r : last_space r = false -> drop_trailing_space r = r.
Proof.
  induction r as [|c r IH]; [done|].
  destruct r as [|c' r'].
  - simpl. by intros ->.
  - intros Hl. change (last_space (String c' r') = false) in Hl.
    cbn [drop_trailing_space]. cbn [drop_trailing_space] in IH. rewrite (IH Hl). done.
Qed.

Lemma last_space_drop_trailing r : last_space (drop_trailing_space r) = false.
Proof.
  induction r as [|c r IH]; [done|].
  cbn [drop_trailing_space].
  destruct (drop_trailing_space r) as [|c' r'] eqn:Hd.
  - destruct (isspace c) eqn:Hc; [done|]. simpl. by rewrite Hc.
  - exact IH.
Qed.

(** X2: [trim_space] removes the white space around a string and nothing
    else: white space inside the string stays. *)
Theorem trim_space_spec pre core post :
  only_space pre = true -> only_space post = true ->
  head_space core = false -> last_space core = false ->
  trim_space (pre +:+ core +:+ post) = core.
Proof.
  intros Hpre Hpost Hh Hl. unfold trim_space.
  rewrite skip_space_only_space by done.
  destruct core as [|c r].
  - rewrite append_empty_l. by rewrite skip_space_all.
  - rewrite append_cons. simpl in *. rewrite Hh. rewrite drop_trailing_space_app by done.
    f_equal. apply drop_trailing_space_fixed.
    destruct r; [done|]. exact Hl.
Qed.

Lemma trim_space_spec_witness :
  trim_space (" " +:+ "80 81" +:+ "  ") = "80 81".
Proof. by apply trim_space_spec. Defined.

(** X3: What [trim_space] returns neither begins nor ends with white space,
    and trimming it again changes nothing. *)
Theorem trim_space_trimmed str :
  head_space (trim_space str) = false /\
  last_space (trim_space str) = false /\
  trim_space (trim_space str) = trim_space str.
Proof.
  assert (Hh : head_space (trim_space str) = false).
  { unfold trim_space. pose proof (head_space_skip_space str) as H.
    by destruct (skip_space str). }
  assert (Hl : last_space (trim_space str) = false).
  { unfold trim_space. pose proof (head_space_skip_space str) as H.
    destruct (skip_space str) as [|c r]; [done|].
    pose proof (last_space_drop_trailing r) as Hd.
    destruct (drop_trailing_space r); [exact H|exact Hd]. }
  do 2 (split; [done|]).
  pose proof (trim_space_spec EmptyString (trim_space str) EmptyString eq_refl eq_refl Hh Hl)
    as H.
  by rewrite append_empty_l, append_empty_r in H.
Qed.

(** ** [strtoi] on decimal notation *)

Lemma digit_char_spec d :
  0 <= d < 10 ->
  isdigit (digit_char d) = true /\ isspace (digit_char d) = false /\
  digit_value (digit_char d) = d /\
  digit_char d <> "-"%char /\ digit_char d <> "+"%char.
Proof.
  intros Hd.
  assert (d = 0 \/ d = 1 \/ d = 2 \/ d = 3 \/ d = 4 \/ d = 5 \/ d = 6 \/ d = 7 \/ d = 8 \/ d = 9)
    as Hc by lia.
  repeat destruct Hc as [->|Hc]; try subst d; by vm_compute.
Qed.

Lemma read_digits_to_digits f : forall n acc,
  0 <= n -> (Z.to_nat n < f)%nat ->
  exists k, 0 <= k /\
            forall a, read_digits (to_digits f n acc) a = read_digits acc (a * 10 ^ k + n).
Proof.
  induction f as [|f IH]; intros n acc Hn Hf; [lia|].
  cbn [to_digits].
  pose proof (Z.mod_pos_bound n 10 ltac:(lia)) as Hd.
  destruct (digit_char_spec _ Hd) as (Hdig & _ & Hval & _).
  destruct (Z.ltb_spec n 10) as [Hlt|Hge].
  - exists 1. split; [lia|]. intros a. cbn [read_digits]. rewrite Hdig, Hval.
    rewrite Z.mod_small by lia. f_equal. lia.
  - assert (Hdiv : 0 <= n / 10 < n) by (split; [apply Z.div_pos; lia|apply Z.div_lt; lia]).
    destruct (IH (n / 10) (String (digit_char (n mod 10)) acc)) as (k & Hk & Hread); [lia|lia|].
    exists (k + 1). split; [lia|]. intros a. rewrite Hread.
    cbn [read_digits]. rewrite Hdig, Hval. f_equal.
    rewrite Z.pow_add_r by lia. pose proof (Z.div_mod n 10 ltac:(lia)). lia.
Qed.

Lemma to_digits_head f : forall n acc,
  0 <= n -> (Z.to_nat n < f)%nat ->
  exists d r, 0 <= d < 10 /\ to_digits f n acc = String (digit_char d) r.
Proof.
  induction f as [|f IH]; intros n acc Hn Hf; [lia|].
  cbn [to_digits].
  pose proof (Z.mod_pos_bound n 10 ltac:(lia)) as Hd.
  destruct (Z.ltb_spec n 10) as [Hlt|Hge]; [by eauto|].
  assert (Hdiv : 0 <= n / 10 < n) by (split; [apply Z.div_pos; lia|apply Z.div_lt; lia]).
  apply IH; lia.
Qed.

Lemma last_space_to_digits f : forall n acc,
  acc <> EmptyString -> last_space (to_digits f n acc) = last_space acc.
Proof.
  induction f as [|f IH]; intros n acc Hacc; [done|].
  cbn [to_digits].
  assert (Hl : last_space (String (digit_char (n mod 10)) acc) = last_space acc)
    by (by destruct acc).
  destruct (n <? 10); [done|]. by rewrite IH.
Qed.

Lemma decimal_head n :
  0 <= n -> exists d r, 0 <= d < 10 /\ decimal n = String (digit_char d) r.
Proof. intros Hn. apply to_digits_head; lia. Qed.

Lemma decimal_read n : 0 <= n -> read_digits (decimal n) 0 = (n, EmptyString).
Proof.
  intros Hn. destruct (read_digits_to_digits (S (Z.to_nat n)) n EmptyString) as (k & _ & H);
    [lia..|]. unfold decimal. by rewrite H.
Qed.

Lemma decimal_trimmed n :
  0 <= n -> head_space (decimal n) = false /\ last_space (decimal n) = false.
Proof.
  intros Hn. split.
  - destruct (decimal_head n Hn) as (d & r & Hd & ->). simpl.
    by destruct (digit_char_spec d Hd) as (_ & ? & _).
  - unfold decimal. cbn [to_digits].
    pose proof (Z.mod_pos_bound n 10 ltac:(lia)) as Hd.
    destruct (digit_char_spec _ Hd) as (_ & Hsp & _).
    destruct (n <? 10); [done|]. by rewrite last_space_to_digits.
Qed.

Lemma strtol_decimal n :
  0 <= n ->
  strtol (decimal n)
  = if n <=? CInt.LONG_MAX then Strtol n EmptyString false false
    else Strtol CInt.LONG_MAX EmptyString true false.
Proof.
  intros Hn. unfold strtol.
  rewrite skip_space_head by (by apply decimal_trimmed).
  pose proof (decimal_read n Hn) as Hread.
  destruct (decimal_head n Hn) as (d & r & Hd & Hdec). rewrite Hdec in *.
  destruct (digit_char_spec d Hd) as (Hdig & _ & _ & Hm & Hp).
  assert (Hsign : match String (digit_char d) r with
                  | String "-" r0 => (true, r0)
                  | String "+" r0 => (false, r0)
                  | _ => (false, String (digit_char d) r)
                  end = (false, String (digit_char d) r)).
  { revert Hm Hp. generalize (digit_char d). intros c Hm Hp.
    destruct c as [[] [] [] [] [] [] [] []]; try done. }
  rewrite Hsign, Hdig, Hread.
  unfold CInt.LONG_MAX, CInt.LONG_MIN.
  destruct (Z.leb_spec n (2 ^ 63 - 1)), (Z.ltb_spec (2 ^ 63 - 1) n); try lia; [|done].
  destruct (Z.ltb_spec n (- 2 ^ 63)); [lia|done].
Qed.

Lemma strtol_minus_decimal n :
  0 <= n ->
  strtol (String "-" (decimal n))
  = if - n <? CInt.LONG_MIN then Strtol CInt.LONG_MIN EmptyString true false
    else Strtol (- n) EmptyString false false.
Proof.
  intros Hn. unfold strtol. cbn [skip_space]. change (isspace "-") with false. cbv iota.
  pose proof (decimal_read n Hn) as Hread.
  destruct (decimal_head n Hn) as (d & r & Hd & Hdec). rewrite Hdec in *.
  destruct (digit_char_spec d Hd) as (Hdig & _).
  rewrite Hdig, Hread.
  unfold CInt.LONG_MAX, CInt.LONG_MIN.
  destruct (Z.ltb_spec (2 ^ 63 - 1) (- n)); [lia|].
  by destruct (Z.ltb_spec (- n) (- 2 ^ 63)).
Qed.

Lemma strtol_signed_decimal n :
  strtol (signed_decimal n)
  = if n <? CInt.LONG_MIN then Strtol CInt.LONG_MIN EmptyString true false
    else if n <=? CInt.LONG_MAX then Strtol n EmptyString false false
    else Strtol CInt.LONG_MAX EmptyString true false.
Proof.
  unfold signed_decimal. destruct (Z.ltb_spec n 0) as [Hneg|Hpos].
  - rewrite strtol_minus_decimal by lia. rewrite Z.opp_involutive.
    destruct (Z.ltb_spec n CInt.LONG_MIN); [done|].
    unfold CInt.LONG_MAX. destruct (Z.leb_spec n (2 ^ 63 - 1)); [done|lia].
  - rewrite strtol_decimal by lia. unfold CInt.LONG_MIN.
    destruct (Z.ltb_spec n (- 2 ^ 63)); [lia|done].
Qed.

Lemma int_small n : - 2 ^ 31 <= n < 2 ^ 31 -> CInt.int n = n.
Proof.
  intros Hn. unfold CInt.int. destruct (Z.ltb_spec (n mod 2 ^ 32) (2 ^ 31)) as [H|H].
  - destruct (Z.le_gt_cases 0 n); [by rewrite Z.mod_small in * by lia|].
    rewrite <- (Z.mod_add n 1) in H by lia. rewrite Z.mod_small in H by lia. lia.
  - destruct (Z.le_gt_cases 0 n) as [Hp|Hp]; [rewrite Z.mod_small in * by lia; lia|].
    rewrite <- (Z.mod_add n 1) by lia. rewrite Z.mod_small by lia. lia.
Qed.

(** X4: [strtoi] reads a decimal integer in the range of [long] without a
    warning and returns its low 32 bits: the number itself when it fits
    [int], a silently truncated value otherwise. *)
Theorem strtoi_signed_decimal n s :
  CInt.LONG_MIN <= n <= CInt.LONG_MAX ->
  strtoi (signed_decimal n) s = Ret (CInt.int n) s /\
  (- 2 ^ 31 <= n < 2 ^ 31 -> CInt.int n = n).
Proof.
  intros [Hlo Hhi]. split; [|apply int_small].
  unfold strtoi. rewrite strtol_signed_decimal.
  destruct (Z.ltb_spec n CInt.LONG_MIN); [lia|].
  destruct (Z.leb_spec n CInt.LONG_MAX); [|lia]. reflexivity.
Qed.

Lemma strtoi_signed_decimal_witness :
  strtoi (signed_decimal 4294967396) (state0 [] (0, 0) [])
  = Ret (CInt.int 4294967396) (state0 [] (0, 0) []) /\
  (- 2 ^ 31 <= 4294967396 < 2 ^ 31 -> CInt.int 4294967396 = 4294967396).
Proof. apply strtoi_signed_decimal. by vm_compute. Defined.

(** X5: Outside the range of [long], [strtoi] writes its warning and returns
    the low 32 bits of the bound [strtol] stops at: -1 on overflow, 0 on
    underflow. *)
Theorem strtoi_out_of_range n s :
  n < CInt.LONG_MIN \/ CInt.LONG_MAX < n ->
  strtoi (signed_decimal n) s
  = Ret (if n <? 0 then 0 else -1) (set_out (out s ++ [Stderr "out of range"]) s).
Proof.
  intros Hn. unfold strtoi. rewrite strtol_signed_decimal.
  destruct (Z.ltb_spec n CInt.LONG_MIN) as [Hlo|Hlo].
  - destruct (Z.ltb_spec n 0); [reflexivity|]. unfold CInt.LONG_MIN in Hlo. lia.
  - destruct (Z.leb_spec n CInt.LONG_MAX); [lia|].
    destruct (Z.ltb_spec n 0); [|reflexivity]. unfold CInt.LONG_MAX in *. lia.
Qed.

Lemma strtoi_out_of_range_witness :
  strtoi (signed_decimal 9223372036854775808) (state0 [] (0, 0) [])
  = Ret (-1) (set_out [Stderr "out of range"] (state0 [] (0, 0) [])).
Proof.
  apply (strtoi_out_of_range 9223372036854775808 (state0 [] (0, 0) [])).
  right. by vm_compute.
Defined.

(** ** Tokens of the port list *)

Lemma u16_small n : 0 <= n < 2 ^ 16 -> CInt.u16 n = n.
Proof. intros Hn. unfold CInt.u16. by apply Z.mod_small. Qed.

Lemma signed_decimal_trimmed n :
  head_space (signed_decimal n) = false /\ last_space (signed_decimal n) = false.
Proof.
  unfold signed_decimal. destruct (Z.ltb_spec n 0).
  - destruct (decimal_trimmed (- n)) as [_ Hl]; [lia|]. split; [done|].
    destruct (decimal_head (- n)) as (d & r & _ & Hdec); [lia|].
    rewrite Hdec in *. exact Hl.
  - by apply decimal_trimmed.
Qed.

(** X6: A token that is a decimal integer in the range of [long], with any
    white space around it, is taken without a warning, and its key is the
    number modulo 2^16: a port from 0 to 65535 is its own key, a negative
    number [-n] becomes [65536 - n]. *)
Theorem port_of_signed_decimal pre post n :
  only_space pre = true -> only_space post = true ->
  CInt.LONG_MIN <= n <= CInt.LONG_MAX ->
  malformed (pre +:+ signed_decimal n +:+ post) = false /\
  port_of (pre +:+ signed_decimal n +:+ post) = n mod 2 ^ 16 /\
  (0 <= n <= 65535 -> port_of (pre +:+ signed_decimal n +:+ post) = n) /\
  (- 65535 <= n < 0 -> port_of (pre +:+ signed_decimal n +:+ post) = 65536 + n).
Proof.
  intros Hpre Hpost [Hlo Hhi].
  destruct (signed_decimal_trimmed n) as [Hh Hl].
  assert (Hs : strtol (trim_space (pre +:+ signed_decimal n +:+ post))
               = Strtol n EmptyString false false).
  { rewrite trim_space_spec by done. rewrite strtol_signed_decimal.
    destruct (Z.ltb_spec n CInt.LONG_MIN); [lia|].
    by destruct (Z.leb_spec n CInt.LONG_MAX); [|lia]. }
  assert (Hport : port_of (pre +:+ signed_decimal n +:+ post) = n mod 2 ^ 16).
  { unfold port_of. rewrite Hs. simpl. apply u16_int. }
  split; [unfold malformed; by rewrite Hs|]. split; [done|].
  rewrite Hport. split; intros Hn.
  - apply Z.mod_small. lia.
  - rewrite <- (Z.mod_add n 1) by lia. rewrite Z.mod_small; lia.
Qed.

Lemma port_of_signed_decimal_witness :
  malformed (" " +:+ signed_decimal (-5) +:+ "  ") = false /\
  port_of (" " +:+ signed_decimal (-5) +:+ "  ") = (-5) mod 2 ^ 16 /\
  (0 <= -5 <= 65535 -> port_of (" " +:+ signed_decimal (-5) +:+ "  ") = -5) /\
  (- 65535 <= -5 < 0 -> port_of (" " +:+ signed_decimal (-5) +:+ "  ") = 65536 + -5).
Proof. apply port_of_signed_decimal; by vm_compute. Defined.

Lemma tokens_nonempty delim s : exists t ts, tokens delim s = t :: ts.
Proof.
  destruct s as [|c r]; simpl; [by eauto|].
  destruct (is_delim delim c); [by eauto|]. destruct (tokens delim r); by eauto.
Qed.

(** X7: The loop of [update_ports] runs once more than there are delimiters
    in the list, and no token it sees holds a delimiter. *)
Theorem tokens_count delim s :
  length (tokens delim s) = S (count_delims delim s) /\
  Forall (fun t => has_delim delim t = false) (tokens delim s).
Proof.
  induction s as [|c r [IHn IHd]]; simpl.
  - split; [done|]. by repeat constructor.
  - destruct (is_delim delim c) eqn:Hc; simpl.
    + split; [by rewrite IHn|]. by constructor.
    + destruct (tokens delim r) as [|t ts]; [done|].
      split; [done|]. apply Forall_cons in IHd as [Ht Hts].
      constructor; [|done]. simpl. by rewrite Hc.
Qed.

Lemma is_delim_single d c : is_delim (String d EmptyString) c = bool_decide (c = d).
Proof.
  unfold is_delim. simpl. apply bool_decide_ext. rewrite elem_of_cons, elem_of_nil. tauto.
Qed.

Lemma join_cons d t l : l <> [] -> join d (t :: l) = t +:+ String d (join d l).
Proof. by destruct l. Qed.

(** X8: With a single delimiter, the tokens joined by the delimiter are the
    list again: the loop loses no character of the list. *)
Theorem tokens_join d s : join d (tokens (String d EmptyString) s) = s.
Proof.
  induction s as [|c r IH]; [done|]. cbn [tokens].
  destruct (tokens_nonempty (String d EmptyString) r) as (t & ts & Ht).
  rewrite Ht in *. rewrite is_delim_single. case_bool_decide as Hc.
  - subst c. rewrite join_cons by done. by rewrite append_empty_l, IH.
  - destruct ts as [|t' ts]; [simpl in *; by rewrite IH|].
    rewrite join_cons in * by done. by rewrite append_cons, IH.
Qed.

Lemma tokens_no_delim delim t : has_delim delim t = false -> tokens delim t = [t].
Proof.
  induction t as [|c r IH]; simpl; [done|].
  intros [Hc Hr]%orb_false_elim. by rewrite Hc, IH.
Qed.

Lemma tokens_app delim t d rest :
  has_delim delim t = false -> is_delim delim d = true ->
  tokens delim (t +:+ String d rest) = t :: tokens delim rest.
Proof.
  intros Ht Hd. induction t as [|c r IH].
  - rewrite append_empty_l. simpl. by rewrite Hd.
  - rewrite append_cons. simpl in *. apply orb_false_elim in Ht as [Hc Hr].
    by rewrite Hc, IH.
Qed.

(** X9: Conversely, a list made of tokens without a delimiter, joined by the
    delimiter, is split into these tokens. *)
Theorem tokens_of_join d l :
  l <> [] -> Forall (fun t => has_delim (String d EmptyString) t = false) l ->
  tokens (String d EmptyString) (join d l) = l.
Proof.
  intros Hne Hl. induction l as [|t l IH]; [done|].
  apply Forall_cons in Hl as [Ht Hl].
  destruct l as [|t' l]; [by apply tokens_no_delim|].
  rewrite join_cons by done. rewrite tokens_app; [|done|by rewrite is_delim_single, bool_decide_eq_true_2].
  f_equal. by apply IH.
Qed.

Lemma tokens_of_join_witness :
  tokens "," (join ","%char ["80"; " 443 "; ""; "8080"]) = ["80"; " 443 "; ""; "8080"].
Proof. apply (tokens_of_join ","%char); [done|]. compute_done. Defined.

(** ** [update_ports] *)

Lemma put_port_frame toks : forall m k,
  (forall tok, tok ∈ toks -> port_of tok <> k) ->
  Bpf.lookup k (Bpf.elems (foldl put_port m toks)) = Bpf.lookup k (Bpf.elems m).
Proof.
  induction toks as [|t toks IH]; intros m k Hk; [done|].
  simpl. rewrite IH by (intros tok Hin; apply Hk; by apply list_elem_of_further).
  unfold put_port. destruct (Bpf.update (port_of t) 1 m) as [m'|] eqn:Hu; simpl; [|done].
  eapply update_lookup_ne; [done|]. intros ->. apply (Hk t); [apply list_elem_of_here|done].
Qed.

(** X10: [update_ports] only adds ports: the flag of a key that no token of
    the list stands for is what it was, present or absent. *)
Theorem update_ports_keeps_other_ports K s fd id m ports k :
  nth 4 (map_fd s) 0 = fd -> map_at s fd id m ->
  (forall tok, tok ∈ tokens (delim K) ports -> port_of tok <> k) ->
  exists s' m',
    update_ports K ports s = Ret () s' /\ map_at s' fd id m' /\
    Bpf.lookup k (Bpf.elems m') = Bpf.lookup k (Bpf.elems m).
Proof.
  intros Hfd Hm Hk.
  destruct (update_ports_spec K ports s fd id m Hfd Hm) as (s' & Hrun & Hm' & _).
  exists s', (foldl put_port m (tokens (delim K) ports)).
  do 2 (split; [done|]). by apply put_port_frame.
Qed.

Lemma put_port_full toks : forall m,
  (Bpf.max_entries m <= length (Bpf.elems m))%nat ->
  (forall tok, tok ∈ toks -> Bpf.lookup (port_of tok) (Bpf.elems m) = None) ->
  foldl put_port m toks = m.
Proof.
  induction toks as [|t toks IH]; intros m Hfull Hnew; [done|].
  simpl. assert (put_port m t = m) as ->.
  { unfold put_port, Bpf.update. rewrite (Hnew t) by apply list_elem_of_here.
    by rewrite bool_decide_eq_false_2 by lia. }
  apply IH; [done|]. intros tok Hin. apply Hnew. by apply list_elem_of_further.
Qed.

(** X11: The result of [bpf_map_update_elem] is not looked at: when the port
    map is full, [update_ports] returns as usual, the ports of the list are
    not in the map, and nothing but the warnings of [strtoi] is written. *)
Theorem update_ports_full_map K s fd id m ports :
  nth 4 (map_fd s) 0 = fd -> map_at s fd id m ->
  (Bpf.max_entries m <= length (Bpf.elems m))%nat ->
  (forall tok, tok ∈ tokens (delim K) ports ->
               Bpf.lookup (port_of tok) (Bpf.elems m) = None) ->
  exists s',
    update_ports K ports s = Ret () s' /\ map_at s' fd id m /\
    out s' = out s ++ port_warnings (tokens (delim K) ports).
Proof.
  intros Hfd Hm Hfull Hnew.
  destruct (update_ports_spec K ports s fd id m Hfd Hm) as (s' & Hrun & Hm' & Ho').
  exists s'. split; [done|]. split; [|done].
  by rewrite put_port_full in Hm'.
Qed.

Lemma tokens_trailing_delim delim p d :
  is_delim delim d = true ->
  exists t ts, tokens delim (p +:+ String d EmptyString) = t :: ts /\
               last ts = Some EmptyString.
Proof.
  intros Hd. induction p as [|c r (t & ts & IH & Hl)].
  - rewrite append_empty_l. simpl. rewrite Hd. by eexists _, _.
  - rewrite append_cons. simpl. rewrite IH.
    destruct (is_delim delim c); eexists _, _; (split; [done|]); [|done].
    destruct ts; [done|]. exact Hl.
Qed.

(** X12: A list that ends in a delimiter has an empty last token: [strtoi]
    warns, and the port 0 is written to the port map with flag 1.  The
    port map is assumed to have room for the tokens. *)
Theorem update_ports_trailing_delimiter K s fd id m p d :
  nth 4 (map_fd s) 0 = fd -> map_at s fd id m ->
  is_delim (delim K) d = true ->
  (length (Bpf.elems m) + length (tokens (delim K) (p +:+ String d EmptyString))
   <= Bpf.max_entries m)%nat ->
  exists s' m',
    update_ports K (p +:+ String d EmptyString) s = Ret () s' /\
    map_at s' fd id m' /\
    Stderr "out of range" ∈ port_warnings (tokens (delim K) (p +:+ String d EmptyString)) /\
    out s' = out s ++ port_warnings (tokens (delim K) (p +:+ String d EmptyString)) /\
    Bpf.lookup 0 (Bpf.elems m') = Some 1.
Proof.
  intros Hfd Hm Hd Hroom.
  destruct (update_ports_spec K (p +:+ String d EmptyString) s fd id m Hfd Hm)
    as (s' & Hrun & Hm' & Ho').
  assert (Hin : EmptyString ∈ tokens (delim K) (p +:+ String d EmptyString)).
  { destruct (tokens_trailing_delim (delim K) p d Hd) as (t & ts & -> & Hl).
    apply list_elem_of_further. apply list_elem_of_lookup. exists (pred (length ts)).
    by rewrite <- last_lookup. }
  exists s', (foldl put_port m (tokens (delim K) (p +:+ String d EmptyString))).
  do 2 (split; [done|]). split; [by apply (port_warnings_malformed _ EmptyString)|].
  split; [done|]. by apply (put_port_lookup _ m EmptyString).
Qed.

Lemma update_ports_trailing_delimiter_witness :
  exists s' m',
    let s := state0 [] (100, 0) [] in
    update_ports K0 ("80" +:+ ",") s = Ret () s' /\
    map_at s' 8 4 m' /\
    Stderr "out of range" ∈ port_warnings (tokens "," ("80" +:+ ",")) /\
    out s' = out s ++ port_warnings (tokens "," ("80" +:+ ",")) /\
    Bpf.lookup 0 (Bpf.elems m') = Some 1.
Proof.
  apply (update_ports_trailing_delimiter K0 (state0 [] (100, 0) []) 8 4%nat (Bpf.Map 50 [])
           "80" ","%char).
  - reflexivity.
  - by vm_compute.
  - by vm_compute.
  - vm_compute. lia.
Defined.

Lemma update_ports_keeps_other_ports_witness :
  exists s' m',
    update_ports K0 "80, 443" (state_ports [(22, 1)]) = Ret () s' /\
    map_at s' 8 4 m' /\
    Bpf.lookup 22 (Bpf.elems m') = Bpf.lookup 22 [(22, 1)].
Proof.
  apply (update_ports_keeps_other_ports K0 (state_ports [(22, 1)]) 8 4%nat
           (Bpf.Map 2 [(22, 1)]) "80, 443" 22).
  - reflexivity.
  - by vm_compute.
  - intros tok Hin.
    replace (tokens (delim K0) "80, 443") with ["80"; " 443"] in Hin by (by vm_compute).
    apply elem_of_cons in Hin as [->|Hin]; [by vm_compute|].
    apply elem_of_cons in Hin as [->|Hin]; [by vm_compute|]. by apply elem_of_nil in Hin.
Defined.

Lemma update_ports_full_map_witness :
  exists s',
    let s := state_ports [(22, 1); (23, 1)] in
    update_ports K0 "80, 443" s = Ret () s' /\
    map_at s' 8 4 (Bpf.Map 2 [(22, 1); (23, 1)]) /\
    out s' = out s ++ port_warnings (tokens "," "80, 443").
Proof.
  apply (update_ports_full_map K0 (state_ports [(22, 1); (23, 1)]) 8 4%nat
           (Bpf.Map 2 [(22, 1); (23, 1)]) "80, 443").
  - reflexivity.
  - by vm_compute.
  - simpl. lia.
  - intros tok Hin.
    replace (tokens (delim K0) "80, 443") with ["80"; " 443"] in Hin by (by vm_compute).
    apply elem_of_cons in Hin as [->|Hin]; [by vm_compute|].
    apply elem_of_cons in Hin as [->|Hin]; [by vm_compute|]. by apply elem_of_nil in Hin.
Defined.

(** ** [time_get_ns] and [delete_stale_entries] *)

(** X13: As long as the clock is below 2^64 ns (some 584 years) the
    multiplication and the addition in [time_get_ns] do not wrap: the
    result is the clock in nanoseconds. *)
Theorem time_get_ns_exact s :
  0 <= (clock s).1 -> 0 <= (clock s).2 ->
  (clock s).1 * 1000000000 + (clock s).2 < 2 ^ 64 ->
  time_get_ns s = Ret ((clock s).1 * 1000000000 + (clock s).2) s.
Proof.
  intros Hs Hn Hlt. unfold time_get_ns. mstep. unfold mret, M_ret. f_equal.
  unfold CInt.u64. rewrite (Z.mod_small (clock s).1) by lia.
  apply Z.mod_small. lia.
Qed.

Lemma time_get_ns_exact_witness :
  time_get_ns (state0 [] (100, 5) []) = Ret (100 * 1000000000 + 5) (state0 [] (100, 5) []).
Proof. apply (time_get_ns_exact (state0 [] (100, 5) [])); simpl; lia. Defined.

(** X14: When the descriptor of the window map is negative the sweep ends the
    whole process with status 1, from inside the loop of [main]: no BPF
    call is made and no teardown runs, so the kernel tables stay as they
    are. *)
Theorem delete_stale_entries_without_window_fd K fuel s :
  nth 1 (map_fd s) 0 < 0 ->
  delete_stale_entries K fuel s
  = Exit 1 (set_out (out s ++ [Log LOG_DEBUG "Deleting stale map entries periodically" [];
                               Log LOG_INFO "Window map fd not found" []]) s).
Proof.
  intros Hfd. unfold delete_stale_entries. mstep. mstep.
  replace (nth 1 (map_fd (set_out _ s)) 0) with (nth 1 (map_fd s) 0) by (by destruct s).
  destruct (Z.ltb_spec (nth 1 (map_fd s) 0) 0); [|lia].
  mstep. unfold exit. destruct s; simpl. by rewrite <- app_assoc.
Qed.

Lemma delete_stale_entries_without_window_fd_witness :
  let s := boot host0 (kern0 [(1, 1)]) in
  delete_stale_entries K0 0 (set_loaded [3] [4; -1] s)
  = Exit 1 (set_out (out (set_loaded [3] [4; -1] s)
                     ++ [Log LOG_DEBUG "Deleting stale map entries periodically" [];
                         Log LOG_INFO "Window map fd not found" []])
                    (set_loaded [3] [4; -1] s)).
Proof.
  apply (delete_stale_entries_without_window_fd K0 0
           (set_loaded [3] [4; -1] (boot host0 (kern0 [(1, 1)])))).
  simpl. lia.
Defined.

Lemma filter_remove_stale thr k (l : list (Z * Z)) :
  k < thr ->
  filter (fun e => thr <= e.1) (Bpf.remove k l) = filter (fun e => thr <= e.1) l.
Proof.
  intros Hk. unfold Bpf.remove. induction l as [|e l IH]; [done|].
  rewrite !filter_cons. repeat case_decide; rewrite ?filter_cons; repeat case_decide;
    try lia; by rewrite ?IH.
Qed.

Lemma filter_all_fresh thr (l : list (Z * Z)) :
  (forall x, x ∈ Bpf.keys l -> thr <= x) -> filter (fun e => thr <= e.1) l = l.
Proof.
  unfold Bpf.keys. induction l as [|e l IH]; intros H; [done|].
  rewrite filter_cons. rewrite decide_True by (apply H; rewrite fmap_cons; apply list_elem_of_here).
  f_equal. apply IH. intros x Hx. apply H. rewrite fmap_cons. by apply list_elem_of_further.
Qed.

(** Left alone, the loop leaves of the map exactly the entries that are
    not stale, in their order, provided every stale key is still ahead of
    the cursor. *)
Lemma psweep_alone_exact fd thr fuel : forall c l l' d' ev,
  NoDup (Bpf.keys l) ->
  (forall x, x ∈ Bpf.keys l -> x < thr -> ahead c (Bpf.keys l) x) ->
  psweep fuel fd thr c l [] = Some (l', d', ev) ->
  l' = filter (fun e => thr <= e.1) l.
Proof.
  induction fuel as [|fuel IH]; intros c l l' d' ev Hnd Hah Hp; [done|].
  cbn [psweep tick] in Hp.
  destruct (Bpf.next_key l c) as [k|] eqn:Hk.
  2:{ injection Hp as <- <- <-. symmetry. apply filter_all_fresh. intros x Hx.
      destruct (Z.le_gt_cases thr x) as [|Hst]; [done|].
      by destruct (next_key_None l c x Hk (Hah x Hx Hst)). }
  pose proof (next_key_elem_of _ _ _ Hk) as Hkin.
  destruct (Z.ltb_spec k thr) as [Hst|Hst].
  - rewrite (pdelete_present k l Hkin) in Hp. cbn [tick] in Hp.
    destruct (psweep fuel fd thr k (Bpf.remove k l) []) as [[[l'' d''] ev'']|] eqn:Hrec; [|done].
    simpl in Hp. inversion Hp; subst.
    rewrite <- (filter_remove_stale thr k l Hst).
    eapply IH; [by apply NoDup_keys_remove| |exact Hrec].
    intros x Hx _. apply keys_remove in Hx as [Hne Hx]. by apply ahead_remove.
  - destruct (psweep fuel fd thr k l []) as [[[l'' d''] ev'']|] eqn:Hrec; [|done].
    simpl in Hp. inversion Hp; subst.
    eapply IH; [done| |exact Hrec].
    intros x Hx Hxst. eapply ahead_next; [done..|by apply Hah|lia].
Qed.

(** X15: Without insertions by the XDP program, a sweep of a window map of [n]
    entries, [m] of them stale and none with key 0, returns within
    [(m + 1) * (n + 1)] rounds of its loop (each deletion sends the
    traversal back to the first key), and it leaves exactly the entries
    whose key is not below [now - buffer_time] (modulo 2^64), in their
    order and with their values. *)
Theorem delete_stale_entries_alone K s fd id cap l fuel :
  nth 1 (map_fd s) 0 = fd -> 0 <= fd ->
  window_at s fd id cap l -> NoDup (Bpf.keys l) ->
  0 ∉ Bpf.keys l -> dataplane s = [] ->
  (S (stale_count (threshold K s) l) * S (length l) <= fuel)%nat ->
  exists s', delete_stale_entries K fuel s = Ret () s' /\
             window_at s' fd id cap (filter (fun e => threshold K s <= e.1) l).
Proof.
  intros Hfd Hpos Hw Hnd H0 Hd Hfuel.
  destruct (psweep_alone_terminates fd (threshold K s) fuel 0 l Hnd) as [[[l' d'] ev] Hp].
  { pose proof (remaining_le 0 l). lia. }
  pose proof Hp as Hp'. rewrite <- Hd in Hp'.
  destruct (delete_stale_entries_psweep K s fd id cap l fuel l' d' ev Hfd Hpos Hw Hp')
    as (s' & Hrun & Hw' & _).
  exists s'. split; [done|].
  rewrite <- (psweep_alone_exact fd (threshold K s) fuel 0 l l' d' ev Hnd); [done| |done].
  intros x Hx _. apply after_None in H0. split; [done|]. by rewrite H0.
Qed.

Lemma delete_stale_entries_alone_witness :
  exists s',
    let s := state0 [(99000000000, 7); (1000000000, 1); (98500000000, 2); (5000000000, 3)]
                    (100, 0) [] in
    delete_stale_entries K0 15 s = Ret () s' /\
    window_at s' 5 1 100
      (filter (fun e => threshold K0 s <= e.1)
              [(99000000000, 7); (1000000000, 1); (98500000000, 2); (5000000000, 3)]).
Proof.
  apply (delete_stale_entries_alone K0 _ 5 1%nat 100%nat
           [(99000000000, 7); (1000000000, 1); (98500000000, 2); (5000000000, 3)] 15).
  - reflexivity.
  - lia.
  - by vm_compute.
  - compute_done.
  - compute_done.
  - reflexivity.
  - vm_compute. lia.
Defined.

(** ** Chaining and publishing *)

Lemma fresh_fd_zero (t : gmap Z nat) : t !! 0 = None -> Bpf.fresh_fd t = 0.
Proof.
  intros H0. unfold Bpf.fresh_fd. rewrite seqZ_cons by lia. simpl.
  by rewrite bool_decide_eq_true_2.
Qed.

Lemma fresh_fd_positive (t : gmap Z nat) : is_Some (t !! 0) -> 0 < Bpf.fresh_fd t.
Proof.
  intros [x Hx]. pose proof (fresh_fd_nonneg t). pose proof (fresh_fd_free t) as Hf.
  destruct (decide (Bpf.fresh_fd t = 0)) as [Heq|]; [|lia]. rewrite Heq in Hf. congruence.
Qed.



(** X17: When [publish_next] returns, the well-known path is pinned.  A map
    that was pinned there before stays: the own map [map_fd[5]] is pinned
    only when the path was free. *)
Theorem publish_next_pins K s s' :
  publish_next K s = Ret () s' ->
  is_Some (Bpf.bpffs (kern s') !! xdp_rl_ingress_next_prog K) /\
  Bpf.bpffs (kern s') !! xdp_rl_ingress_next_prog K
  = match Bpf.bpffs (kern s) !! xdp_rl_ingress_next_prog K with
    | Some id => Some id
    | None => Bpf.fds (kern s) !! nth 5 (map_fd s) 0
    end /\
  Bpf.objs (kern s') = Bpf.objs (kern s).
Proof.
  unfold publish_next, mbind, M_bind, bpf_obj_get, bpf_obj_pin, when, log_info, emit,
    modify, gets, exit, mret, M_ret.
  destruct s as [h [objs fds fs pas prs] clk dp ifx inf prev vb pfd mfd o]; simpl.
  destruct (fs !! xdp_rl_ingress_next_prog K) as [id|] eqn:Hpin; simpl.
  - pose proof (fresh_fd_nonneg fds). destruct (Z.ltb_spec (Bpf.fresh_fd fds) 0); [lia|].
    intros [= <-]. simpl. by rewrite Hpin.
  - rewrite Hpin. destruct (fds !! nth 5 mfd 0) as [id5|] eqn:H5; simpl; [|done].
    intros [= <-]. simpl. by rewrite lookup_insert_eq.
Qed.

Lemma publish_next_pins_witness :
  let s := state0 [] (100, 0) [] in
  let s' := final (publish_next K0 s) in
  is_Some (Bpf.bpffs (kern s') !! xdp_rl_ingress_next_prog K0) /\
  Bpf.bpffs (kern s') !! xdp_rl_ingress_next_prog K0
  = match Bpf.bpffs (kern s) !! xdp_rl_ingress_next_prog K0 with
    | Some id => Some id
    | None => Bpf.fds (kern s) !! nth 5 (map_fd s) 0
    end /\
  Bpf.objs (kern s') = Bpf.objs (kern s).
Proof.
  apply (publish_next_pins K0 (state0 [] (100, 0) []) (final (publish_next K0 (state0 [] (100, 0) [])))).
  by vm_compute.
Defined.

(** ** Configuration *)

Lemma init_map_ret i msg v s s' id m :
  map_at s (nth i (map_fd s) 0) id m ->
  init_map i msg v s = Ret () s' ->
  exists m', nth i (map_fd s) 0 <> 0 /\
             Bpf.update 0 v m = Some m' /\
             s' = put_obj id m' s.
Proof.
  intros [Hfd Hobj]. unfold init_map. mstep.
  destruct (Z.eqb_spec (nth i (map_fd s) 0) 0) as [|Hne]; [done|].
  unfold mbind, M_bind, bpf_map_update_elem. rewrite Hfd, Hobj.
  destruct (Bpf.update 0 v m) as [m'|] eqn:Hup; simpl; [|done].
  intros [= <-]. by exists m'.
Qed.

Lemma map_at_put_ne s fd id m id' m' :
  id <> id' -> map_at s fd id m -> map_at (put_obj id' m' s) fd id m.
Proof.
  intros Hne [Hfd Hobj]. destruct s as [h [objs fds fs pas prs]]; simpl in *.
  split; [done|]. simpl. by rewrite lookup_insert_ne.
Qed.

(** X18: When [configure] returns and the config map and the two counter maps
    are three different maps (hash or array maps, not program arrays), the
    config map holds the rate at key 0 and both counters hold 0 at key 0.
    None of the three descriptors is 0. *)
Theorem configure_writes rate s s' id0 id2 id3 m0 m2 m3 :
  configure rate s = Ret () s' ->
  map_at s (nth 0 (map_fd s) 0) id0 m0 ->
  map_at s (nth 2 (map_fd s) 0) id2 m2 ->
  map_at s (nth 3 (map_fd s) 0) id3 m3 ->
  id0 <> id2 -> id0 <> id3 -> id2 <> id3 ->
  (fun m => Bpf.lookup 0 (Bpf.elems m)) <$> Bpf.objs (kern s') !! id0 = Some (Some rate) /\
  (fun m => Bpf.lookup 0 (Bpf.elems m)) <$> Bpf.objs (kern s') !! id2 = Some (Some 0) /\
  (fun m => Bpf.lookup 0 (Bpf.elems m)) <$> Bpf.objs (kern s') !! id3 = Some (Some 0) /\
  nth 0 (map_fd s) 0 <> 0 /\ nth 2 (map_fd s) 0 <> 0 /\ nth 3 (map_fd s) 0 <> 0.
Proof.
  unfold configure. intros Hrun H0 H2 H3 H02 H03 H23.
  unfold mbind, M_bind in Hrun.
  destruct (init_map 0 "ERROR: rl_config_map not found" rate s) as [[] s1| |] eqn:Hi0;
    [|done..].
  destruct (init_map 2 "ERROR: rl_recv_count_map not found" 0 s1) as [[] s2| |] eqn:Hi2;
    [|done..].
  apply (init_map_ret _ _ _ _ _ _ _ H0) in Hi0 as (m0' & Hn0 & Hu0 & ->).
  assert (Hmfd1 : map_fd (put_obj id0 m0' s) = map_fd s) by (by destruct s).
  rewrite <- Hmfd1 in H2, H3.
  apply (map_at_put_ne _ _ _ _ id0 m0') in H2; [|done].
  apply (map_at_put_ne _ _ _ _ id0 m0') in H3; [|done].
  set (s1 := put_obj id0 m0' s) in *.
  apply (init_map_ret _ _ _ _ _ _ _ H2) in Hi2 as (m2' & Hn2 & Hu2 & ->).
  assert (Hmfd2 : map_fd (put_obj id2 m2' s1) = map_fd s1) by (by destruct s1).
  rewrite <- Hmfd2 in H3.
  apply (map_at_put_ne _ _ _ _ id2 m2') in H3; [|done].
  set (s2 := put_obj id2 m2' s1) in *.
  apply (init_map_ret _ _ _ _ _ _ _ H3) in Hrun as (m3' & Hn3 & Hu3 & ->).
  rewrite Hmfd2 in Hn3. rewrite Hmfd1 in Hn2, Hn3.
  unfold s2, s1.
  destruct s as [h [objs fds fs pas prs] clk dp ifx inf prev vb pfd mfd o]; simpl in *.
  rewrite lookup_insert_ne, lookup_insert_ne, lookup_insert_eq by done.
  rewrite lookup_insert_ne, lookup_insert_eq by done.
  rewrite lookup_insert_eq. simpl.
  rewrite (update_lookup _ _ _ _ Hu0), (update_lookup _ _ _ _ Hu2), (update_lookup _ _ _ _ Hu3).
  done.
Qed.

Lemma configure_writes_witness :
  let s := state0 [] (100, 0) [] in
  let s' := final (configure 100 s) in
  (fun m => Bpf.lookup 0 (Bpf.elems m)) <$> Bpf.objs (kern s') !! 0%nat = Some (Some 100) /\
  (fun m => Bpf.lookup 0 (Bpf.elems m)) <$> Bpf.objs (kern s') !! 2%nat = Some (Some 0) /\
  (fun m => Bpf.lookup 0 (Bpf.elems m)) <$> Bpf.objs (kern s') !! 3%nat = Some (Some 0) /\
  nth 0 (map_fd s) 0 <> 0 /\ nth 2 (map_fd s) 0 <> 0 /\ nth 3 (map_fd s) 0 <> 0.
Proof.
  apply (configure_writes 100 (state0 [] (100, 0) []) (final (configure 100 (state0 [] (100, 0) [])))
           0%nat 2%nat 3%nat (Bpf.Map 1 []) (Bpf.Map 1 []) (Bpf.Map 1 [])); by vm_compute.
Defined.

Lemma publish_next_frame K s :
  let r := publish_next K s in
  Bpf.objs (kern (final r)) = Bpf.objs (kern s) /\
  Bpf.prog_arrays (kern (final r)) = Bpf.prog_arrays (kern s) /\
  (forall p id, Bpf.bpffs (kern s) !! p = Some id -> Bpf.bpffs (kern (final r)) !! p = Some id) /\
  map_fd (final r) = map_fd s /\
  ((exists s', r = Ret () s') \/ (exists s', r = Exit 1 s')).
Proof.
  unfold publish_next, mbind, M_bind, bpf_obj_get, bpf_obj_pin, when, log_info, emit,
    modify, gets, exit, mret, M_ret.
  destruct s as [h [objs fds fs pas prs] clk dp ifx inf prev vb pfd mfd o]; simpl.
  destruct (fs !! xdp_rl_ingress_next_prog K) as [id|] eqn:Hpin; simpl.
  - pose proof (fresh_fd_nonneg fds). destruct (Z.ltb_spec (Bpf.fresh_fd fds) 0); [lia|].
    simpl. repeat split; eauto.
  - rewrite Hpin. destruct (fds !! nth 5 mfd 0) as [id5|] eqn:H5; simpl.
    + repeat split; [|by eauto]. intros p id Hp. rewrite lookup_insert_ne; [done|].
      intros <-. congruence.
    + repeat split; eauto.
Qed.

(** X19: No failure of the set-up undoes the chaining step: when pinning the
    own map fails, or the descriptor of the config map is 0, [main] exits
    (with status 1 or -1) and key 0 of the previous program's map still
    holds what the chaining step left there: in a program array the program
    that [prog_fd[0]] is open on, read as its id; in a hash or array map
    the number [prog_fd[0]]. *)
Theorem main_exit_keeps_link K argv0 opts s r s2 s3 :
  startup K argv0 opts s = Ret r s2 ->
  chain_link s2 = Ret () s3 ->
  (exists st s4, publish_next K s3 = Exit st s4) \/ nth 0 (map_fd s3) 0 = 0 ->
  exists st s' id,
    main K argv0 opts s = Exit st s' /\ (st = 1 \/ st = -1) /\
    Bpf.bpffs (kern s') !! prev_prog_map s2 = Some id /\
    match Bpf.objs (kern s') !! id with
    | Some m => Bpf.lookup 0 (Bpf.elems m) = Some (nth 0 (prog_fd s2) 0)
    | None =>
        exists a pid,
          Bpf.prog_arrays (kern s') !! id = Some a /\
          Bpf.prog_id (kern s2) (nth 0 (prog_fd s2) 0) = Some pid /\
          Bpf.lookup 0 (Bpf.elems a) = Some pid
    end.
Proof.
  intros Hs Hch Hfail. unfold main.
  erewrite bind_ret by exact Hs. destruct r as [rate ports].
  erewrite bind_ret by exact Hch.
  apply chain_link_entry in Hch as (_ & _ & id & Hpin3 & Hentry).
  destruct (publish_next_frame K s3) as (Hobjs & Hpas & Hfs & Hmfd & Hr).
  destruct Hr as [[s4 Hr]|[s4 Hr]]; rewrite Hr in *; cbn [final] in *.
  - destruct Hfail as [(st & s4' & Hex)|H0]; [congruence|].
    erewrite bind_ret by exact Hr.
    exists (-1), (set_out (out s4 ++ [Log LOG_ERR "ERROR: rl_config_map not found" []]) s4), id.
    split; [|split; [by right|]].
    + unfold configure, init_map. erewrite bind_exit; [done|].
      erewrite bind_exit; [done|]. mstep. rewrite Hmfd, H0. simpl. by mstep.
    + replace (kern (set_out _ s4)) with (kern s4) by (by destruct s4).
      rewrite Hobjs, Hpas. split; [by apply Hfs|done].
  - exists 1, s4, id. split; [by erewrite bind_exit by exact Hr|]. split; [by left|].
    rewrite Hobjs, Hpas. split; [by apply Hfs|done].
Qed.

Lemma main_exit_keeps_link_witness :
  exists st s' id,
    let s2 := final (startup K0 "ratelimiting" opts0 (boot host_no_config_map (kern0 []))) in
    main K0 "ratelimiting" opts0 (boot host_no_config_map (kern0 [])) = Exit st s' /\
    (st = 1 \/ st = -1) /\
    Bpf.bpffs (kern s') !! prev_prog_map s2 = Some id /\
    match Bpf.objs (kern s') !! id with
    | Some m => Bpf.lookup 0 (Bpf.elems m) = Some (nth 0 (prog_fd s2) 0)
    | None =>
        exists a pid,
          Bpf.prog_arrays (kern s') !! id = Some a /\
          Bpf.prog_id (kern s2) (nth 0 (prog_fd s2) 0) = Some pid /\
          Bpf.lookup 0 (Bpf.elems a) = Some pid
    end.
Proof.
  set (s2 := final (startup K0 "ratelimiting" opts0 (boot host_no_config_map (kern0 [])))).
  apply (main_exit_keeps_link K0 "ratelimiting" opts0 (boot host_no_config_map (kern0 []))
           (100, "80, 443 ,8080") s2 (final (chain_link s2))).
  - by vm_compute.
  - by vm_compute.
  - right. by vm_compute.
Defined.

(** ** Unlinking and teardown *)

Lemma lookup_remove k k' (l : list (Z * Z)) :
  Bpf.lookup k (Bpf.remove k' l) = if decide (k = k') then None else Bpf.lookup k l.
Proof.
  unfold Bpf.remove. induction l as [|[k0 v0] l IH]; [by case_decide|].
  rewrite filter_cons. cbn [fst]. cbn [Bpf.lookup].
  destruct (decide (k0 <> k')) as [Hk0|Hk0]; cbn [Bpf.lookup]; rewrite IH.
  - destruct (Z.eqb_spec k0 k) as [->|Hne]; [by rewrite decide_False|done].
  - assert (k0 = k') as -> by (by destruct (decide (k0 = k'))).
    destruct (decide (k = k')) as [->|Hne]; [done|].
    by destruct (Z.eqb_spec k' k); [congruence|].
Qed.



(** X24: In a chain through a program array, with descriptor 0 open,
    [xdp_unlink_bpf_chain] undoes the chaining step: it empties slot 0 of
    the previous program's array, leaves the other slots alone, removes the
    pinned file of the own map and returns 0. *)
Theorem xdp_unlink_bpf_chain_unlinks_prog_array K path s id a pid :
  is_Some (Bpf.fds (kern s) !! 0) ->
  Bpf.bpffs (kern s) !! path = Some id ->
  Bpf.objs (kern s) !! id = None ->
  Bpf.prog_arrays (kern s) !! id = Some a ->
  Bpf.lookup 0 (Bpf.elems a) = Some pid ->
  exists s' a',
    xdp_unlink_bpf_chain K path s = Ret 0 s' /\
    Bpf.prog_arrays (kern s') !! id = Some a' /\
    Bpf.lookup 0 (Bpf.elems a') = None /\
    (forall k, k <> 0 -> Bpf.lookup k (Bpf.elems a') = Bpf.lookup k (Bpf.elems a)) /\
    Bpf.bpffs (kern s') !! xdp_rl_ingress_next_prog K = None.
Proof.
  intros H0 Hpin Hobj Hpa Hv.
  pose proof (fresh_fd_positive _ H0) as Hfd.
  unfold xdp_unlink_bpf_chain, mbind, M_bind, bpf_obj_get,
    bpf_map_delete_elem, remove, when, log_err, log_warn, emit, modify, mret, M_ret.
  destruct s as [h [objs fds fs pas prs] clk dp ifx inf prev vb pfd mfd o]; simpl in *.
  rewrite Hpin. simpl. destruct (Z.ltb_spec 0 (Bpf.fresh_fd fds)); [|lia]. simpl.
  rewrite lookup_insert_eq, Hobj, Hpa. unfold Bpf.delete. rewrite Hv. simpl.
  destruct (fs !! xdp_rl_ingress_next_prog K) eqn:Hnext; simpl;
    eexists _, _; (split; [reflexivity|]); simpl; rewrite lookup_insert_eq;
    (split; [reflexivity|]); simpl; (split; [by rewrite lookup_remove|]);
    (split; [intros k Hk; rewrite lookup_remove; by rewrite decide_False|]).
  - apply lookup_delete_eq.
  - done.
Qed.

Lemma xdp_unlink_bpf_chain_unlinks_prog_array_witness :
  exists s' a',
    xdp_unlink_bpf_chain K0 "/sys/fs/bpf/prev" state_chained = Ret 0 s' /\
    Bpf.prog_arrays (kern s') !! 10%nat = Some a' /\
    Bpf.lookup 0 (Bpf.elems a') = None /\
    (forall k, k <> 0 -> Bpf.lookup k (Bpf.elems a') = Bpf.lookup k [(2, 77); (0, 164)]) /\
    Bpf.bpffs (kern s') !! xdp_rl_ingress_next_prog K0 = None.
Proof.
  apply (xdp_unlink_bpf_chain_unlinks_prog_array K0 "/sys/fs/bpf/prev" state_chained 10%nat
           (Bpf.Map 4 [(2, 77); (0, 164)]) 164).
  - exists 100%nat. by vm_compute.
  - by vm_compute.
  - by vm_compute.
  - by vm_compute.
  - by vm_compute.
Defined.

(** X21: [xdp_unlink_bpf_chain] takes a descriptor for a failure unless it is
    above 0.  In a process whose descriptor 0 is free, [bpf_obj_get]
    returns 0: the previous program's map is reported as not found, and
    its entry is left in place although the map is pinned, be it a hash or
    array map or a program array. *)
Theorem xdp_unlink_bpf_chain_descriptor_0 K path s id :
  Bpf.fds (kern s) !! 0 = None ->
  Bpf.bpffs (kern s) !! path = Some id ->
  exists s',
    xdp_unlink_bpf_chain K path s = Ret 0 s' /\
    Bpf.objs (kern s') = Bpf.objs (kern s) /\
    Log LOG_ERR "Previous program's map is not found %s" [AStr path] ∈ out s' /\
    Bpf.prog_arrays (kern s') = Bpf.prog_arrays (kern s).
Proof.
  intros H0 Hpin.
  pose proof (fresh_fd_zero _ H0) as Hfd.
  unfold xdp_unlink_bpf_chain, mbind, M_bind, bpf_obj_get,
    bpf_map_delete_elem, remove, when, log_err, log_warn, emit, modify, mret, M_ret.
  destruct s as [h [objs fds fs pas prs] clk dp ifx inf prev vb pfd mfd o]; simpl in *.
  rewrite Hpin. simpl. rewrite Hfd. simpl.
  destruct (fs !! xdp_rl_ingress_next_prog K) eqn:Hnext; simpl;
    eexists; (split; [reflexivity|]); simpl; (split; [done|]); (split; [|done]);
    rewrite ?elem_of_app, !elem_of_cons; tauto.
Qed.

Lemma xdp_unlink_bpf_chain_descriptor_0_witness :
  exists s',
    xdp_unlink_bpf_chain K0 "/sys/fs/bpf/prev" (state0 [] (100, 0) []) = Ret 0 s' /\
    Bpf.objs (kern s') = Bpf.objs (kern (state0 [] (100, 0) [])) /\
    Log LOG_ERR "Previous program's map is not found %s" [AStr "/sys/fs/bpf/prev"] ∈ out s' /\
    Bpf.prog_arrays (kern s') = Bpf.prog_arrays (kern (state0 [] (100, 0) [])).
Proof.
  apply (xdp_unlink_bpf_chain_descriptor_0 K0 "/sys/fs/bpf/prev" (state0 [] (100, 0) []) 10%nat);
    by vm_compute.
Defined.

Lemma xdp_unlink_bpf_chain_post K path s :
  exists r s', xdp_unlink_bpf_chain K path s = Ret r s' /\
               Bpf.bpffs (kern s') !! xdp_rl_ingress_next_prog K = None /\
               map_fd s' = map_fd s /\ info s' = info s /\ sys s' = sys s.
Proof.
  unfold xdp_unlink_bpf_chain, mbind, M_bind, bpf_obj_get,
    bpf_map_delete_elem, remove, when, log_err, log_warn, emit, modify, mret, M_ret.
  destruct s as [h [objs fds fs pas prs] clk dp ifx inf prev vb pfd mfd o]; simpl.
  destruct (fs !! path) as [id|] eqn:Hpin; simpl;
    [destruct (0 <? Bpf.fresh_fd fds) eqn:Hfd; simpl;
     [rewrite lookup_insert_eq;
      destruct (objs !! id) as [m|] eqn:Hobj; simpl;
      [destruct (Bpf.delete 0 (Bpf.elems m)) as [l|] eqn:Hdel; simpl
      |destruct (pas !! id) as [a|] eqn:Hpa; simpl;
       [destruct (Bpf.delete 0 (Bpf.elems a)) as [l|] eqn:Hdel; simpl|]]|]|];
    destruct (fs !! xdp_rl_ingress_next_prog K) eqn:Hnext; simpl;
    eexists _, _; (split; [reflexivity|]); simpl;
    by rewrite ?lookup_delete_eq.
Qed.

Lemma close_maps_closes n : forall i s,
  exists s', close_maps i n s = Ret () s' /\
             Bpf.bpffs (kern s') = Bpf.bpffs (kern s) /\
             map_fd s' = map_fd s /\ info s' = info s /\ sys s' = sys s /\
             (forall fd, Bpf.fds (kern s) !! fd = None -> Bpf.fds (kern s') !! fd = None) /\
             (forall j, (i <= j < i + n)%nat ->
                        Bpf.fds (kern s') !! nth j (map_fd s) 0 = None).
Proof.
  induction n as [|n IH]; intros i s.
  - exists s. repeat split; [done|]. intros j Hj. lia.
  - cbn [close_maps]. mstep.
    assert (exists r s1, close (nth i (map_fd s) 0) s = Ret r s1 /\
                         Bpf.bpffs (kern s1) = Bpf.bpffs (kern s) /\
                         map_fd s1 = map_fd s /\ info s1 = info s /\ sys s1 = sys s /\
                         (forall fd, Bpf.fds (kern s) !! fd = None ->
                                     Bpf.fds (kern s1) !! fd = None) /\
                         Bpf.fds (kern s1) !! nth i (map_fd s) 0 = None)
      as (r & s1 & Hc & Hfs & Hmfd & Hinfo & Hsys & Hmono & Hclosed).
    { unfold close. destruct (Bpf.fds (kern s) !! nth i (map_fd s) 0) eqn:Hfd;
        eexists _, _; (split; [reflexivity|]);
        destruct s as [h [objs fds fs pas prs] clk dp ifx inf prev vb pfd mfd o]; simpl in *;
        repeat split; try done.
      - intros fd Hn. destruct (decide (nth i mfd 0 = fd)) as [<-|Hne];
          [apply lookup_delete_eq|by rewrite lookup_delete_ne].
      - apply lookup_delete_eq. }
    erewrite bind_ret by exact Hc.
    destruct (IH (S i) s1) as (s' & Hrun & Hfs' & Hmfd' & Hinfo' & Hsys' & Hmono' & Hclosed').
    exists s'. split; [done|]. rewrite Hfs', Hmfd', Hinfo', Hsys'. repeat split; try done.
    + intros fd Hn. by apply Hmono', Hmono.
    + intros j Hj. destruct (decide (j = i)) as [->|Hne].
      * by apply Hmono'.
      * rewrite <- Hmfd. apply Hclosed'. lia.
Qed.

(** X22: After the handler none of the [MAP_COUNT] map descriptors is open,
    the pinned file of the own map is gone and the log file is closed; the
    process has exited with status 0. *)
Theorem signal_handler_releases K signal s :
  exists s', signal_handler K signal s = Exit 0 s' /\
             (forall i, (i < MAP_COUNT K)%nat ->
                        Bpf.fds (kern s') !! nth i (map_fd s) 0 = None) /\
             Bpf.bpffs (kern s') !! xdp_rl_ingress_next_prog K = None /\
             info s' = false.
Proof.
  unfold signal_handler. mstep. mstep.
  set (s0 := set_out _ s).
  destruct (xdp_unlink_bpf_chain_post K (prev_prog_map s0) s0)
    as (r & s1 & Hu & Hnext & Hmfd1 & Hi1 & _).
  erewrite bind_ret by exact Hu.
  destruct (close_maps_closes (MAP_COUNT K) 0%nat s1)
    as (s2 & Hc & Hfs2 & Hmfd2 & Hi2 & _ & _ & Hclosed).
  erewrite bind_ret by exact Hc. mstep.
  assert (Hmfd : map_fd s1 = map_fd s) by (rewrite Hmfd1; by destruct s).
  destruct (info s2) eqn:Hinfo; simpl.
  - eexists. split; [reflexivity|]. destruct s2 as [h2 k2]; simpl in *.
    split; [|split; [congruence|done]].
    intros i Hi. rewrite <- Hmfd. apply Hclosed. lia.
  - eexists. split; [reflexivity|].
    split; [|split; [congruence|done]].
    intros i Hi. rewrite <- Hmfd. apply Hclosed. lia.
Qed.

(** ** The options *)


